(** * photo_mapper: EXIF GPS extraction and KML generation

    A shallow embedding of [photo_mapper.py].  Python values are an
    inductive type, Python floats are binary64 primitive floats,
    exceptions are an explicit error monad, and the calls into Pillow,
    pillow-heif, piexif and the file system are fields of a [Runtime]
    class, so that every function of the script is an executable Rocq
    function of the values those libraries hand back. *)

From Stdlib Require Import ZArith List String Ascii Bool Lia Floats DecimalString.
Import ListNotations.
Local Open Scope string_scope.
Local Open Scope Z_scope.
Set Warnings "-register-all,-inexact-float".

(** ** Exceptions *)

Inductive exn_kind :=
| TypeError | ValueError | KeyError | IndexError | AttributeError
| ZeroDivisionError | OverflowError | OSError.

(** An instance of a subclass of [Exception] with its [str()]. *)
Record exn := Exn { exn_kind_of : exn_kind; exn_msg : string }.

Inductive exc (A : Type) :=
| Ok (a : A)
| Raise (e : exn).
Arguments Ok {A} a.
Arguments Raise {A} e.

Definition exc_bind {A B} (m : exc A) (k : A -> exc B) : exc B :=
  match m with
  | Ok a => k a
  | Raise e => Raise e
  end.

Declare Scope exc_scope.
Delimit Scope exc_scope with exc.
Notation "x <- m ;; k" := (exc_bind m (fun x => k))
  (at level 61, m at next level, right associativity) : exc_scope.

(** [try: body / except Exception: return None] around a body that
    returns an optional value. *)
Definition except_None {A} (body : exc (option A)) : option A :=
  match body with
  | Ok r => r
  | Raise _ => None
  end.

(** [try: return body / except Exception: return None]. *)
Definition ok_or_None {A} (body : exc A) : option A :=
  match body with
  | Ok a => Some a
  | Raise _ => None
  end.

(** ** Python values *)

Inductive pyval :=
| VNone
| VBool (b : bool)
| VInt (z : Z)
| VFloat (f : float)
| VStr (s : string)
| VBytes (s : string)
| VTuple (l : list pyval)
| VList (l : list pyval)
| VDict (d : list (pyval * pyval))
| VRational (num den : Z).
(** [VRational] is an object exposing integer [numerator] and
    [denominator] attributes that is not itself an [int]: Pillow's
    [IFDRational] or a [fractions.Fraction].  A [str] holds one [ascii]
    per character, a [bytes] one per byte. *)

(** A [dict] in insertion order. *)
Definition pydict := list (pyval * pyval).

(** ** Floats *)

(** [float(z)] for an [int]: correctly rounded, [OverflowError] when the
    rounded value is not finite. *)
Definition float_of_Z (z : Z) : exc float :=
  match binary_normalize prec emax z 0 false with
  | S754_infinity _ => Raise (Exn OverflowError "int too large to convert to float")
  | sf => Ok (SF2Prim sf)
  end.

(** [a / b] on floats: only a zero divisor raises. *)
Definition py_fdiv (a b : float) : exc float :=
  if PrimFloat.eqb b 0%float
  then Raise (Exn ZeroDivisionError "float division by zero")
  else Ok (a / b)%float.

(** Exact comparison of a float with an integer literal, as [==] does. *)
Definition float_eq_Z (f : float) (n : Z) : bool :=
  match Prim2SF f with
  | S754_zero _ => n =? 0
  | S754_finite s m e =>
      let v := if s then Z.neg m else Z.pos m in
      if 0 <=? e then v * 2 ^ e =? n else v =? n * 2 ^ (- e)
  | _ => false
  end.

(** Exact comparison of a float with the rational [n / d], [d <> 0]. *)
Definition float_eq_Q (f : float) (n d : Z) : bool :=
  match Prim2SF f with
  | S754_zero _ => n =? 0
  | S754_finite s m e =>
      let v := if s then Z.neg m else Z.pos m in
      if 0 <=? e then v * 2 ^ e * d =? n else v * d =? n * 2 ^ (- e)
  | _ => false
  end.

(** *** [str(f)] of a float

    Python prints the shortest decimal that reads back as the same
    float, the nearest one when several have that length.  The search
    works on the rounding interval of [m * 2^e], measured in units of
    [2^(e-2)]. *)

Definition interval_lo (m : positive) (e : Z) : Z :=
  if (Z.pos m =? 2 ^ 52) && (-1074 <? e) then 4 * Z.pos m - 1 else 4 * Z.pos m - 2.

Definition interval_hi (m : positive) : Z := 4 * Z.pos m + 2.

(** Does [num / den] units round to [m * 2^e]?  Ties go to the even
    mantissa. *)
Definition in_interval (m : positive) (e : Z) (num den : Z) : bool :=
  if Z.even (Z.pos m)
  then (interval_lo m e * den <=? num) && (num <=? interval_hi m * den)
  else (interval_lo m e * den <? num) && (num <? interval_hi m * den).

(** The multiple of [10^q] next to [m * 2^e] that rounds to it, if any.
    When the multiple below and the one above both do, the nearer one
    is taken, and of two equally near ones the one with the even last
    digit. *)
Definition candidate (m : positive) (e q : Z) : option Z :=
  let ue := e - 2 in
  let a := 2 ^ (Z.max ue 0) * 10 ^ (Z.max (- q) 0) in
  let b := 10 ^ (Z.max q 0) * 2 ^ (Z.max (- ue) 0) in
  let v := 4 * Z.pos m * a in
  let lo := v / b in
  let hi := lo + 1 in
  match in_interval m e (lo * b) a, in_interval m e (hi * b) a with
  | true, true =>
      Some (match (v - lo * b) ?= (hi * b - v) with
            | Lt => lo
            | Gt => hi
            | Eq => if Z.even lo then lo else hi
            end)
  | true, false => Some lo
  | false, true => Some hi
  | false, false => None
  end.

Fixpoint shortest_from (fuel : nat) (m : positive) (e q : Z) : Z * Z :=
  match fuel with
  | O => (Z.pos m * 2 ^ e, 0)
  | S fuel' =>
      match candidate m e q with
      | Some d => (d, q)
      | None => shortest_from fuel' m e (q - 1)
      end
  end.

(** Digits [d] and exponent [q] with [d * 10^q] the shortest decimal;
    the search starts above the decimal magnitude of the float. *)
Definition shortest_decimal (m : positive) (e : Z) : Z * Z :=
  let bits := Z.pos (digits2_pos m) + e in
  shortest_from 40 m e (bits * 30103 / 100000 + 2).

Definition decimal_digits (d : Z) : string := NilZero.string_of_int (Z.to_int d).

Fixpoint zeros (n : nat) : string :=
  match n with O => "" | S n' => String "0" (zeros n') end.

Definition format_exponent (x : Z) : string :=
  (if x <? 0 then "-" else "+") ++ (if Z.abs x <? 10 then "0" else "")
  ++ decimal_digits (Z.abs x).

(** Fixed notation while the decimal point falls within 16 digits and
    not more than 4 zeros follow it, exponent notation otherwise. *)
Definition format_finite (m : positive) (e : Z) : string :=
  let (d, q) := shortest_decimal m e in
  let ds := decimal_digits d in
  let n := Z.of_nat (String.length ds) in
  let decpt := n + q in
  if (decpt <=? -4) || (16 <? decpt) then
    substring 0 1 ds
    ++ (if 1 <? n then "." ++ substring 1 (String.length ds - 1) ds else "")
    ++ "e" ++ format_exponent (decpt - 1)
  else if decpt <=? 0 then
    "0." ++ zeros (Z.to_nat (- decpt)) ++ ds
  else if n <=? decpt then
    ds ++ zeros (Z.to_nat (decpt - n)) ++ ".0"
  else
    substring 0 (Z.to_nat decpt) ds ++ "."
    ++ substring (Z.to_nat decpt) (String.length ds - Z.to_nat decpt) ds.

(** [str(f)], which an f-string applies to a float field. *)
Definition float_str (f : float) : string :=
  match Prim2SF f with
  | S754_nan => "nan"
  | S754_infinity s => if s then "-inf" else "inf"
  | S754_zero s => if s then "-0.0" else "0.0"
  | S754_finite s m e => (if s then "-" else "") ++ format_finite m e
  end.

(** [str(z)] of an [int]. *)
Definition int_str (z : Z) : string := NilZero.string_of_int (Z.to_int z).

(** ** Built-in operations on values *)

Definition Z_of_bool (b : bool) : Z := if b then 1 else 0.

(** [a == b] where at least one side is hashable (a literal or a
    dictionary key); [bool], [int], [float] and rationals compare by
    numeric value, as Python does. *)
Fixpoint py_eq (a b : pyval) {struct a} : bool :=
  match a, b with
  | VNone, VNone => true
  | VBool x, VBool y => Z_of_bool x =? Z_of_bool y
  | VBool x, VInt y => Z_of_bool x =? y
  | VInt x, VBool y => x =? Z_of_bool y
  | VInt x, VInt y => x =? y
  | VBool x, VFloat f | VFloat f, VBool x => float_eq_Z f (Z_of_bool x)
  | VInt x, VFloat f | VFloat f, VInt x => float_eq_Z f x
  | VFloat f, VFloat g => PrimFloat.eqb f g
  | VBool x, VRational n d | VRational n d, VBool x =>
      negb (d =? 0) && (n =? Z_of_bool x * d)
  | VInt x, VRational n d | VRational n d, VInt x =>
      negb (d =? 0) && (n =? x * d)
  | VFloat f, VRational n d | VRational n d, VFloat f =>
      negb (d =? 0) && float_eq_Q f n d
  | VRational n d, VRational n' d' =>
      negb (d =? 0) && negb (d' =? 0) && (n * d' =? n' * d)
  | VStr s, VStr t => String.eqb s t
  | VBytes s, VBytes t => String.eqb s t
  | VTuple l, VTuple l' =>
      (fix all2 (l l' : list pyval) {struct l} : bool :=
         match l, l' with
         | [], [] => true
         | x :: xs, y :: ys => py_eq x y && all2 xs ys
         | _, _ => false
         end) l l'
  | _, _ => false
  end.

(** [d.get(k)]: [None] stands for a missing key here, not for the
    Python value. *)
Fixpoint dict_get (d : pydict) (k : pyval) : option pyval :=
  match d with
  | [] => None
  | (k', v) :: d' => if py_eq k' k then Some v else dict_get d' k
  end.

(** [k in d]. *)
Definition dict_mem (d : pydict) (k : pyval) : bool :=
  match dict_get d k with Some _ => true | None => false end.

(** [d.get(k, default)]. *)
Definition dict_get_default (d : pydict) (k default : pyval) : pyval :=
  match dict_get d k with Some v => v | None => default end.

(** [d[k] = v]: an existing key keeps its position. *)
Fixpoint dict_set (d : pydict) (k v : pyval) : pydict :=
  match d with
  | [] => [(k, v)]
  | (k', v') :: d' =>
      if py_eq k' k then (k', v) :: d' else (k', v') :: dict_set d' k v
  end.

(** [{key(k): val(k, v) for k, v in items}]. *)
Definition dict_comprehension {K V} (key : K -> V -> pyval) (val : K -> V -> pyval)
    (items : list (K * V)) : pydict :=
  fold_left (fun acc kv => dict_set acc (key (fst kv) (snd kv)) (val (fst kv) (snd kv)))
            items [].

(** [bool(v)] inside [if]/[not]/[or], for every value but a rational
    object, whose [__bool__] belongs to its class. *)
Definition py_truthy (rational_bool : Z -> Z -> bool) (v : pyval) : bool :=
  match v with
  | VNone => false
  | VBool b => b
  | VInt z => negb (z =? 0)
  | VFloat f => negb (PrimFloat.eqb f 0%float)
  | VStr s | VBytes s => negb (String.eqb s "")
  | VTuple l | VList l => match l with [] => false | _ => true end
  | VDict d => match d with [] => false | _ => true end
  | VRational n d => rational_bool n d
  end.

(** [len(v)]. *)
Definition py_len (v : pyval) : exc Z :=
  match v with
  | VStr s | VBytes s => Ok (Z.of_nat (String.length s))
  | VTuple l | VList l => Ok (Z.of_nat (List.length l))
  | VDict d => Ok (Z.of_nat (List.length d))
  | _ => Raise (Exn TypeError "object has no len()")
  end.

(** [v[i]] for a literal index [i >= 0]. *)
Definition py_getitem (v : pyval) (i : nat) : exc pyval :=
  match v with
  | VTuple l | VList l =>
      match nth_error l i with
      | Some x => Ok x
      | None => Raise (Exn IndexError "index out of range")
      end
  | VStr s =>
      match String.get i s with
      | Some c => Ok (VStr (String c ""))
      | None => Raise (Exn IndexError "string index out of range")
      end
  | VBytes s =>
      match String.get i s with
      | Some c => Ok (VInt (Z.of_nat (nat_of_ascii c)))
      | None => Raise (Exn IndexError "index out of range")
      end
  | VDict d =>
      match dict_get d (VInt (Z.of_nat i)) with
      | Some x => Ok x
      | None => Raise (Exn KeyError "key")
      end
  | _ => Raise (Exn TypeError "object is not subscriptable")
  end.

(** ** The libraries and the file system *)

(** An opened image: [im.getexif()] and the [im.info] dictionary
    ([None] when the object has no such attribute). *)
Record image := {
  im_getexif : exc pydict;
  im_info : option pydict
}.

(** A file opened by [pillow_heif.open_heif]: its [metadata] attribute. *)
Record heif_file := { hf_metadata : exc pyval }.

(** What the script takes from outside its own source: conversions that
    belong to other classes, Pillow's tag tables, the optional imports
    and the library calls. *)
Class Runtime := {
  (** [float(s)] for a [str] or [bytes] text. *)
  float_of_text : string -> exc float;
  (** [float(x)] and [bool(x)] for a rational object. *)
  rational_float : Z -> Z -> exc float;
  rational_bool : Z -> Z -> bool;
  (** [ExifTags.TAGS] and [ExifTags.GPSTAGS]: tag id to tag name. *)
  ExifTags_TAGS : list (Z * string);
  ExifTags_GPSTAGS : list (Z * string);
  have_pillow_heif : bool;
  have_piexif : bool;
  (** [Image.open(path)]. *)
  Image_open : string -> exc image;
  (** [pillow_heif.open_heif(str(path))]. *)
  open_heif : string -> exc heif_file;
  (** [piexif.load(exif_bytes)]. *)
  piexif_load : pyval -> exc pyval;
  (** [folder / name], the path as text. *)
  path_join : string -> string -> string;
  (** [out_path.write_text(kml, encoding=...)]. *)
  write_text : string -> string -> exc unit
}.

(** Calls that leave the script, in the order they are made. *)
Inductive event :=
| EvImageOpen (path : string)
| EvGetExif
| EvInfoExif
| EvOpenHeif (path : string)
| EvPiexifLoad (exif_bytes : pyval)
| EvWriteText (path content : string).

(** A computation that records its outside calls and may raise. *)
Definition io (A : Type) : Type := list event * exc A.

Definition io_ret {A} (a : A) : io A := ([], Ok a).

Definition io_bind {A B} (m : io A) (k : A -> io B) : io B :=
  match m with
  | (t, Ok a) => let (t', r) := k a in ((t ++ t')%list, r)
  | (t, Raise e) => (t, Raise e)
  end.

(** One outside call with its outcome. *)
Definition io_call {A} (ev : event) (r : exc A) : io A := ([ev], r).

(** A pure step inside an [io] computation. *)
Definition io_lift {A} (r : exc A) : io A := ([], r).

(** [try: m / except Exception: h]. *)
Definition io_try {A} (m : io A) (h : exn -> io A) : io A :=
  match m with
  | (t, Ok a) => (t, Ok a)
  | (t, Raise e) => let (t', r) := h e in ((t ++ t')%list, r)
  end.

Declare Scope io_scope.
Delimit Scope io_scope with io.
Notation "x <- m ;; k" := (io_bind m (fun x => k))
  (at level 61, m at next level, right associativity) : io_scope.

(** ** Module constants *)

Definition IMG_EXTS : list string :=
  [".jpg"; ".jpeg"; ".tif"; ".tiff"; ".heic"; ".heif"].

(** [piexif.GPSIFD]. *)
Module GPSIFD.
Definition GPSLatitudeRef : Z := 1.
Definition GPSLatitude : Z := 2.
Definition GPSLongitudeRef : Z := 3.
Definition GPSLongitude : Z := 4.
Definition GPSAltitudeRef : Z := 5.
Definition GPSAltitude : Z := 6.
End GPSIFD.

(** A GPS coordinate: latitude, longitude, optional altitude. *)
Definition gps_coord : Type := float * float * option float.

Section Definitions.
Context {R : Runtime}.

(** [{v: k for k, v in table.items()}]: tag name to tag id. *)
Definition reverse_table (table : list (Z * string)) : pydict :=
  dict_comprehension (fun k v => VStr v) (fun k v => VInt k) table.

Definition TAGS : pydict := reverse_table ExifTags_TAGS.
Definition GPSTAGS : pydict := reverse_table ExifTags_GPSTAGS.

Definition truthy : pyval -> bool := py_truthy rational_bool.

(** [float(x)]. *)
Definition py_float (x : pyval) : exc float :=
  match x with
  | VBool b => Ok (if b then 1%float else 0%float)
  | VInt z => float_of_Z z
  | VFloat f => Ok f
  | VStr s | VBytes s => float_of_text s
  | VRational n d => rational_float n d
  | VNone | VTuple _ | VList _ | VDict _ =>
      Raise (Exn TypeError "float() argument must be a string or a real number")
  end.

(** [x.numerator] and [x.denominator] when [x] has both attributes:
    [int] and [bool] have them, with denominator 1; [float] does not. *)
Definition numerator_denominator (x : pyval) : option (Z * Z) :=
  match x with
  | VBool b => Some (Z_of_bool b, 1)
  | VInt z => Some (z, 1)
  | VRational n d => Some (n, d)
  | _ => None
  end.

(** The [try] block of [rational_to_float]. *)
Definition rational_to_float_body (x : pyval) : exc float :=
  match numerator_denominator x with
  | Some (n, d) =>
      if negb (d =? 0)
      then (a <- float_of_Z n ;; b <- float_of_Z d ;; py_fdiv a b)%exc
      else float_of_Z n
  | None =>
      match x with
      | VTuple [num; den] =>
          if truthy den
          then (a <- py_float num ;; b <- py_float den ;; py_fdiv a b)%exc
          else py_float num
      | _ => py_float x
      end
  end.

Definition rational_to_float (x : pyval) : option float :=
  ok_or_None (rational_to_float_body x).

(** [ref in ("S", "W")]. *)
Definition ref_in_S_W (ref : pyval) : bool :=
  py_eq ref (VStr "S") || py_eq ref (VStr "W").

(** The [try] block of [dms_to_deg]. *)
Definition dms_to_deg_body (dms ref : pyval) : exc (option float) :=
  if negb (truthy dms) then Ok None else
  (n <- py_len dms ;;
   if negb (n =? 3) then Ok None else
   x0 <- py_getitem dms 0 ;;
   let d := rational_to_float x0 in
   x1 <- py_getitem dms 1 ;;
   let m := rational_to_float x1 in
   x2 <- py_getitem dms 2 ;;
   let s := rational_to_float x2 in
   match d, m, s with
   | Some d, Some m, Some s =>
       m60 <- py_fdiv m 60%float ;;
       s3600 <- py_fdiv s 3600%float ;;
       let deg := (d + m60 + s3600)%float in
       Ok (Some (if ref_in_S_W ref then (- deg)%float else deg))
   | _, _, _ => Ok None
   end)%exc.

Definition dms_to_deg (dms ref : pyval) : option float :=
  except_None (dms_to_deg_body dms ref).

(** [d.get(name)] with a string literal: a missing key gives [None]. *)
Definition get_str (d : pydict) (name : string) : pyval :=
  dict_get_default d (VStr name) VNone.

Definition extract_gps_from_pil_exif (exif : pydict) : option gps_coord :=
  match exif with
  | [] => None
  | _ =>
    match dict_get TAGS (VStr "GPSInfo") with
    | None => None
    | Some gps_ifd_tag =>
      match dict_get exif gps_ifd_tag with
      | None => None
      | Some (VDict gps_ifd) =>
          let gps := dict_comprehension
                       (fun k v => dict_get_default GPSTAGS k k) (fun k v => v) gps_ifd in
          let lat := dms_to_deg (get_str gps "GPSLatitude") (get_str gps "GPSLatitudeRef") in
          let lon := dms_to_deg (get_str gps "GPSLongitude") (get_str gps "GPSLongitudeRef") in
          let alt :=
            if dict_mem gps (VStr "GPSAltitude") then
              let a := rational_to_float (get_str gps "GPSAltitude") in
              let ref := dict_get_default gps (VStr "GPSAltitudeRef") (VInt 0) in
              match a with
              | Some a => Some (if py_eq ref (VInt 1) then (- a)%float else a)
              | None => None
              end
            else None in
          match lat, lon with
          | Some lat, Some lon => Some (lat, lon, alt)
          | _, _ => None
          end
      | Some _ => None
      end
    end
  end.

(** [v.get]: only a [dict] has the method. *)
Definition as_dict (v : pyval) : exc pydict :=
  match v with
  | VDict d => Ok d
  | _ => Raise (Exn AttributeError "object has no attribute 'get'")
  end.

(** [v.decode("ascii", "ignore") or None]: bytes above 127 are dropped,
    an empty text becomes [None]; only [bytes] has the method. *)
Definition is_ascii (c : ascii) : bool := (nat_of_ascii c <? 128)%nat.

Fixpoint filter_ascii (s : string) : string :=
  match s with
  | EmptyString => EmptyString
  | String c s' => if is_ascii c then String c (filter_ascii s') else filter_ascii s'
  end.

Definition decode_ascii_or_None (v : pyval) : exc pyval :=
  match v with
  | VBytes s =>
      let t := filter_ascii s in
      Ok (if String.eqb t "" then VNone else VStr t)
  | _ => Raise (Exn AttributeError "object has no attribute 'decode'")
  end.

(** The [try] block of [extract_gps_from_piexif_bytes] after
    [piexif.load] has returned [ex]. *)
Definition gps_of_piexif (ex : pyval) : exc (option gps_coord) :=
  (exd <- as_dict ex ;;
   let gps_ifd := dict_get_default exd (VStr "GPS") (VDict []) in
   if negb (truthy gps_ifd) then Ok None else
   g <- as_dict gps_ifd ;;
   latref <- decode_ascii_or_None
               (dict_get_default g (VInt GPSIFD.GPSLatitudeRef) (VBytes "")) ;;
   let lat := dms_to_deg (dict_get_default g (VInt GPSIFD.GPSLatitude) VNone) latref in
   lonref <- decode_ascii_or_None
               (dict_get_default g (VInt GPSIFD.GPSLongitudeRef) (VBytes "")) ;;
   let lon := dms_to_deg (dict_get_default g (VInt GPSIFD.GPSLongitude) VNone) lonref in
   let alt :=
     match dict_get g (VInt GPSIFD.GPSAltitude) with
     | Some altitude =>
         let a := rational_to_float altitude in
         let ref := dict_get_default g (VInt GPSIFD.GPSAltitudeRef) (VInt 0) in
         match a with
         | Some a => Some (if py_eq ref (VInt 1) then (- a)%float else a)
         | None => None
         end
     | None => None
     end in
   match lat, lon with
   | Some lat, Some lon => Ok (Some (lat, lon, alt))
   | _, _ => Ok None
   end)%exc.

Definition extract_gps_from_piexif_bytes (exif_bytes : pyval) : io (option gps_coord) :=
  if negb (have_piexif && truthy exif_bytes) then io_ret None else
  io_try
    (ex <- io_call (EvPiexifLoad exif_bytes) (piexif_load exif_bytes) ;;
     io_lift (gps_of_piexif ex))%io
    (fun _ => io_ret None).

(** *** Paths *)

(** A [Path]: its text and its final component. *)
Record path := { path_str : string; path_name : string }.

(** [name.rfind(".")]. *)
Fixpoint rfind_dot (s : string) : option nat :=
  match s with
  | EmptyString => None
  | String c s' =>
      match rfind_dot s' with
      | Some i => Some (S i)
      | None => if Ascii.eqb c "."%char then Some O else None
      end
  end.

(** [p.suffix]: from the last dot of the name on, unless that dot opens
    or closes the name. *)
Definition suffix (p : path) : string :=
  let name := path_name p in
  match rfind_dot name with
  | Some i =>
      if (0 <? i)%nat && (i <? String.length name - 1)%nat
      then substring i (String.length name - i) name
      else ""
  | None => ""
  end.

Definition lower_ascii (c : ascii) : ascii :=
  let n := nat_of_ascii c in
  if (65 <=? n)%nat && (n <=? 90)%nat then ascii_of_nat (n + 32) else c.

(** [s.lower()] as far as the test of line 196 can tell.  A text is
    held as its UTF-8 bytes; the letters A to Z are lowered and every
    other byte is kept.  [str.lower] also changes letters outside
    ASCII, the capital sigma by its neighbours, but the only one it
    turns into an ASCII text is the Kelvin sign, into [k], a letter of
    no extension: [p.suffix.lower() in IMG_EXTS] gives the same answer
    for every name. *)
Fixpoint lower (s : string) : string :=
  match s with
  | EmptyString => EmptyString
  | String c s' => String (lower_ascii c) (lower s')
  end.

(** [s in strings]. *)
Definition str_in (s : string) (strings : list string) : bool :=
  existsb (String.eqb s) strings.

(** *** The metadata resolver *)

Definition RAW_EXIF_BYTES : pyval := VStr "__RAW_EXIF_BYTES__".

(** [for md in ...]: the values a [for] loop walks through. *)
Definition py_iter (v : pyval) : exc (list pyval) :=
  match v with
  | VList l | VTuple l => Ok l
  | VDict d => Ok (map fst d)
  | VStr s => Ok (map (fun c => VStr (String c "")) (list_ascii_of_string s))
  | VBytes s => Ok (map (fun c => VInt (Z.of_nat (nat_of_ascii c))) (list_ascii_of_string s))
  | _ => Raise (Exn TypeError "object is not iterable")
  end.

(** The loop over the HEIF metadata blocks: the data of the first block
    of type [Exif] with data. *)
Fixpoint find_exif_block (blocks : list pyval) : exc (option pyval) :=
  match blocks with
  | [] => Ok None
  | md :: rest =>
      (d <- as_dict md ;;
       if py_eq (get_str d "type") (VStr "Exif") && truthy (get_str d "data")
       then Ok (Some (get_str d "data"))
       else find_exif_block rest)%exc
  end.

(** The inner [try] of [get_exif_any]: the new value of [exif_bytes]. *)
Definition heif_exif_bytes (p : path) (exif_bytes : pyval) : io pyval :=
  io_try
    (h <- io_call (EvOpenHeif (path_str p)) (open_heif (path_str p)) ;;
     metadata <- io_lift (hf_metadata h) ;;
     blocks <- io_lift (py_iter (if truthy metadata then metadata else VList [])) ;;
     found <- io_lift (find_exif_block blocks) ;;
     io_ret (match found with Some data => data | None => exif_bytes end))%io
    (fun _ => io_ret exif_bytes).

(** The fallback of [get_exif_any]: the value of [exif_bytes] when
    [if exif_bytes] is reached, first from [im.info], then from the
    HEIF metadata. *)
Definition raw_exif_bytes (p : path) (im : image) : io pyval :=
  (exif_bytes <- match im_info im with
                 | Some info => io_call EvInfoExif (Ok (get_str info "exif"))
                 | None => io_ret VNone
                 end ;;
   if negb (truthy exif_bytes) && have_pillow_heif
      && str_in (lower (suffix p)) [".heic"; ".heif"]
   then heif_exif_bytes p exif_bytes
   else io_ret exif_bytes)%io.

Definition get_exif_any (p : path) : io pydict :=
  io_try
    (im <- io_call (EvImageOpen (path_str p)) (Image_open (path_str p)) ;;
     exif <- io_call EvGetExif (im_getexif im) ;;
     match extract_gps_from_pil_exif exif with
     | Some _ => io_ret exif
     | None =>
         exif_bytes <- raw_exif_bytes p im ;;
         if truthy exif_bytes
         then io_ret [(RAW_EXIF_BYTES, exif_bytes)]
         else io_ret exif
     end)%io
    (fun _ => io_ret []).

(** *** KML *)

Definition nl : string := String (ascii_of_nat 10) "".
Definition dq : string := String (ascii_of_nat 34) "".

(** [s.replace(old, new)] from position [skip] on, [old] not empty:
    the leftmost occurrence first, then on after it. *)
Fixpoint replace_from (old new : string) (skip : nat) (s : string) : string :=
  match s with
  | EmptyString => EmptyString
  | String c s' =>
      match skip with
      | S k => replace_from old new k s'
      | O =>
          if prefix old s
          then new ++ replace_from old new (String.length old - 1) s'
          else String c (replace_from old new 0 s')
      end
  end.

(** [s.replace("", new)]: [new] before every character and at the end. *)
Fixpoint intersperse (new s : string) : string :=
  match s with
  | EmptyString => new
  | String c s' => new ++ String c (intersperse new s')
  end.

Definition replace (old new s : string) : string :=
  if String.eqb old "" then intersperse new s else replace_from old new 0 s.

Definition xml_escape (s : string) : string :=
  replace "'" "&apos;"
    (replace dq "&quot;"
       (replace ">" "&gt;"
          (replace "<" "&lt;"
             (replace "&" "&amp;" s)))).

(** A placemark record: the dictionary [main] appends for an image. *)
Record placemark := {
  pm_name : string;
  pm_lat : float;
  pm_lon : float;
  pm_alt : option float;
  pm_desc : string
}.

(** The [coords] variable of [build_kml]. *)
Definition coordinates (pm : placemark) : string :=
  let coords := float_str (pm_lon pm) ++ "," ++ float_str (pm_lat pm) in
  match pm_alt pm with
  | Some alt => coords ++ "," ++ float_str alt
  | None => coords
  end.

Definition placemark_xml (pm : placemark) : string :=
  let coords := coordinates pm in
  let name := xml_escape (pm_name pm) in
  let desc := xml_escape (pm_desc pm) in
  "    <Placemark>" ++ nl
  ++ "      <name>" ++ name ++ "</name>" ++ nl
  ++ "      " ++ (if String.eqb desc "" then ""
                  else "<description>" ++ desc ++ "</description>") ++ nl
  ++ "      <Point><coordinates>" ++ coords ++ "</coordinates></Point>" ++ nl
  ++ "    </Placemark>" ++ nl.

Definition build_kml (placemarks : list placemark) (doc_name : string) : string :=
  let header :=
    "<?xml version=" ++ dq ++ "1.0" ++ dq ++ " encoding=" ++ dq ++ "UTF-8" ++ dq ++ "?>" ++ nl
    ++ "<kml xmlns=" ++ dq ++ "http://www.opengis.net/kml/2.2" ++ dq ++ ">" ++ nl
    ++ "  <Document>" ++ nl
    ++ "    <name>" ++ xml_escape doc_name ++ "</name>" ++ nl in
  let body_parts := map placemark_xml placemarks in
  let footer := "  </Document>" ++ nl ++ "</kml>" ++ nl in
  header ++ String.concat "" body_parts ++ footer.

(** *** The scan *)

(** A file met by [os.walk]: [p = Path(root) / fname] and
    [str(p.relative_to(folder))], which raises [ValueError] when [p] does
    not lie under [folder]. *)
Record walked_file := {
  wf_path : path;
  wf_relative : exc string
}.

(** The command line after [parse_args], with the folder and the
    output path as [expanduser().resolve()] returned them (lines 181
    and 186), and the state of the file system the script reads.  A
    run in which one of these calls raises has no such record: [main]
    raises with it before the scan starts. *)
Record cli_args := {
  folder : string;            (* the resolved folder, as text *)
  folder_name : string;       (* folder.name *)
  folder_is_dir : bool;       (* folder.exists() and folder.is_dir() *)
  output : option string;     (* the resolved --output path, when given *)
  walk : list walked_file     (* the files of os.walk(folder), in order *)
}.

(** The local variables of [main] during the walk, with what has been
    printed to the error stream and the outside calls made so far. *)
Record scan := {
  placemarks : list placemark;
  total : Z;
  with_gps : Z;
  skipped : Z;
  warnings : list string;
  calls : list event
}.

Definition scan_start : scan :=
  {| placemarks := []; total := 0; with_gps := 0; skipped := 0;
     warnings := []; calls := [] |}.

(** The first half of the [try] block in the loop of [main]: the value
    of [gps] when [if gps is None] is reached. *)
Definition resolve_gps (p : path) : io (option gps_coord) :=
  (exif_or_raw <- get_exif_any p ;;
   let gps := if negb (dict_mem exif_or_raw RAW_EXIF_BYTES)
              then extract_gps_from_pil_exif exif_or_raw
              else None in
   match gps, dict_get exif_or_raw RAW_EXIF_BYTES with
   | None, Some exif_bytes => extract_gps_from_piexif_bytes exif_bytes
   | _, _ => io_ret gps
   end)%io.

(** The whole [try] block: [None] when it ends in [continue], the
    appended placemark otherwise. *)
Definition try_file (f : walked_file) : io (option placemark) :=
  (gps <- resolve_gps (wf_path f) ;;
   match gps with
   | None => io_ret None
   | Some (lat, lon, alt) =>
       desc <- io_lift (wf_relative f) ;;
       io_ret (Some {| pm_name := path_name (wf_path f);
                       pm_lat := lat; pm_lon := lon; pm_alt := alt;
                       pm_desc := desc |})
   end)%io.

(** One turn of the inner [for] loop of [main]. *)
Definition scan_file (st : scan) (f : walked_file) : scan :=
  let p := wf_path f in
  if negb (str_in (lower (suffix p)) IMG_EXTS) then st else
  let total' := total st + 1 in
  match try_file f with
  | (t, Ok None) =>
      {| placemarks := placemarks st; total := total';
         with_gps := with_gps st; skipped := skipped st + 1;
         warnings := warnings st; calls := (calls st ++ t)%list |}
  | (t, Ok (Some pm)) =>
      {| placemarks := (placemarks st ++ [pm])%list; total := total';
         with_gps := with_gps st + 1; skipped := skipped st;
         warnings := warnings st; calls := (calls st ++ t)%list |}
  | (t, Raise e) =>
      {| placemarks := placemarks st; total := total';
         with_gps := with_gps st; skipped := skipped st + 1;
         warnings := (warnings st
                      ++ [("[WARN] " ++ path_str p ++ ": " ++ exn_msg e)%string])%list;
         calls := (calls st ++ t)%list |}
  end.

Definition scan_files (files : list walked_file) : scan :=
  fold_left scan_file files scan_start.

Definition summary (st : scan) : string :=
  "Scanned " ++ int_str (total st) ++ " images; " ++ int_str (with_gps st)
  ++ " with GPS; " ++ int_str (skipped st) ++ " skipped.".

(** What a run of [main] that returns leaves behind.  The [print]
    calls are taken to return. *)
Record run := {
  exit_code : Z;
  stdout : list string;
  stderr : list string;
  run_calls : list event
}.

Definition main (args : cli_args) : run :=
  if negb (folder_is_dir args) then
    {| exit_code := 3; stdout := [];
       stderr := ["Not a folder: " ++ folder args]; run_calls := [] |}
  else
    let out_path := match output args with
                    | Some o => o
                    | None => path_join (folder args) (folder_name args ++ "_images.kml")
                    end in
    let st := scan_files (walk args) in
    match placemarks st with
    | [] =>
        {| exit_code := 4; stdout := [];
           stderr := (warnings st
                      ++ ["No geotagged images found. No KML written."; summary st])%list;
           run_calls := calls st |}
    | _ =>
        let kml := build_kml (placemarks st) (folder_name args ++ " (Geotagged Images)") in
        match write_text out_path kml with
        | Raise e =>
            {| exit_code := 5; stdout := [];
               stderr := (warnings st
                          ++ [("Failed to write KML: " ++ exn_msg e)%string])%list;
               run_calls := (calls st ++ [EvWriteText out_path kml])%list |}
        | Ok _ =>
            {| exit_code := 0;
               stdout := ["Wrote KML: " ++ out_path; summary st];
               stderr := warnings st;
               run_calls := (calls st ++ [EvWriteText out_path kml])%list |}
        end
    end.

End Definitions.

(** ** A photo folder

    A concrete runtime on which the functions above are run: Pillow's
    tag tables and a folder of eight files. *)

Module Photos.

(** [ExifTags.TAGS] around the one entry the script looks up,
    [GPSInfo]; Pillow's table has no second entry of that name. *)
Definition PIL_TAGS : list (Z * string) :=
  [ (271, "Make"); (272, "Model"); (274, "Orientation");
    (306, "DateTime"); (34665, "ExifOffset"); (34853, "GPSInfo");
    (36867, "DateTimeOriginal") ].

(** [ExifTags.GPSTAGS]. *)
Definition PIL_GPSTAGS : list (Z * string) :=
  [ (0, "GPSVersionID"); (1, "GPSLatitudeRef"); (2, "GPSLatitude");
    (3, "GPSLongitudeRef"); (4, "GPSLongitude"); (5, "GPSAltitudeRef");
    (6, "GPSAltitude"); (7, "GPSTimeStamp"); (8, "GPSSatellites");
    (9, "GPSStatus"); (10, "GPSMeasureMode"); (11, "GPSDOP");
    (12, "GPSSpeedRef"); (13, "GPSSpeed"); (14, "GPSTrackRef");
    (15, "GPSTrack"); (16, "GPSImgDirectionRef"); (17, "GPSImgDirection");
    (18, "GPSMapDatum"); (19, "GPSDestLatitudeRef"); (20, "GPSDestLatitude");
    (21, "GPSDestLongitudeRef"); (22, "GPSDestLongitude");
    (23, "GPSDestBearingRef"); (24, "GPSDestBearing");
    (25, "GPSDestDistanceRef"); (26, "GPSDestDistance");
    (27, "GPSProcessingMethod"); (28, "GPSAreaInformation");
    (29, "GPSDateStamp"); (30, "GPSDifferential");
    (31, "GPSHPositioningError") ].

(** An EXIF rational as piexif returns it: a pair of integers. *)
Definition rat (n d : Z) : pyval := VTuple [VInt n; VInt d].

Definition dms (d m s : Z) : pyval := VTuple [rat d 1; rat m 1; rat s 1].

(** 10 deg 30' N, 20 deg 15' E, 100 m below sea level, keyed by tag id. *)
Definition gps_ifd_below : pydict :=
  [ (VInt 1, VBytes "N"); (VInt 2, dms 10 30 0);
    (VInt 3, VBytes "E"); (VInt 4, dms 20 15 0);
    (VInt 5, VInt 1); (VInt 6, rat 100 1) ].

(** The same block as Pillow hands it over: texts for the references,
    rational objects for the numbers. *)
Definition gps_ifd_pil : pydict :=
  [ (VInt 1, VStr "N");
    (VInt 2, VTuple [VRational 10 1; VRational 30 1; VRational 0 1]);
    (VInt 3, VStr "E");
    (VInt 4, VTuple [VRational 20 1; VRational 15 1; VRational 0 1]);
    (VInt 5, VInt 1); (VInt 6, VRational 100 1) ].

(** The block again, keyed by tag name instead of tag id. *)
Definition gps_ifd_named : pydict :=
  [ (VStr "GPSLatitudeRef", VStr "N");
    (VStr "GPSLatitude", VTuple [VRational 10 1; VRational 30 1; VRational 0 1]);
    (VStr "GPSLongitudeRef", VStr "E");
    (VStr "GPSLongitude", VTuple [VRational 20 1; VRational 15 1; VRational 0 1]);
    (VStr "GPSAltitudeRef", VInt 1); (VStr "GPSAltitude", VRational 100 1) ].

(** A latitude of 100 degrees. *)
Definition gps_ifd_north_of_pole : pydict :=
  [ (VInt 1, VBytes "N"); (VInt 2, dms 100 0 0);
    (VInt 3, VBytes "E"); (VInt 4, dms 200 0 0) ].

Definition exif_with_gps : pydict :=
  [ (VInt 271, VStr "Camera"); (VInt 34853, VDict gps_ifd_pil) ].

Definition exif_without_gps : pydict := [ (VInt 271, VStr "Camera") ].

Definition image_of (exif : pydict) (info : pydict) : image :=
  {| im_getexif := Ok exif; im_info := Some info |}.

Definition photos_open (p : string) : exc image :=
  if String.eqb p "/photos/a.jpg" then
    Ok (image_of exif_without_gps [(VStr "exif", VBytes "A")])
  else if String.eqb p "/photos/c.tif" then
    Ok (image_of exif_with_gps [])
  else if String.eqb p "/photos/d.jpeg" then
    Ok (image_of [] [(VStr "exif", VBytes "D")])
  else if String.eqb p "/photos/e.HEIC" then
    Ok (image_of [] [])
  else if String.eqb p "/photos/f.jpg" then
    Ok (image_of exif_without_gps [(VStr "exif", VBytes "X")])
  else if String.eqb p "/photos/g.heic" then
    Ok (image_of [] [])
  else
    Raise (Exn OSError ("cannot identify image file " ++ p)).

Definition photos_heif (p : string) : exc heif_file :=
  if String.eqb p "/photos/e.HEIC" then
    Ok {| hf_metadata :=
            Ok (VList [ VDict [(VStr "type", VStr "XMP"); (VStr "data", VBytes "x")];
                        VDict [(VStr "type", VStr "Exif"); (VStr "data", VBytes "A")] ]) |}
  else Raise (Exn OSError "not a HEIF file").

Definition photos_piexif (b : pyval) : exc pyval :=
  match b with
  | VBytes "A" => Ok (VDict [(VStr "0th", VDict []); (VStr "GPS", VDict gps_ifd_below)])
  | VBytes "D" => Ok (VDict [(VStr "GPS", VDict gps_ifd_north_of_pole)])
  | _ => Raise (Exn ValueError "Given data is not an EXIF block")
  end.

(** A rational object in the way of a [Fraction]: zero is false, the
    float is the quotient. *)
Definition fraction_float (n d : Z) : exc float :=
  (a <- float_of_Z n ;; b <- float_of_Z d ;; py_fdiv a b)%exc.

(** The folder holds no text where a number is expected: a text is
    taken as no number. *)
Definition no_number (s : string) : exc float :=
  Raise (Exn ValueError ("could not convert string to float: " ++ s)).

#[export] Instance photos : Runtime := {|
  float_of_text := no_number;
  rational_float := fraction_float;
  rational_bool := fun n d => negb (n =? 0);
  ExifTags_TAGS := PIL_TAGS;
  ExifTags_GPSTAGS := PIL_GPSTAGS;
  have_pillow_heif := true;
  have_piexif := true;
  Image_open := photos_open;
  open_heif := photos_heif;
  piexif_load := photos_piexif;
  path_join := fun a b => a ++ "/" ++ b;
  write_text := fun _ _ => Ok tt
|}.

Definition file (name : string) : walked_file :=
  {| wf_path := {| path_str := "/photos/" ++ name; path_name := name |};
     wf_relative := Ok name |}.

Definition photos_args (names : list string) : cli_args :=
  {| folder := "/photos"; folder_name := "photos"; folder_is_dir := true;
     output := None; walk := map file names |}.

(** The same folder on a machine without piexif. *)
Definition without_piexif : Runtime := {|
  float_of_text := no_number;
  rational_float := fraction_float;
  rational_bool := fun n d => negb (n =? 0);
  ExifTags_TAGS := PIL_TAGS;
  ExifTags_GPSTAGS := PIL_GPSTAGS;
  have_pillow_heif := true;
  have_piexif := false;
  Image_open := photos_open;
  open_heif := photos_heif;
  piexif_load := photos_piexif;
  path_join := fun a b => a ++ "/" ++ b;
  write_text := fun _ _ => Ok tt
|}.

(** The same folder behind a decoding collaborator of another make:
    its table of GPS tags is empty and it hands every GPS block over
    keyed by tag name, so that the renaming of line 74 leaves the
    names in place. *)
Definition named_open (p : string) : exc image :=
  if String.eqb p "/photos/a.jpg" then
    Ok (image_of [(VInt 34853, VDict gps_ifd_named)] [(VStr "exif", VBytes "D")])
  else photos_open p.

Definition named_tags : Runtime := {|
  float_of_text := no_number;
  rational_float := fraction_float;
  rational_bool := fun n d => negb (n =? 0);
  ExifTags_TAGS := [(34853, "GPSInfo")];
  ExifTags_GPSTAGS := [];
  have_pillow_heif := true;
  have_piexif := true;
  Image_open := named_open;
  open_heif := photos_heif;
  piexif_load := photos_piexif;
  path_join := fun a b => a ++ "/" ++ b;
  write_text := fun _ _ => Ok tt
|}.

End Photos.

(** * Properties *)

(** ** Floats: dividing by one *)

Definition SF_one : spec_float := S754_finite false 4503599627370496 (-52).

Lemma Prim2SF_one : Prim2SF 1%float = SF_one.
Proof. reflexivity. Qed.

Lemma shr_fexp_canonical m e :
  canonical_mantissa prec emax m e = true ->
  shr_fexp prec emax (Z.pos m) e loc_Exact
  = ({| shr_m := Z.pos m; shr_r := false; shr_s := false |}, e).
Proof.
  unfold canonical_mantissa, shr_fexp. intros H.
  apply Z.eqb_eq in H. cbn [Zdigits2 shr_record_of_loc].
  rewrite H, Z.sub_diag. reflexivity.
Qed.

Lemma binary_round_aux_canonical s m e :
  bounded prec emax m e = true ->
  binary_round_aux prec emax s (Z.pos m) e loc_Exact = S754_finite s m e.
Proof.
  unfold bounded. intros H. apply andb_prop in H. destruct H as [Hc Hb].
  unfold binary_round_aux. rewrite (shr_fexp_canonical _ _ Hc).
  cbn [shr_m loc_of_shr_record round_nearest_even].
  rewrite (shr_fexp_canonical _ _ Hc). cbn [shr_m].
  rewrite Hb. reflexivity.
Qed.

Lemma binary_round_aux_double s m e :
  bounded prec emax m e = true ->
  fexp prec emax (Z.pos (digits2_pos m) + e - 1) = e - 1 ->
  binary_round_aux prec emax s (Z.pos m~0) (e - 1) loc_Exact = S754_finite s m e.
Proof.
  intros H Hf. pose proof H as H'. unfold bounded in H'.
  apply andb_prop in H'. destruct H' as [Hc Hb].
  unfold binary_round_aux.
  assert (Hs : shr_fexp prec emax (Z.pos m~0) (e - 1) loc_Exact
               = ({| shr_m := Z.pos m; shr_r := false; shr_s := false |}, e)).
  { unfold shr_fexp. cbn [Zdigits2 digits2_pos shr_record_of_loc].
    unfold canonical_mantissa in Hc. apply Z.eqb_eq in Hc.
    replace (Z.pos (Pos.succ (digits2_pos m)) + (e - 1))
      with (Z.pos (digits2_pos m) + e) by lia.
    rewrite Hc. replace (e - (e - 1)) with 1 by lia.
    cbn. f_equal. lia. }
  rewrite Hs. cbn [shr_m loc_of_shr_record round_nearest_even].
  rewrite (shr_fexp_canonical _ _ Hc). cbn [shr_m]. rewrite Hb. reflexivity.
Qed.

Lemma div_eucl_shift m k :
  0 <= k ->
  Z.div_eucl (Z.shiftl (Z.pos m) (52 + k)) 4503599627370496 = (Z.pos m * 2 ^ k, 0).
Proof.
  intros Hk. rewrite Z.shiftl_mul_pow2 by lia.
  rewrite Z.pow_add_r by lia. change (2 ^ 52) with 4503599627370496.
  set (x := Z.pos m * (4503599627370496 * 2 ^ k)).
  pose proof (Z.div_eucl_eq x 4503599627370496 ltac:(lia)) as E.
  pose proof (Z.mod_pos_bound x 4503599627370496 ltac:(lia)) as B.
  unfold Z.modulo in B.
  destruct (Z.div_eucl x 4503599627370496) as [q r].
  assert (Hr : r = 0) by (subst x; nia).
  subst r. f_equal. subst x. nia.
Qed.

Lemma SFdiv_one x :
  valid_binary x = true -> SFdiv prec emax x SF_one = x.
Proof.
  destruct x as [s|s| |s m e]; cbn [valid_binary]; intros H.
  - cbn. now destruct s.
  - cbn. now destruct s.
  - reflexivity.
  - unfold SF_one, SFdiv, SFdiv_core_binary.
    cbn [Zdigits2].
    change (Z.pos (digits2_pos 4503599627370496)) with 53.
    replace (Z.pos (digits2_pos m) + e - (53 + -52))
      with (Z.pos (digits2_pos m) + e - 1) by lia.
    replace (e - -52) with (e + 52) by lia.
    pose proof H as H'. unfold bounded, canonical_mantissa in H'.
    apply andb_prop in H'. destruct H' as [Hc Hb].
    apply Z.eqb_eq in Hc. apply Z.leb_le in Hb.
    assert (Hcase : fexp prec emax (Z.pos (digits2_pos m) + e - 1) = e - 1
                    \/ fexp prec emax (Z.pos (digits2_pos m) + e - 1) = e).
    { unfold fexp, emin, prec, emax in *. lia. }
    change (new_location 4503599627370496 0) with loc_Exact.
    destruct Hcase as [Hf | Hf]; rewrite Hf, Z.min_l by lia.
    + replace (e + 52 - (e - 1)) with 53 by lia. cbv iota beta.
      pose proof (div_eucl_shift m 1 ltac:(lia)) as E.
      change (52 + 1) with 53 in E. change (2 ^ 1) with 2 in E.
      replace (Z.pos m * 2) with (Z.pos m~0) in E by lia.
      rewrite E.
      rewrite xorb_false_r. now apply binary_round_aux_double.
    + replace (e + 52 - e) with 52 by lia. cbv iota beta.
      pose proof (div_eucl_shift m 0 ltac:(lia)) as E.
      change (52 + 0) with 52 in E. change (2 ^ 0) with 1 in E.
      rewrite Z.mul_1_r in E.
      rewrite E.
      rewrite xorb_false_r. now apply binary_round_aux_canonical.
Qed.

(** [f / 1.0] is [f], for every float: infinities, zeros and NaN
    included. *)
Lemma float_div_one (f : float) : (f / 1)%float = f.
Proof.
  apply Prim2SF_inj. rewrite div_spec, Prim2SF_one.
  apply SFdiv_one, Prim2SF_valid.
Qed.

Lemma py_fdiv_one (f : float) : py_fdiv f 1%float = Ok f.
Proof.
  unfold py_fdiv. change (PrimFloat.eqb 1 0) with false.
  now rewrite float_div_one.
Qed.

Lemma float_of_Z_one : float_of_Z 1 = Ok 1%float.
Proof. reflexivity. Qed.

(** ** Floats: integers below [2^53] *)

Lemma digits2_pos_size (m : positive) : digits2_pos m = Pos.size m.
Proof. induction m; cbn; congruence. Qed.

Lemma digits2_pos_bound (m : positive) :
  Z.pos m < 2 ^ 53 -> Z.pos (digits2_pos m) <= 53.
Proof.
  intros H. rewrite digits2_pos_size.
  pose proof (Pos.size_le m) as L.
  apply Pos2Z.pos_le_pos in L. rewrite Pos2Z.inj_pow in L.
  change (Z.pos m~0) with (2 * Z.pos m) in L.
  destruct (Z.le_gt_cases (Z.pos (Pos.size m)) 53) as [|G]; [assumption|].
  assert (2 ^ 54 <= 2 ^ Z.pos (Pos.size m)) by (apply Z.pow_le_mono_r; lia).
  change (2 ^ 54) with (2 * 2 ^ 53) in *. lia.
Qed.

Lemma digits2_pos_iter (m d : positive) :
  Z.pos (digits2_pos (Pos.iter xO m d)) = Z.pos (digits2_pos m) + Z.pos d.
Proof.
  induction d using Pos.peano_ind.
  - cbn. lia.
  - rewrite Pos.iter_succ. cbn [digits2_pos]. lia.
Qed.

(** Such an integer is a float already: rounding changes nothing. *)
Lemma binary_round_small (s : bool) (m : positive) :
  Z.pos m < 2 ^ 53 ->
  exists m' e', binary_round prec emax s m 0 = S754_finite s m' e'
                /\ bounded prec emax m' e' = true.
Proof.
  intros H. pose proof (digits2_pos_bound m H) as HD.
  unfold binary_round, shl_align.
  assert (Hf : fexp prec emax (Z.pos (digits2_pos m) + 0) = Z.pos (digits2_pos m) - 53).
  { unfold fexp, emin, prec, emax. lia. }
  rewrite Hf.
  destruct (Z.pos (digits2_pos m) - 53 - 0) as [|q|q] eqn:E; try lia.
  - assert (Hb : bounded prec emax m 0 = true).
    { unfold bounded, canonical_mantissa. rewrite Hf.
      apply andb_true_intro. split; [apply Z.eqb_eq; lia | reflexivity]. }
    exists m, 0. split; [now apply binary_round_aux_canonical | exact Hb].
  - assert (Hb : bounded prec emax (Pos.iter xO m q) (Z.pos (digits2_pos m) - 53) = true).
    { unfold bounded, canonical_mantissa. rewrite digits2_pos_iter.
      apply andb_true_intro. split.
      - apply Z.eqb_eq. unfold fexp, emin, prec, emax. lia.
      - apply Z.leb_le. unfold prec, emax. lia. }
    eexists _, _. split; [now apply binary_round_aux_canonical | exact Hb].
Qed.

(** [float(z)] succeeds for [|z| < 2^53], and is not zero unless [z] is. *)
Lemma float_of_Z_small (z : Z) :
  - 2 ^ 53 < z < 2 ^ 53 ->
  exists f, float_of_Z z = Ok f
            /\ (z <> 0 -> PrimFloat.eqb f 0 = false).
Proof.
  intros H. unfold float_of_Z, binary_normalize.
  destruct z as [|m|m].
  - exists 0%float. split; [reflexivity | congruence].
  - destruct (binary_round_small false m) as (m' & e' & -> & Hb); [lia|].
    eexists. split; [reflexivity|]. intros _.
    rewrite eqb_spec, Prim2SF_SF2Prim by exact Hb. reflexivity.
  - destruct (binary_round_small true m) as (m' & e' & -> & Hb); [lia|].
    eexists. split; [reflexivity|]. intros _.
    rewrite eqb_spec, Prim2SF_SF2Prim by exact Hb. reflexivity.
Qed.

(** ** Floats: rounding keeps the order

    Sums and quotients of floats that are zero or positive, read off
    [SpecFloat]: the result is the exact value rounded to 53 bits, to
    the nearest float and to the even one of two, and rounding keeps
    the order of the exact values. *)

(** The integer nearest to [P / Q], the even one of two equally near. *)
Definition rne (P Q : Z) : Z :=
  let k := P / Q in
  match 2 * (P mod Q) ?= Q with
  | Lt => k
  | Gt => k + 1
  | Eq => if Z.even k then k else k + 1
  end.

Lemma rne_bounds (P Q : Z) : 0 < Q -> P / Q <= rne P Q <= P / Q + 1.
Proof.
  intros HQ. unfold rne. cbv zeta.
  destruct (2 * (P mod Q) ?= Q); [destruct (Z.even _)| |]; lia.
Qed.

Lemma rne_exact (P Q : Z) : 0 < Q -> P mod Q = 0 -> rne P Q = P / Q.
Proof.
  intros HQ H. unfold rne. cbv zeta. rewrite H.
  destruct (Z.compare_spec (2 * 0) Q); lia.
Qed.

Lemma div_le_cross (P1 Q1 P2 Q2 : Z) :
  0 < Q1 -> 0 < Q2 -> P1 * Q2 <= P2 * Q1 -> P1 / Q1 <= P2 / Q2.
Proof.
  intros H1 H2 H.
  pose proof (Z.div_mod P1 Q1 ltac:(lia)) as E1.
  pose proof (Z.div_mod P2 Q2 ltac:(lia)) as E2.
  pose proof (Z.mod_pos_bound P1 Q1 H1) as B1.
  pose proof (Z.mod_pos_bound P2 Q2 H2) as B2.
  destruct (Z.le_gt_cases (P1 / Q1) (P2 / Q2)) as [|G]; [assumption|exfalso].
  assert (Hk : P2 / Q2 + 1 <= P1 / Q1) by lia.
  assert (H3 : Q1 * Q2 * (P2 / Q2 + 1) <= Q1 * Q2 * (P1 / Q1)).
  { apply Z.mul_le_mono_nonneg_l; [nia | exact Hk]. }
  nia.
Qed.

Lemma rne_mono (P1 Q1 P2 Q2 : Z) :
  0 < Q1 -> 0 < Q2 -> P1 * Q2 <= P2 * Q1 -> rne P1 Q1 <= rne P2 Q2.
Proof.
  intros H1 H2 H.
  pose proof (div_le_cross P1 Q1 P2 Q2 H1 H2 H) as Hk.
  pose proof (rne_bounds P1 Q1 H1) as B1.
  pose proof (rne_bounds P2 Q2 H2) as B2.
  destruct (Z.eq_dec (P1 / Q1) (P2 / Q2)) as [E|N]; [|lia].
  pose proof (Z.div_mod P1 Q1 ltac:(lia)) as E1.
  pose proof (Z.div_mod P2 Q2 ltac:(lia)) as E2.
  pose proof (Z.mod_pos_bound P1 Q1 H1) as M1.
  pose proof (Z.mod_pos_bound P2 Q2 H2) as M2.
  assert (HF : (P1 mod Q1) * Q2 <= (P2 mod Q2) * Q1).
  { rewrite E in E1. nia. }
  unfold rne. cbv zeta. rewrite E.
  destruct (Z.compare_spec (2 * (P1 mod Q1)) Q1) as [C1|C1|C1];
    destruct (Z.compare_spec (2 * (P2 mod Q2)) Q2) as [C2|C2|C2];
    try destruct (Z.even (P2 / Q2)); try lia; exfalso; nia.
Qed.

Lemma rne_ext (P1 Q1 P2 Q2 : Z) :
  0 < Q1 -> 0 < Q2 -> P1 * Q2 = P2 * Q1 -> rne P1 Q1 = rne P2 Q2.
Proof.
  intros H1 H2 H. apply Z.le_antisymm; apply rne_mono; lia.
Qed.

Lemma rne_nonneg (P Q : Z) : 0 <= P -> 0 < Q -> 0 <= rne P Q.
Proof.
  intros HP HQ. pose proof (rne_bounds P Q HQ).
  pose proof (Z.div_pos P Q HP HQ). lia.
Qed.

(** An upper bound that is an integer is kept. *)
Lemma rne_le (P Q B : Z) : 0 < Q -> P <= B * Q -> rne P Q <= B.
Proof.
  intros HQ H.
  replace B with (rne (B * Q) Q).
  - apply rne_mono; nia.
  - rewrite rne_exact by (try lia; apply Z.mod_mul; lia). apply Z.div_mul. lia.
Qed.

Lemma rne_ge (P Q B : Z) : 0 < Q -> B * Q <= P -> B <= rne P Q.
Proof.
  intros HQ H.
  replace B with (rne (B * Q) Q).
  - apply rne_mono; nia.
  - rewrite rne_exact by (try lia; apply Z.mod_mul; lia). apply Z.div_mul. lia.
Qed.

(** Rounding to 53 significant bits: the number of low bits given up. *)
Definition scale (N : Z) : Z := Z.max 0 (Z.log2 N - 52).

(** [P / Q] rounded to 53 significant bits. *)
Definition rndq (P Q : Z) : Z :=
  let n := scale (P / Q) in rne P (Q * 2 ^ n) * 2 ^ n.

Lemma scale_nonneg (N : Z) : 0 <= scale N.
Proof. unfold scale. lia. Qed.

Lemma scale_mono (N1 N2 : Z) : N1 <= N2 -> scale N1 <= scale N2.
Proof.
  intros H. unfold scale. pose proof (Z.log2_le_mono N1 N2 H). lia.
Qed.

(** Below the scale the quotient has at most 53 bits. *)
Lemma scale_upper (N : Z) : 0 <= N -> N < 2 ^ (scale N + 53).
Proof.
  intros HN. unfold scale.
  destruct (Z.eq_dec N 0) as [->|Hz]; [apply Z.pow_pos_nonneg; lia|].
  pose proof (Z.log2_spec N ltac:(lia)) as [_ Hu].
  eapply Z.lt_le_trans; [exact Hu|].
  apply Z.pow_le_mono_r; [lia|]. pose proof (Z.log2_nonneg N). lia.
Qed.

(** At a positive scale it has all 53. *)
Lemma scale_lower (N : Z) : 0 < scale N -> 2 ^ (scale N + 52) <= N.
Proof.
  unfold scale. intros H.
  assert (Hl : 52 < Z.log2 N) by lia.
  assert (HN : 0 < N) by (destruct (Z.log2_null N) as [_ Hn]; destruct (Z.le_gt_cases N 1); [rewrite Hn in Hl by assumption; lia | lia]).
  pose proof (Z.log2_spec N HN) as [Hlo _].
  replace (Z.max 0 (Z.log2 N - 52) + 52) with (Z.log2 N) by lia. exact Hlo.
Qed.

Lemma rndq_nonneg (P Q : Z) : 0 <= P -> 0 < Q -> 0 <= rndq P Q.
Proof.
  intros HP HQ. unfold rndq. cbv zeta.
  pose proof (scale_nonneg (P / Q)).
  assert (0 < 2 ^ scale (P / Q)) by (apply Z.pow_pos_nonneg; lia).
  assert (0 <= rne P (Q * 2 ^ scale (P / Q))) by (apply rne_nonneg; nia).
  nia.
Qed.

Lemma rndq_mono (P1 Q1 P2 Q2 : Z) :
  0 <= P1 -> 0 < Q1 -> 0 < Q2 -> P1 * Q2 <= P2 * Q1 -> rndq P1 Q1 <= rndq P2 Q2.
Proof.
  intros HP H1 H2 H.
  assert (HP2 : 0 <= P2) by nia.
  pose proof (div_le_cross P1 Q1 P2 Q2 H1 H2 H) as Hk.
  pose proof (Z.div_pos P1 Q1 HP H1) as HN1.
  pose proof (Z.div_pos P2 Q2 HP2 H2) as HN2.
  pose proof (scale_mono _ _ Hk) as Hs.
  unfold rndq. cbv zeta.
  set (n1 := scale (P1 / Q1)) in *. set (n2 := scale (P2 / Q2)) in *.
  pose proof (scale_nonneg (P1 / Q1)) as Hn1. fold n1 in Hn1.
  assert (Hp1 : 0 < 2 ^ n1) by (apply Z.pow_pos_nonneg; lia).
  assert (Hp2 : 0 < 2 ^ n2) by (apply Z.pow_pos_nonneg; lia).
  destruct (Z.eq_dec n1 n2) as [E|N].
  - rewrite <- E. apply Z.mul_le_mono_nonneg_r; [lia|].
    apply rne_mono; nia.
  - assert (Hlt : n1 < n2) by lia.
    (* the first is at most 2^(53+n1), the second at least 2^(52+n2) *)
    assert (U : rne P1 (Q1 * 2 ^ n1) <= 2 ^ 53).
    { apply rne_le; [nia|].
      pose proof (scale_upper (P1 / Q1) HN1) as Hu. fold n1 in Hu.
      rewrite Z.pow_add_r in Hu by lia.
      pose proof (Z.div_mod P1 Q1 ltac:(lia)) as E1.
      pose proof (Z.mod_pos_bound P1 Q1 H1) as M1.
      nia. }
    assert (L : 2 ^ 52 <= rne P2 (Q2 * 2 ^ n2)).
    { apply rne_ge; [nia|].
      pose proof (scale_lower (P2 / Q2) ltac:(fold n2; lia)) as Hl. fold n2 in Hl.
      rewrite Z.pow_add_r in Hl by lia.
      pose proof (Z.div_mod P2 Q2 ltac:(lia)) as E2.
      pose proof (Z.mod_pos_bound P2 Q2 H2) as M2.
      nia. }
    assert (Hpow : 2 ^ 53 * 2 ^ n1 <= 2 ^ 52 * 2 ^ n2).
    { rewrite <- !Z.pow_add_r by lia. apply Z.pow_le_mono_r; lia. }
    nia.
Qed.

Lemma rndq_ext (P1 Q1 P2 Q2 : Z) :
  0 <= P1 -> 0 < Q1 -> 0 < Q2 -> P1 * Q2 = P2 * Q1 -> rndq P1 Q1 = rndq P2 Q2.
Proof.
  intros HP H1 H2 H. apply Z.le_antisymm; apply rndq_mono; try lia; nia.
Qed.

(** ** The shifts of [SpecFloat] *)

Lemma Zdigits2_bounds (k : Z) :
  0 < k -> 2 ^ (Zdigits2 k - 1) <= k < 2 ^ Zdigits2 k.
Proof.
  destruct k as [|p|p]; try lia. intros _. cbn [Zdigits2].
  induction p as [p IH|p IH|]; cbn [digits2_pos].
  - rewrite Pos2Z.inj_succ.
    replace (Z.succ (Z.pos (digits2_pos p)) - 1) with (Z.succ (Z.pos (digits2_pos p) - 1)) by lia.
    rewrite !Z.pow_succ_r by lia. lia.
  - rewrite Pos2Z.inj_succ.
    replace (Z.succ (Z.pos (digits2_pos p)) - 1) with (Z.succ (Z.pos (digits2_pos p) - 1)) by lia.
    rewrite !Z.pow_succ_r by lia. lia.
  - cbn. lia.
Qed.

Lemma Zdigits2_nonneg (k : Z) : 0 <= k -> 0 <= Zdigits2 k.
Proof. destruct k; cbn; lia. Qed.

Lemma Zdigits2_unique (k d : Z) : 2 ^ (d - 1) <= k < 2 ^ d -> 0 < k -> Zdigits2 k = d.
Proof.
  intros [Hl Hu] Hk. pose proof (Zdigits2_bounds k Hk) as [Bl Bu].
  pose proof (Zdigits2_nonneg k ltac:(lia)) as Hn.
  assert (Hd : 0 <= d).
  { destruct (Z.le_gt_cases 0 d); [assumption|].
    rewrite (Z.pow_neg_r 2 d) in Hu by lia. lia. }
  destruct (Z.lt_trichotomy (Zdigits2 k) d) as [L|[E|G]]; [exfalso|exact E|exfalso].
  - assert (2 ^ Zdigits2 k <= 2 ^ (d - 1)) by (apply Z.pow_le_mono_r; lia). lia.
  - assert (2 ^ d <= 2 ^ (Zdigits2 k - 1)) by (apply Z.pow_le_mono_r; lia). lia.
Qed.

(** A shift record [mrs] holds [P / Q]: the quotient, and where the
    rest stands with respect to one half. *)
Definition located (mrs : shr_record) (P Q : Z) : Prop :=
  0 < Q /\ 0 <= shr_m mrs
  /\ 0 <= P - shr_m mrs * Q < Q
  /\ shr_r mrs = (Q <=? 2 * (P - shr_m mrs * Q))
  /\ shr_s mrs = negb (P - shr_m mrs * Q =? 0) && negb (2 * (P - shr_m mrs * Q) =? Q).

Lemma located_div (mrs : shr_record) (P Q : Z) :
  located mrs P Q -> shr_m mrs = P / Q /\ P - shr_m mrs * Q = P mod Q.
Proof.
  intros (HQ & Hm & HF & _).
  assert (E : shr_m mrs = P / Q).
  { apply (Z.div_unique P Q (shr_m mrs) (P - shr_m mrs * Q)); [lia | lia]. }
  split; [exact E|]. rewrite E. pose proof (Z.div_mod P Q ltac:(lia)). lia.
Qed.

Lemma shr_1_located (mrs : shr_record) (P Q : Z) :
  located mrs P Q -> located (shr_1 mrs) P (2 * Q).
Proof.
  destruct mrs as [m r s]. unfold located. cbn [shr_m shr_r shr_s].
  intros (HQ & Hm & HF & Hr & Hs). subst r s.
  destruct m as [|[p|p|]|p]; cbn [shr_1 shr_m shr_r shr_s]; try lia;
    repeat split; try lia;
    repeat match goal with
           | |- context [?a <=? ?b] => destruct (Z.leb_spec a b)
           | |- context [?a =? ?b] => destruct (Z.eqb_spec a b)
           end; cbn; try reflexivity; try lia.
Qed.

Lemma iter_pos_located (p : positive) (mrs : shr_record) (P Q : Z) :
  located mrs P Q -> located (iter_pos shr_1 p mrs) P (Q * 2 ^ Z.pos p).
Proof.
  revert mrs Q. induction p as [p IH|p IH|]; intros mrs Q H; cbn [iter_pos].
  - apply shr_1_located in H. apply IH in H. apply IH in H.
    replace (Q * 2 ^ Z.pos p~1) with (2 * Q * 2 ^ Z.pos p * 2 ^ Z.pos p); [exact H|].
    replace (Z.pos p~1) with (Z.pos p + Z.pos p + 1) by lia.
    rewrite !Z.pow_add_r by lia. rewrite Z.pow_1_r. ring.
  - apply IH in H. apply IH in H.
    replace (Q * 2 ^ Z.pos p~0) with (Q * 2 ^ Z.pos p * 2 ^ Z.pos p); [exact H|].
    replace (Z.pos p~0) with (Z.pos p + Z.pos p) by lia.
    rewrite !Z.pow_add_r by lia. ring.
  - apply shr_1_located in H. now rewrite Z.mul_comm.
Qed.

Lemma shr_located (mrs : shr_record) (e n : Z) (P Q : Z) :
  located mrs P Q -> 0 <= n ->
  exists mrs', shr mrs e n = (mrs', e + n) /\ located mrs' P (Q * 2 ^ n).
Proof.
  intros H Hn. destruct n as [|p|p]; try lia; cbn [shr].
  - exists mrs. now rewrite Z.add_0_r, Z.mul_1_r.
  - eexists. split; [reflexivity|]. now apply iter_pos_located.
Qed.

Lemma record_of_loc_exact (m : Z) : 0 <= m -> located (shr_record_of_loc m loc_Exact) m 1.
Proof.
  intros H. unfold located. cbn [shr_record_of_loc shr_m shr_r shr_s].
  rewrite Z.mul_1_r, Z.sub_diag. repeat split; try lia; reflexivity.
Qed.

Lemma round_nearest_even_located (mrs : shr_record) (P Q : Z) :
  located mrs P Q ->
  round_nearest_even (shr_m mrs) (loc_of_shr_record mrs) = rne P Q.
Proof.
  intros H. destruct (located_div mrs P Q H) as [Em EF].
  destruct H as (HQ & Hm & HF & Hr & Hs).
  unfold rne. cbv zeta. rewrite <- Em, <- EF.
  destruct mrs as [m r s]. cbn [shr_m shr_r shr_s] in *. subst r s.
  unfold loc_of_shr_record, round_nearest_even.
  destruct (Z.compare_spec (2 * (P - m * Q)) Q) as [C|C|C];
    repeat match goal with
           | |- context [?a <=? ?b] => destruct (Z.leb_spec a b)
           | |- context [?a =? ?b] => destruct (Z.eqb_spec a b)
           end; cbn; try reflexivity; try lia.
Qed.

(** ** What [binary_round_aux] computes *)

(** The value of a float that is zero or positive, in units of
    [2^-1074]. *)
Definition ival (x : spec_float) : Z :=
  match x with
  | S754_finite false m e => Z.pos m * 2 ^ (e + 1074)
  | _ => 0
  end.

Definition nonneg (x : spec_float) : bool :=
  match x with
  | S754_zero _ | S754_finite false _ _ => true
  | _ => false
  end.

Lemma fexp_eq (k : Z) : fexp prec emax k = Z.max (k - 53) (-1074).
Proof. reflexivity. Qed.

Lemma pow2_pos (n : Z) : 0 <= n -> 0 < 2 ^ n.
Proof. intros H. apply Z.pow_pos_nonneg; lia. Qed.

Lemma pow2_lt_inv (a b : Z) : 0 <= b -> 2 ^ a < 2 ^ b -> a < b.
Proof. intros Hb H. apply (Z.pow_lt_mono_r_iff 2); lia. Qed.

Lemma pow2_le (a b : Z) : 0 <= a <= b -> 2 ^ a <= 2 ^ b.
Proof. intros H. apply Z.pow_le_mono_r; lia. Qed.

(** The scale of a value between two powers of two. *)
Lemma scale_between (N j : Z) : 0 <= j -> 2 ^ j <= N < 2 ^ (j + 1) -> scale N = Z.max 0 (j - 52).
Proof.
  intros Hj H. unfold scale. f_equal. f_equal.
  apply Z.log2_unique; [exact Hj | exact H].
Qed.

Lemma rndq_located (m e P Q : Z) :
  0 < Q -> 0 <= m -> m * Q <= P < (m + 1) * Q ->
  -1074 <= e <= fexp prec emax (Zdigits2 m + e) ->
  let E := fexp prec emax (Zdigits2 m + e) in
  rndq (P * 2 ^ (e + 1074)) Q = rne P (Q * 2 ^ (E - e)) * 2 ^ (E + 1074).
Proof.
  intros HQ Hm HP [He1 He2] E. unfold rndq. cbv zeta.
  assert (Hc : 0 < 2 ^ (e + 1074)) by (apply pow2_pos; lia).
  assert (HE : -1074 <= E) by (unfold E; rewrite fexp_eq; lia).
  assert (Hs : scale (P * 2 ^ (e + 1074) / Q) = E + 1074).
  { destruct (Z.eq_dec m 0) as [->|Hm0].
    - cbn [Zdigits2] in *. unfold E in *. rewrite fexp_eq in *.
      assert (e = -1074) by lia. subst e. cbn [Z.add Z.pow Z.pow_pos Pos.iter Z.mul].
      rewrite Z.mul_1_r, (Z.div_small P Q) by lia. reflexivity.
    - pose proof (Zdigits2_bounds m ltac:(lia)) as [Bl Bu].
      set (d := Zdigits2 m) in *.
      assert (Hd : 1 <= d).
      { destruct (Z.le_gt_cases 1 d); [assumption|].
        rewrite (Z.pow_neg_r 2 (d - 1)) in Bl by lia.
        assert (d = 0) by (pose proof (Zdigits2_nonneg m Hm); fold d in H0; lia).
        rewrite H0 in Bu. cbn in Bu. lia. }
      rewrite (scale_between _ (d - 1 + (e + 1074))).
      + unfold E. rewrite fexp_eq. lia.
      + lia.
      + replace (d - 1 + (e + 1074) + 1) with (d + (e + 1074)) by lia.
        split.
        * rewrite (Z.pow_add_r 2 (d - 1) (e + 1074)) by lia.
          apply Z.div_le_lower_bound; [lia|].
          assert (2 ^ (d - 1) * Q <= m * Q) by (apply Z.mul_le_mono_nonneg_r; lia).
          assert (Q * 2 ^ (d - 1) <= P) by lia.
          rewrite Z.mul_assoc. apply Z.mul_le_mono_nonneg_r; lia.
        * rewrite (Z.pow_add_r 2 d (e + 1074)) by lia.
          apply Z.div_lt_upper_bound; [lia|].
          assert ((m + 1) * Q <= 2 ^ d * Q) by (apply Z.mul_le_mono_nonneg_r; lia).
          assert (P < Q * 2 ^ d) by lia.
          rewrite Z.mul_assoc. apply Z.mul_lt_mono_pos_r; lia. }
  rewrite Hs. f_equal. apply rne_ext.
  - lia.
  - assert (0 < 2 ^ (E - e)) by (apply pow2_pos; lia). nia.
  - replace (E + 1074) with ((e + 1074) + (E - e)) by lia.
    rewrite (Z.pow_add_r 2 (e + 1074) (E - e)) by lia. ring.
Qed.

Lemma binary_round_aux_value (m e : Z) (l : location) (P Q : Z) :
  located (shr_record_of_loc m l) P Q ->
  -1074 <= e <= fexp prec emax (Zdigits2 m + e) ->
  rndq (P * 2 ^ (e + 1074)) Q < 2 ^ 2098 ->
  valid_binary (binary_round_aux prec emax false m e l) = true
  /\ nonneg (binary_round_aux prec emax false m e l) = true
  /\ ival (binary_round_aux prec emax false m e l) = rndq (P * 2 ^ (e + 1074)) Q.
Proof.
  intros Hloc [He1 He2] HV.
  assert (Hm : shr_m (shr_record_of_loc m l) = m) by (destruct l as [|[]]; reflexivity).
  pose proof Hloc as (HQ & Hm0 & HF & _). rewrite Hm in Hm0, HF.
  rewrite (rndq_located m e P Q HQ Hm0 ltac:(lia) (conj He1 He2)) in *.
  set (E := fexp prec emax (Zdigits2 m + e)) in *.
  assert (HE : -1074 <= E) by (unfold E; rewrite fexp_eq; lia).
  destruct (shr_located _ e (E - e) P Q Hloc ltac:(lia)) as (mrs' & Hshr & Hloc').
  replace (e + (E - e)) with E in Hshr by lia.
  set (k := rne P (Q * 2 ^ (E - e))) in *.
  assert (Hres : binary_round_aux prec emax false m e l
                 = let '(mrs'', e'') := shr_fexp prec emax k E loc_Exact in
                   match shr_m mrs'' with
                   | 0 => S754_zero false
                   | Z.pos m0 =>
                       if e'' <=? emax - prec then S754_finite false m0 e''
                       else S754_infinity false
                   | Z.neg _ => S754_nan
                   end).
  { unfold binary_round_aux. unfold shr_fexp at 1. fold E. rewrite Hshr.
    now rewrite (round_nearest_even_located mrs' P _ Hloc'). }
  rewrite Hres. clear Hres.
  assert (Hp : 0 < 2 ^ (E - e)) by (apply pow2_pos; lia).
  assert (Hk0 : 0 <= k) by (apply rne_nonneg; nia).
  assert (Hk53 : k <= 2 ^ 53).
  { apply rne_le; [nia|].
    destruct (Z.eq_dec m 0) as [->|Hmz]; [nia|].
    pose proof (Zdigits2_bounds m ltac:(lia)) as [_ Bu].
    assert (Hd : Zdigits2 m <= 53 + (E - e)) by (unfold E; rewrite fexp_eq; lia).
    assert (2 ^ Zdigits2 m <= 2 ^ (53 + (E - e))).
    { apply pow2_le. pose proof (Zdigits2_nonneg m Hm0). lia. }
    rewrite Z.pow_add_r in H by lia. nia. }
  assert (Hk52 : -1074 < E -> 2 ^ 52 <= k).
  { intros HEn. apply rne_ge; [nia|].
    assert (Hmz : 0 < m).
    { destruct (Z.eq_dec m 0) as [->|]; [|lia].
      unfold E in HEn. rewrite fexp_eq in HEn. cbn [Zdigits2] in *.
      unfold E in He2. rewrite fexp_eq in He2. cbn [Zdigits2] in He2. lia. }
    pose proof (Zdigits2_bounds m Hmz) as [Bl _].
    assert (Hd : Zdigits2 m - 1 = 52 + (E - e)) by (unfold E in *; rewrite fexp_eq in *; lia).
    rewrite Hd, Z.pow_add_r in Bl by lia. nia. }
  assert (HpE : 0 < 2 ^ (E + 1074)) by (apply pow2_pos; lia).
  assert (HE971 : 0 < k -> (k < 2 ^ 53 -> E <= 971) /\ (k = 2 ^ 53 -> E + 1 <= 971)).
  { intros Hkp. split.
    - intros _. destruct (Z.eq_dec E (-1074)) as [->|]; [lia|].
      specialize (Hk52 ltac:(lia)).
      assert (2 ^ (52 + (E + 1074)) < 2 ^ 2098).
      { rewrite Z.pow_add_r by lia. nia. }
      apply pow2_lt_inv in H; lia.
    - intros Hk. rewrite Hk, <- Z.pow_add_r in HV by lia.
      apply pow2_lt_inv in HV; lia. }
  destruct (Z.eq_dec k 0) as [Hkz|Hkz].
  - rewrite Hkz. unfold shr_fexp. cbn [Zdigits2 shr_record_of_loc Z.add].
    assert (Hn : fexp prec emax E - E <= 0) by (rewrite fexp_eq; lia).
    destruct (fexp prec emax E - E) as [|q|q] eqn:En; try lia; cbn [shr shr_m];
      (split; [reflexivity|]; split; [reflexivity|]; cbn; lia).
  - destruct (Z.eq_dec k (2 ^ 53)) as [Hk|Hk].
    + rewrite Hk. destruct (HE971 ltac:(lia)) as [_ H1]. specialize (H1 Hk).
      unfold shr_fexp.
      change (Zdigits2 (2 ^ 53)) with 54.
      replace (fexp prec emax (54 + E) - E) with 1 by (rewrite fexp_eq; lia).
      cbn [shr shr_record_of_loc iter_pos shr_1 shr_m].
      change (2 ^ 53) with (Z.pos (4503599627370496~0)).
      cbn [shr_1 shr_m].
      assert (Hle : (E + 1 <=? emax - prec) = true) by (apply Z.leb_le; change (emax - prec) with 971; lia).
      rewrite Hle. split; [|split].
      * cbn [valid_binary SpecFloat.valid_binary bounded canonical_mantissa].
        unfold valid_binary, SpecFloat.valid_binary, bounded, canonical_mantissa.
        rewrite Hle, andb_true_r. apply Z.eqb_eq.
        change (Z.pos (digits2_pos 4503599627370496)) with 53. rewrite fexp_eq. lia.
      * reflexivity.
      * cbn [ival]. replace (E + 1 + 1074) with (1 + (E + 1074)) by lia.
        rewrite Z.pow_add_r by lia. lia.
    + assert (Hkp : 0 < k) by lia. destruct (HE971 Hkp) as [H1 _].
      specialize (H1 ltac:(lia)).
      pose proof (Zdigits2_bounds k Hkp) as [Bl Bu].
      assert (Hdk : Zdigits2 k <= 53).
      { assert (2 ^ (Zdigits2 k - 1) < 2 ^ 53) by lia.
        apply pow2_lt_inv in H; lia. }
      assert (Hdk' : -1074 < E -> Zdigits2 k = 53).
      { intros HEn. apply Zdigits2_unique; [|lia]. specialize (Hk52 HEn).
        change (53 - 1) with 52. lia. }
      unfold shr_fexp.
      assert (Hn : fexp prec emax (Zdigits2 k + E) - E = 0).
      { rewrite fexp_eq. destruct (Z.eq_dec E (-1074)); [lia|].
        rewrite Hdk' by lia. lia. }
      rewrite Hn. cbn [shr].
      assert (Hr : shr_m (shr_record_of_loc k loc_Exact) = k) by reflexivity.
      rewrite Hr. destruct k as [|pk|pk]; try lia.
      assert (Hle : (E <=? emax - prec) = true) by (apply Z.leb_le; change (emax - prec) with 971; lia).
      rewrite Hle. split; [|split].
      * unfold valid_binary, SpecFloat.valid_binary, bounded, canonical_mantissa.
        rewrite Hle, andb_true_r. apply Z.eqb_eq. cbn [Zdigits2] in Hn. lia.
      * reflexivity.
      * reflexivity.
Qed.

(** ** Order and value *)

Lemma valid_finite (s : bool) (m : positive) (e : Z) :
  valid_binary (S754_finite s m e) = true ->
  -1074 <= e <= 971
  /\ Z.pos (digits2_pos m) <= 53
  /\ (-1074 < e -> Z.pos (digits2_pos m) = 53)
  /\ fexp prec emax (Z.pos (digits2_pos m) + e) = e.
Proof.
  unfold valid_binary, SpecFloat.valid_binary, bounded, canonical_mantissa.
  intros H. apply andb_prop in H. destruct H as [Hc Hb].
  apply Z.eqb_eq in Hc. apply Z.leb_le in Hb. change (emax - prec) with 971 in Hb.
  pose proof Hc as Hc'. rewrite fexp_eq in Hc'. repeat split; try lia; exact Hc.
Qed.

Lemma valid_mantissa (s : bool) (m : positive) (e : Z) :
  valid_binary (S754_finite s m e) = true ->
  Z.pos m < 2 ^ 53 /\ (-1074 < e -> 2 ^ 52 <= Z.pos m).
Proof.
  intros H. destruct (valid_finite s m e H) as (_ & Hd & Hn & _).
  pose proof (Zdigits2_bounds (Z.pos m) ltac:(lia)) as [Bl Bu]. cbn [Zdigits2] in *.
  split.
  - eapply Z.lt_le_trans; [exact Bu|]. apply pow2_le. lia.
  - intros He. rewrite (Hn He) in Bl. exact Bl.
Qed.

Lemma value_lt (m1 m2 : positive) (e1 e2 : Z) :
  valid_binary (S754_finite false m1 e1) = true ->
  valid_binary (S754_finite false m2 e2) = true ->
  e1 < e2 ->
  Z.pos m1 * 2 ^ (e1 + 1074) < Z.pos m2 * 2 ^ (e2 + 1074).
Proof.
  intros H1 H2 He.
  destruct (valid_finite _ _ _ H1) as (B1 & _). destruct (valid_finite _ _ _ H2) as (B2 & _).
  destruct (valid_mantissa _ _ _ H1) as [U1 _].
  destruct (valid_mantissa _ _ _ H2) as [_ L2]. specialize (L2 ltac:(lia)).
  assert (P1 : 0 < 2 ^ (e1 + 1074)) by (apply pow2_pos; lia).
  assert (E : 2 ^ (e2 + 1074) = 2 ^ (e2 - e1) * 2 ^ (e1 + 1074)).
  { rewrite <- Z.pow_add_r by lia. f_equal. lia. }
  assert (P2 : 2 ^ 1 <= 2 ^ (e2 - e1)) by (apply pow2_le; lia).
  change (2 ^ 1) with 2 in P2. rewrite E.
  change (2 ^ 53) with (2 * 2 ^ 52) in U1. nia.
Qed.

Lemma ival_pos (m : positive) (e : Z) :
  valid_binary (S754_finite false m e) = true -> 0 < ival (S754_finite false m e).
Proof.
  intros H. destruct (valid_finite _ _ _ H) as (B & _). cbn [ival].
  assert (0 < 2 ^ (e + 1074)) by (apply pow2_pos; lia). nia.
Qed.

Lemma SFleb_ival (x y : spec_float) :
  valid_binary x = true -> valid_binary y = true ->
  nonneg x = true -> nonneg y = true ->
  SFleb x y = (ival x <=? ival y).
Proof.
  intros Vx Vy Nx Ny.
  destruct x as [sx|sx| |[] mx ex]; try discriminate;
    destruct y as [sy|sy| |[] my ey]; try discriminate; unfold SFleb, SFcompare.
  - reflexivity.
  - pose proof (ival_pos my ey Vy). symmetry. apply Z.leb_le. cbn [ival] in *. lia.
  - pose proof (ival_pos mx ex Vx). symmetry. apply Z.leb_gt. cbn [ival] in *. lia.
  - cbn [ival].
    destruct (Z.compare_spec ex ey) as [E|L|G].
    + subst ey. destruct (valid_finite _ _ _ Vx) as (B & _).
      assert (0 < 2 ^ (ex + 1074)) by (apply pow2_pos; lia).
      rewrite Pos.compare_cont_spec. cbn [Pos.switch_Eq].
      change (Pos.compare mx my) with (Z.compare (Z.pos mx) (Z.pos my)).
      destruct (Z.compare_spec (Z.pos mx) (Z.pos my)) as [E|L|G]; symmetry.
      * apply Z.leb_le. rewrite E. lia.
      * apply Z.leb_le. nia.
      * apply Z.leb_gt. nia.
    + symmetry. apply Z.leb_le. pose proof (value_lt mx my ex ey Vx Vy L). lia.
    + symmetry. apply Z.leb_gt. apply (value_lt my mx ey ex Vy Vx). lia.
Qed.

(** A float is its own rounding. *)
Lemma rndq_0 (Q : Z) : 0 < Q -> rndq 0 Q = 0.
Proof.
  intros HQ. unfold rndq. cbv zeta. rewrite Z.div_0_l by lia.
  change (scale 0) with 0. rewrite rne_exact; [now rewrite Z.div_0_l by lia | lia |].
  apply Z.mod_0_l. lia.
Qed.

Lemma rndq_ival (x : spec_float) :
  valid_binary x = true -> rndq (ival x) 1 = ival x.
Proof.
  intros V. destruct x as [s|s| |[] m e]; try (apply rndq_0; lia).
  destruct (valid_finite _ _ _ V) as (B & _ & _ & Hc). cbn [ival].
  rewrite (rndq_located (Z.pos m) e (Z.pos m) 1); cbn [Zdigits2]; try lia.
  rewrite Hc, Z.sub_diag. change (1 * 2 ^ 0) with 1.
  rewrite rne_exact by (try lia; apply Z.mod_1_r). now rewrite Z.div_1_r.
Qed.

(** ** Addition *)

Lemma pos_iter_xO (m d : positive) : Z.pos (Pos.iter xO m d) = Z.pos m * 2 ^ Z.pos d.
Proof.
  induction d using Pos.peano_ind.
  - cbn. lia.
  - rewrite Pos.iter_succ, Pos2Z.inj_succ, Z.pow_succ_r by lia.
    change (Z.pos (Pos.iter xO m d)~0) with (2 * Z.pos (Pos.iter xO m d)). lia.
Qed.

Lemma shl_align_value (m : positive) (e e' : Z) :
  e' <= e -> Z.pos (fst (shl_align m e e')) = Z.pos m * 2 ^ (e - e').
Proof.
  intros H. unfold shl_align. destruct (e' - e) as [|d|d] eqn:E; try lia; cbn [fst].
  - replace (e - e') with 0 by lia. lia.
  - rewrite pos_iter_xO. f_equal. f_equal. lia.
Qed.

Lemma binary_round_value (m : positive) (e : Z) :
  -1074 <= e ->
  rndq (Z.pos m * 2 ^ (e + 1074)) 1 < 2 ^ 2098 ->
  valid_binary (binary_round prec emax false m e) = true
  /\ nonneg (binary_round prec emax false m e) = true
  /\ ival (binary_round prec emax false m e) = rndq (Z.pos m * 2 ^ (e + 1074)) 1.
Proof.
  intros He HV. unfold binary_round.
  set (F := fexp prec emax (Z.pos (digits2_pos m) + e)).
  assert (HF : -1074 <= F) by (unfold F; rewrite fexp_eq; lia).
  unfold shl_align. destruct (F - e) as [|d|d] eqn:E.
  - apply (binary_round_aux_value (Z.pos m) e loc_Exact (Z.pos m) 1);
      [apply record_of_loc_exact; lia | cbn [Zdigits2]; fold F; lia | exact HV].
  - apply (binary_round_aux_value (Z.pos m) e loc_Exact (Z.pos m) 1);
      [apply record_of_loc_exact; lia | cbn [Zdigits2]; fold F; lia | exact HV].
  - assert (Hv : Z.pos (Pos.iter xO m d) * 2 ^ (F + 1074) = Z.pos m * 2 ^ (e + 1074)).
    { rewrite pos_iter_xO. replace (e + 1074) with (Z.pos d + (F + 1074)) by lia.
      rewrite (Z.pow_add_r 2 (Z.pos d) (F + 1074)) by lia. ring. }
    rewrite <- Hv in *.
    apply (binary_round_aux_value (Z.pos (Pos.iter xO m d)) F loc_Exact
             (Z.pos (Pos.iter xO m d)) 1);
      [apply record_of_loc_exact; lia | | exact HV].
    cbn [Zdigits2]. rewrite digits2_pos_iter.
    replace (Z.pos (digits2_pos m) + Z.pos d + F) with (Z.pos (digits2_pos m) + e) by lia.
    fold F. lia.
Qed.

Lemma SFadd_value (x y : spec_float) :
  valid_binary x = true -> valid_binary y = true ->
  nonneg x = true -> nonneg y = true ->
  rndq (ival x + ival y) 1 < 2 ^ 2098 ->
  valid_binary (SF64add x y) = true
  /\ nonneg (SF64add x y) = true
  /\ ival (SF64add x y) = rndq (ival x + ival y) 1.
Proof.
  intros Vx Vy Nx Ny HV.
  destruct x as [sx|sx| |[] mx ex]; try discriminate;
    destruct y as [sy|sy| |[] my ey]; try discriminate.
  - unfold SF64add, SFadd. destruct sx, sy; repeat split.
  - cbn [SF64add SFadd]. unfold SF64add, SFadd.
    change (ival (S754_zero sx)) with 0. rewrite Z.add_0_l, rndq_ival by exact Vy.
    now repeat split.
  - unfold SF64add, SFadd.
    change (ival (S754_zero sy)) with 0. rewrite Z.add_0_r, rndq_ival by exact Vx.
    now repeat split.
  - destruct (valid_finite _ _ _ Vx) as (Bx & _). destruct (valid_finite _ _ _ Vy) as (By & _).
    unfold SF64add, SFadd. cbv zeta. cbn [cond_Zopp].
    set (ez := Z.min ex ey).
    rewrite (shl_align_value mx ex ez), (shl_align_value my ey ez) by (unfold ez; lia).
    assert (Hsum : ival (S754_finite false mx ex) + ival (S754_finite false my ey)
                   = (Z.pos mx * 2 ^ (ex - ez) + Z.pos my * 2 ^ (ey - ez)) * 2 ^ (ez + 1074)).
    { cbn [ival].
      replace (ex + 1074) with ((ex - ez) + (ez + 1074)) by lia.
      replace (ey + 1074) with ((ey - ez) + (ez + 1074)) by lia.
      rewrite (Z.pow_add_r 2 (ex - ez) (ez + 1074)) by (unfold ez; lia).
      rewrite (Z.pow_add_r 2 (ey - ez) (ez + 1074)) by (unfold ez; lia). ring. }
    rewrite Hsum in *.
    assert (Px : 0 < 2 ^ (ex - ez)) by (apply pow2_pos; unfold ez; lia).
    assert (Py : 0 < 2 ^ (ey - ez)) by (apply pow2_pos; unfold ez; lia).
    destruct (Z.pos mx * 2 ^ (ex - ez) + Z.pos my * 2 ^ (ey - ez)) as [|M|M] eqn:EM; try lia.
    unfold binary_normalize.
    apply binary_round_value; [unfold ez; lia | exact HV].
Qed.

(** ** Division *)

Lemma new_location_located (q r d : Z) :
  0 < d -> 0 <= q -> 0 <= r < d ->
  located (shr_record_of_loc q (new_location d r)) (d * q + r) d.
Proof.
  intros Hd Hq Hr.
  assert (Hm : forall l, shr_m (shr_record_of_loc q l) = q) by (intros [|[]]; reflexivity).
  unfold located. rewrite Hm.
  replace (d * q + r - q * d) with r by ring.
  split; [exact Hd|]. split; [exact Hq|]. split; [exact Hr|].
  unfold new_location, new_location_even, new_location_odd.
  destruct (Z.even d) eqn:Ev.
  - destruct (Z.eqb_spec r 0) as [->|Hr0].
    + cbn. destruct (Z.leb_spec d 0); [lia|]. split; reflexivity.
    + destruct (Z.compare_spec (2 * r) d) as [E|L|G]; cbn [shr_record_of_loc shr_r shr_s];
        destruct (Z.leb_spec d (2 * r)); try lia;
        destruct (Z.eqb_spec (2 * r) d); try lia; split; reflexivity.
  - assert (Hodd : 2 * r <> d).
    { intros E. rewrite <- E, Z.even_mul in Ev. discriminate. }
    destruct (Z.eqb_spec r 0) as [->|Hr0].
    + cbn. destruct (Z.leb_spec d 0); [lia|]. split; reflexivity.
    + destruct (Z.compare_spec (2 * r + 1) d) as [E|L|G]; cbn [shr_record_of_loc shr_r shr_s];
        destruct (Z.leb_spec d (2 * r)); try lia;
        destruct (Z.eqb_spec (2 * r) d); try lia; split; reflexivity.
Qed.

Lemma SFdiv_value (x : spec_float) (my : positive) (ey : Z) :
  valid_binary x = true -> nonneg x = true ->
  valid_binary (S754_finite false my ey) = true -> ey <= 0 ->
  rndq (ival x * 2 ^ 1074) (ival (S754_finite false my ey)) < 2 ^ 2098 ->
  valid_binary (SF64div x (S754_finite false my ey)) = true
  /\ nonneg (SF64div x (S754_finite false my ey)) = true
  /\ ival (SF64div x (S754_finite false my ey))
     = rndq (ival x * 2 ^ 1074) (ival (S754_finite false my ey)).
Proof.
  intros Vx Nx Vy Hey HV.
  pose proof (ival_pos my ey Vy) as Hy.
  destruct x as [sx|sx| |[] mx ex]; try discriminate.
  - unfold SF64div, SFdiv. change (ival (S754_zero sx) * 2 ^ 1074) with 0.
    rewrite rndq_0 by exact Hy. destruct sx; repeat split.
  - destruct (valid_finite _ _ _ Vx) as (Bx & _). destruct (valid_finite _ _ _ Vy) as (By & _).
    unfold SF64div, SFdiv, SFdiv_core_binary. cbv zeta. cbn [Zdigits2 xorb].
    set (d1 := Z.pos (digits2_pos mx)). set (d2 := Z.pos (digits2_pos my)).
    set (e' := Z.min (fexp prec emax (d1 + ex - (d2 + ey))) (ex - ey)).
    set (s := ex - ey - e').
    assert (Hs : 0 <= s) by (unfold s, e'; lia).
    assert (He' : -1074 <= e') by (unfold e'; rewrite fexp_eq; lia).
    assert (Hm' : match s with
                  | 0 => Z.pos mx
                  | Z.pos _ => Z.shiftl (Z.pos mx) s
                  | Z.neg _ => 0
                  end = Z.pos mx * 2 ^ s).
    { destruct s as [|p|p] eqn:Es; try lia.
      rewrite Z.shiftl_mul_pow2 by lia. reflexivity. }
    rewrite Hm'. set (m' := Z.pos mx * 2 ^ s).
    assert (Ps : 0 < 2 ^ s) by (apply pow2_pos; lia).
    pose proof (Z.div_eucl_eq m' (Z.pos my) ltac:(lia)) as Heq.
    pose proof (Z.mod_pos_bound m' (Z.pos my) ltac:(lia)) as Hmod.
    unfold Z.modulo in Hmod.
    destruct (Z.div_eucl m' (Z.pos my)) as [q r] eqn:Ediv.
    assert (Hq : 0 <= q) by (unfold m' in Heq; nia).
    pose proof (new_location_located q r (Z.pos my) ltac:(lia) Hq Hmod) as Hloc.
    rewrite <- Heq in Hloc.
    (* the magnitudes *)
    pose proof (Zdigits2_bounds (Z.pos mx) ltac:(lia)) as [Lx Ux].
    pose proof (Zdigits2_bounds (Z.pos my) ltac:(lia)) as [Ly Uy].
    cbn [Zdigits2] in Lx, Ux, Ly, Uy. fold d1 in Lx, Ux. fold d2 in Ly, Uy.
    assert (Hd1 : 1 <= d1) by (unfold d1; lia).
    assert (Hd2 : 1 <= d2) by (unfold d2; lia).
    assert (Hcan : e' <= fexp prec emax (Zdigits2 q + e')).
    { rewrite fexp_eq. destruct (Z.eq_dec e' (-1074)) as [|Hn]; [lia|].
      assert (Hf : e' <= d1 + ex - (d2 + ey) - 53) by (unfold e' in *; rewrite fexp_eq in *; lia).
      assert (Hsl : d2 - d1 + 53 <= s) by (unfold s; lia).
      (* the quotient has 53 bits at least *)
      assert (Hq52 : 2 ^ 52 <= q).
      { assert (Hpow : 2 ^ (d2 + 52) <= m').
        { unfold m'.
          assert (2 ^ (d2 + 52) <= 2 ^ (d1 - 1 + s)) by (apply pow2_le; lia).
          rewrite (Z.pow_add_r 2 (d1 - 1) s) in H by lia.
          assert (2 ^ (d1 - 1) * 2 ^ s <= Z.pos mx * 2 ^ s)
            by (apply Z.mul_le_mono_nonneg_r; lia).
          lia. }
        rewrite Z.pow_add_r in Hpow by lia.
        destruct (Z.le_gt_cases (2 ^ 52) q) as [|G]; [assumption|exfalso].
        assert (q + 1 <= 2 ^ 52) by lia.
        assert (Z.pos my * (q + 1) <= Z.pos my * 2 ^ 52)
          by (apply Z.mul_le_mono_nonneg_l; lia).
        assert (Z.pos my * 2 ^ 52 <= 2 ^ d2 * 2 ^ 52)
          by (apply Z.mul_le_mono_nonneg_r; lia).
        lia. }
      pose proof (Zdigits2_bounds q ltac:(lia)) as [_ Uq].
      assert (2 ^ 52 < 2 ^ Zdigits2 q) by lia.
      apply pow2_lt_inv in H; [lia|]. apply Zdigits2_nonneg; lia. }
    assert (Hval : rndq (m' * 2 ^ (e' + 1074)) (Z.pos my)
                   = rndq (ival (S754_finite false mx ex) * 2 ^ 1074)
                          (ival (S754_finite false my ey))).
    { apply rndq_ext.
      - assert (0 < 2 ^ (e' + 1074)) by (apply pow2_pos; lia). unfold m'. nia.
      - lia.
      - exact Hy.
      - cbn [ival]. unfold m'.
        replace (ex + 1074) with (s + (e' + 1074) + ey) by (unfold s; lia).
        assert (Pe : 0 < 2 ^ (e' + 1074)) by (apply pow2_pos; lia).
        destruct (Z.eq_dec ey 0) as [->|Hey0].
        + rewrite Z.add_0_r, Z.add_0_l, (Z.pow_add_r 2 s (e' + 1074)) by lia. ring.
        + replace (Z.pos mx * 2 ^ (s + (e' + 1074) + ey) * 2 ^ 1074)
            with (Z.pos mx * 2 ^ (s + (e' + 1074) + (ey + 1074))).
          * rewrite (Z.pow_add_r 2 (s + (e' + 1074)) (ey + 1074)) by lia.
            rewrite (Z.pow_add_r 2 s (e' + 1074)) by lia. ring.
          * rewrite <- Z.mul_assoc, <- Z.pow_add_r by lia. f_equal. f_equal. lia. }
    rewrite <- Hval in *.
    apply (binary_round_aux_value q e' (new_location (Z.pos my) r) m' (Z.pos my) Hloc);
      [split; assumption | exact HV].
Qed.

(** ** Floats between zero and a bound *)

(** The float [x] is zero or positive and at most [c] units of
    [2^-1074]. *)
Definition within (x : float) (c : Z) : Prop :=
  nonneg (Prim2SF x) = true /\ ival (Prim2SF x) <= c.

Lemma within_of_leb (x c : float) :
  (0 <=? x)%float = true -> (x <=? c)%float = true ->
  nonneg (Prim2SF c) = true ->
  within x (ival (Prim2SF c)).
Proof.
  rewrite !leb_spec. change (Prim2SF 0) with (S754_zero false).
  intros H0 Hc Nc.
  assert (Nx : nonneg (Prim2SF x) = true).
  { destruct (Prim2SF x) as [s|[]| |[] m e]; try reflexivity; try discriminate.
    destruct (Prim2SF c) as [s|[]| |[] mc ec]; discriminate. }
  split; [exact Nx|].
  rewrite (SFleb_ival _ _ (Prim2SF_valid x) (Prim2SF_valid c) Nx Nc) in Hc.
  now apply Z.leb_le.
Qed.

Lemma within_leb (x y : float) (c : Z) :
  within x c -> nonneg (Prim2SF y) = true -> c <= ival (Prim2SF y) ->
  (0 <=? x)%float = true /\ (x <=? y)%float = true.
Proof.
  intros [Nx Hx] Ny Hc. rewrite !leb_spec. split.
  - change (Prim2SF 0) with (S754_zero false).
    destruct (Prim2SF x) as [s|[]| |[] m e]; try reflexivity; discriminate.
  - rewrite (SFleb_ival _ _ (Prim2SF_valid x) (Prim2SF_valid y) Nx Ny).
    apply Z.leb_le. lia.
Qed.

Lemma within_weaken (x : float) (c c' : Z) : within x c -> c <= c' -> within x c'.
Proof. intros [N H] Hc. split; [exact N | lia]. Qed.

Lemma within_nonneg (x : float) (c : Z) : within x c -> 0 <= ival (Prim2SF x).
Proof.
  intros [N _]. destruct (Prim2SF x) as [s|s| |[] m e] eqn:E; cbn; try lia.
  pose proof (Prim2SF_valid x) as V. rewrite E in V.
  pose proof (ival_pos m e V). cbn in H. lia.
Qed.

Lemma within_add (x y : float) (cx cy : Z) :
  within x cx -> within y cy -> rndq (cx + cy) 1 < 2 ^ 2098 ->
  within (x + y) (rndq (cx + cy) 1).
Proof.
  intros Hx Hy HV.
  pose proof (within_nonneg x cx Hx) as Px. pose proof (within_nonneg y cy Hy) as Py.
  destruct Hx as [Nx Hx], Hy as [Ny Hy].
  assert (Hm : rndq (ival (Prim2SF x) + ival (Prim2SF y)) 1 <= rndq (cx + cy) 1)
    by (apply rndq_mono; lia).
  destruct (SFadd_value (Prim2SF x) (Prim2SF y) (Prim2SF_valid x) (Prim2SF_valid y) Nx Ny
              ltac:(lia)) as (_ & N & E).
  unfold within. rewrite add_spec. split; [exact N | lia].
Qed.

Lemma within_div (x y : float) (cx : Z) (my : positive) (ey : Z) :
  within x cx -> Prim2SF y = S754_finite false my ey -> ey <= 0 ->
  rndq (cx * 2 ^ 1074) (ival (Prim2SF y)) < 2 ^ 2098 ->
  within (x / y) (rndq (cx * 2 ^ 1074) (ival (Prim2SF y))).
Proof.
  intros Hx Ey Hey HV.
  pose proof (within_nonneg x cx Hx) as Px. destruct Hx as [Nx Hx].
  pose proof (Prim2SF_valid y) as Vy. rewrite Ey in *.
  pose proof (ival_pos my ey Vy) as Py.
  assert (Hm : rndq (ival (Prim2SF x) * 2 ^ 1074) (ival (S754_finite false my ey))
               <= rndq (cx * 2 ^ 1074) (ival (S754_finite false my ey))).
  { apply rndq_mono; try lia. nia. }
  destruct (SFdiv_value (Prim2SF x) my ey (Prim2SF_valid x) Nx Vy Hey ltac:(lia))
    as (_ & N & E).
  unfold within. rewrite div_spec, Ey. split; [exact N | lia].
Qed.

(** ** Negation *)

Lemma SFleb_opp (x y : spec_float) :
  SFleb x y = true -> SFleb (SFopp y) (SFopp x) = true.
Proof.
  unfold SFleb, SFcompare, SFopp.
  destruct x as [sx|sx| |sx mx ex], y as [sy|sy| |sy my ey];
    try destruct sx; try destruct sy; cbn [negb]; try reflexivity; try discriminate;
    rewrite (Z.compare_antisym ex ey); destruct (ex ?= ey); cbn [CompOpp];
    try reflexivity; try discriminate;
    rewrite !Pos.compare_cont_spec; cbn [Pos.switch_Eq];
    rewrite (Pos.compare_antisym mx my);
    destruct (mx ?= my)%positive; cbn [CompOpp]; try reflexivity; discriminate.
Qed.

Lemma leb_opp (x y : float) : (x <=? y)%float = true -> (- y <=? - x)%float = true.
Proof. rewrite !leb_spec, !opp_spec. apply SFleb_opp. Qed.

(** ** Degrees, minutes and seconds within bounds *)

Definition sixty : Z := Eval vm_compute in ival (Prim2SF 60).
Definition thirty_six_hundred : Z := Eval vm_compute in ival (Prim2SF 3600).

(** The bound for [d + m / 60 + s / 3600] that the bounds of [d], [m]
    and [s] give. *)
Definition degrees_bound (cd cm cs : Z) : Z :=
  rndq (rndq (cd + rndq (cm * 2 ^ 1074) sixty) 1 + rndq (cs * 2 ^ 1074) thirty_six_hundred) 1.

Lemma degrees_within (d m s : float) (cd cm cs : Z) :
  within d cd -> within m cm -> within s cs ->
  rndq (cm * 2 ^ 1074) sixty < 2 ^ 2098 ->
  rndq (cs * 2 ^ 1074) thirty_six_hundred < 2 ^ 2098 ->
  rndq (cd + rndq (cm * 2 ^ 1074) sixty) 1 < 2 ^ 2098 ->
  degrees_bound cd cm cs < 2 ^ 2098 ->
  within (d + m / 60 + s / 3600) (degrees_bound cd cm cs).
Proof.
  intros Hd Hm Hs B1 B2 B3 B4. unfold degrees_bound in *.
  apply within_add; [apply within_add; [exact Hd| |exact B3] | | exact B4].
  - refine (within_div m 60 cm 8444249301319680 (-47) Hm _ _ B1); [reflexivity | lia].
  - refine (within_div s 3600 cs 7916483719987200 (-41) Hs _ _ B2); [reflexivity | lia].
Qed.

(** The value of a float in units of [2^-1074]. *)
Definition units (f : float) : Z := ival (Prim2SF f).

Lemma degrees_box (d m s dmax mmax smax limit : float) :
  nonneg (Prim2SF dmax) = true -> nonneg (Prim2SF mmax) = true ->
  nonneg (Prim2SF smax) = true -> nonneg (Prim2SF limit) = true ->
  (rndq (units mmax * 2 ^ 1074) sixty <? 2 ^ 2098)
  && (rndq (units smax * 2 ^ 1074) thirty_six_hundred <? 2 ^ 2098)
  && (rndq (units dmax + rndq (units mmax * 2 ^ 1074) sixty) 1 <? 2 ^ 2098)
  && (degrees_bound (units dmax) (units mmax) (units smax) <=? units limit) = true ->
  units limit < 2 ^ 2098 ->
  (0 <=? d)%float = true -> (d <=? dmax)%float = true ->
  (0 <=? m)%float = true -> (m <=? mmax)%float = true ->
  (0 <=? s)%float = true -> (s <=? smax)%float = true ->
  (0 <=? d + m / 60 + s / 3600)%float = true
  /\ (d + m / 60 + s / 3600 <=? limit)%float = true.
Proof.
  intros Nd Nm Ns Nl Hc Hl D0 D1 M0 M1 S0 S1.
  apply andb_prop in Hc. destruct Hc as [Hc C4]. apply andb_prop in Hc. destruct Hc as [Hc C3].
  apply andb_prop in Hc. destruct Hc as [C1 C2].
  apply Z.ltb_lt in C1, C2, C3. apply Z.leb_le in C4.
  apply (within_leb _ limit (degrees_bound (units dmax) (units mmax) (units smax)));
    [|exact Nl|exact C4].
  apply degrees_within; try assumption; try (apply within_of_leb; assumption).
  unfold units in *. lia.
Qed.

(** ** Stored values in range *)

(** Are degrees, minutes and seconds between zero and the three
    bounds? *)
Definition in_box (dmax mmax smax d m s : float) : bool :=
  ((0 <=? d) && (d <=? dmax) && (0 <=? m) && (m <=? mmax)
   && (0 <=? s) && (s <=? smax))%float.

(** Degrees, minutes and seconds of a point on the sphere, for a
    coordinate that ends at [limit] degrees: up to [whole] degrees
    ([limit] less one) with up to 59 minutes and up to 60 seconds, or
    with up to 60 minutes and no seconds, or [limit] degrees with no
    minutes and no seconds. *)
Definition stored_in_range (whole limit d m s : float) : bool :=
  in_box whole 59 60 d m s || in_box whole 60 0 d m s || in_box limit 0 0 d m s.

Lemma in_box_bound (dmax mmax smax limit d m s : float) :
  nonneg (Prim2SF dmax) = true -> nonneg (Prim2SF mmax) = true ->
  nonneg (Prim2SF smax) = true -> nonneg (Prim2SF limit) = true ->
  (rndq (units mmax * 2 ^ 1074) sixty <? 2 ^ 2098)
  && (rndq (units smax * 2 ^ 1074) thirty_six_hundred <? 2 ^ 2098)
  && (rndq (units dmax + rndq (units mmax * 2 ^ 1074) sixty) 1 <? 2 ^ 2098)
  && (degrees_bound (units dmax) (units mmax) (units smax) <=? units limit) = true ->
  units limit < 2 ^ 2098 ->
  in_box dmax mmax smax d m s = true ->
  (0 <=? d + m / 60 + s / 3600)%float = true
  /\ (d + m / 60 + s / 3600 <=? limit)%float = true.
Proof.
  intros Nd Nm Ns Nl Hc Hl H. unfold in_box in H.
  repeat (apply andb_prop in H; let H' := fresh "B" in destruct H as [H H']).
  now apply (degrees_box d m s dmax mmax smax limit).
Qed.

Lemma latitude_in_range (d m s : float) :
  stored_in_range 89 90 d m s = true ->
  (0 <=? d + m / 60 + s / 3600)%float = true
  /\ (d + m / 60 + s / 3600 <=? 90)%float = true.
Proof.
  unfold stored_in_range. intros H.
  apply orb_prop in H. destruct H as [H|H]; [apply orb_prop in H; destruct H as [H|H]|];
    revert H; apply in_box_bound;
    [reflexivity | reflexivity | reflexivity | reflexivity
    | vm_compute; reflexivity | vm_compute; reflexivity
    | reflexivity | reflexivity | reflexivity | reflexivity
    | vm_compute; reflexivity | vm_compute; reflexivity
    | reflexivity | reflexivity | reflexivity | reflexivity
    | vm_compute; reflexivity | vm_compute; reflexivity ].
Qed.

Lemma longitude_in_range (d m s : float) :
  stored_in_range 179 180 d m s = true ->
  (0 <=? d + m / 60 + s / 3600)%float = true
  /\ (d + m / 60 + s / 3600 <=? 180)%float = true.
Proof.
  unfold stored_in_range. intros H.
  apply orb_prop in H. destruct H as [H|H]; [apply orb_prop in H; destruct H as [H|H]|];
    revert H; apply in_box_bound;
    [reflexivity | reflexivity | reflexivity | reflexivity
    | vm_compute; reflexivity | vm_compute; reflexivity
    | reflexivity | reflexivity | reflexivity | reflexivity
    | vm_compute; reflexivity | vm_compute; reflexivity
    | reflexivity | reflexivity | reflexivity | reflexivity
    | vm_compute; reflexivity | vm_compute; reflexivity ].
Qed.

(** A value between zero and a positive limit, with either sign, lies
    between the negated limit and the limit. *)
Lemma signed_between (x limit : float) (south : bool) (ml : positive) (el : Z) :
  Prim2SF limit = S754_finite false ml el ->
  (0 <=? x)%float = true -> (x <=? limit)%float = true ->
  ((- limit <=? (if south then - x else x)) && ((if south then - x else x) <=? limit))%float
  = true.
Proof.
  intros El H0 H1.
  assert (Nx : nonneg (Prim2SF x) = true).
  { destruct (within_of_leb x limit H0 H1) as [N _]; [now rewrite El | exact N]. }
  apply andb_true_intro. destruct south.
  - split; [now apply leb_opp|].
    rewrite leb_spec, opp_spec, El.
    destruct (Prim2SF x) as [s|s| |[] m e]; try discriminate; reflexivity.
  - split; [|exact H1].
    rewrite leb_spec, opp_spec, El.
    destruct (Prim2SF x) as [s|s| |[] m e]; try discriminate; reflexivity.
Qed.

(** ** The rational converter and the DMS converter *)

Section Conversions.
Context {R : Runtime}.

Lemma rational_to_float_int (z : Z) :
  rational_to_float (VInt z) = ok_or_None (float_of_Z z).
Proof.
  unfold rational_to_float, rational_to_float_body.
  cbn [numerator_denominator]. change (negb (1 =? 0)) with true. cbv iota.
  destruct (float_of_Z z) as [a|e]; cbn [exc_bind]; [|reflexivity].
  rewrite float_of_Z_one. cbn [exc_bind]. now rewrite py_fdiv_one.
Qed.

(** C3. [rational_to_float] on every shape of input: a pair
    [(num, den)] gives [float(num) / float(den)] when [den] is not zero
    and [float(num)] when it is, so [(n, 0)] gives [float(n)] and
    [(0, 0)] gives [0.0]; an object with [numerator] and [denominator]
    likewise; a plain number gives [float(x)]; a conversion that fails
    (an integer beyond the floats, a text that is no number) and every
    other shape give [None].  For integers below [2^53] in magnitude,
    which the 32-bit rationals of EXIF all are, no conversion fails and
    a denominator other than zero gives the quotient of the two floats.
    The result is an [option]: the exceptions of the body end in
    [None]. *)
Theorem rational_to_float_spec :
  forall (x : pyval) (n d z : Z) (f : float) (b : bool) (l : list pyval)
         (dict : pydict) (s : string),
    rational_to_float x = ok_or_None (rational_to_float_body x)
    /\ rational_to_float (VTuple l)
    = match l with
      | [num; den] =>
          if truthy den
          then ok_or_None (a <- py_float num ;; b <- py_float den ;; py_fdiv a b)%exc
          else ok_or_None (py_float num)
      | _ => None
      end
    /\ rational_to_float (VRational n d)
       = (if d =? 0
          then ok_or_None (float_of_Z n)
          else ok_or_None (a <- float_of_Z n ;; b <- float_of_Z d ;; py_fdiv a b)%exc)
    /\ rational_to_float (VTuple [VInt n; VInt 0]) = ok_or_None (float_of_Z n)
    /\ rational_to_float (VTuple [VInt 7; VInt 0]) = Some 7%float
    /\ rational_to_float (VTuple [VInt 0; VInt 0]) = Some 0%float
    /\ rational_to_float (VTuple [VInt 1; VInt 2]) = Some 0.5%float
    /\ rational_to_float (VFloat f) = Some f
    /\ rational_to_float (VInt z) = ok_or_None (float_of_Z z)
    /\ rational_to_float (VBool b) = Some (if b then 1%float else 0%float)
    /\ rational_to_float (VStr s) = ok_or_None (float_of_text s)
    /\ rational_to_float (VBytes s) = ok_or_None (float_of_text s)
    /\ rational_to_float VNone = None
    /\ rational_to_float (VList l) = None
    /\ rational_to_float (VDict dict) = None
    /\ rational_to_float (VTuple [VInt (10 ^ 400); VInt 1]) = None
    /\ (- 2 ^ 53 < n < 2 ^ 53 -> - 2 ^ 53 < d < 2 ^ 53 -> d <> 0 ->
        exists fn fd,
          float_of_Z n = Ok fn /\ float_of_Z d = Ok fd
          /\ rational_to_float (VTuple [VInt n; VInt d]) = Some (fn / fd)%float
          /\ rational_to_float (VRational n d) = Some (fn / fd)%float).
Proof.
  intros. repeat match goal with |- _ /\ _ => split end; try reflexivity.
  - unfold rational_to_float, rational_to_float_body. cbn [numerator_denominator].
    destruct l as [|num [|den [|y l']]]; try reflexivity.
    now destruct (truthy den).
  - unfold rational_to_float, rational_to_float_body. cbn [numerator_denominator].
    now destruct (d =? 0).
  - apply rational_to_float_int.
  - now destruct b.
  - intros Hn Hd Hd0.
    destruct (float_of_Z_small n Hn) as (fn & En & _).
    destruct (float_of_Z_small d Hd) as (fd & Ed & Hz).
    specialize (Hz Hd0).
    exists fn, fd. split; [exact En|]. split; [exact Ed|].
    unfold rational_to_float, rational_to_float_body.
    cbn [numerator_denominator py_float truthy py_truthy].
    destruct (Z.eqb_spec d 0) as [|_]; [contradiction|]. cbn [negb].
    rewrite En, Ed. cbn [exc_bind]. unfold py_fdiv. rewrite Hz.
    split; reflexivity.
Qed.

Lemma ref_in_S_W_str (ref : pyval) :
  ref_in_S_W ref
  = match ref with
    | VStr s => String.eqb s "S" || String.eqb s "W"
    | _ => false
    end.
Proof. now destruct ref. Qed.

(** C1. [dms_to_deg] on a sequence (a tuple or a list) [l] and a
    reference [ref]: [None] unless [l] has exactly three components that
    [rational_to_float] all converts; then degrees + minutes/60 +
    seconds/3600, negated exactly when [ref] is the text [S] or [W].
    The triple 10 deg 30' 0'' gives 10.5 with [N] and -10.5 with [S].  The
    result is an [option]: an exception of the body ends in [None]. *)
Theorem dms_to_deg_spec :
  forall (dms : pyval) (l : list pyval) (ref : pyval),
    let expected :=
      match l with
      | [x0; x1; x2] =>
          match rational_to_float x0, rational_to_float x1, rational_to_float x2 with
          | Some d, Some m, Some s =>
              let deg := (d + m / 60 + s / 3600)%float in
              Some (if ref_in_S_W ref then (- deg)%float else deg)
          | _, _, _ => None
          end
      | _ => None
      end in
    dms_to_deg dms ref = except_None (dms_to_deg_body dms ref)
    /\ dms_to_deg (VTuple l) ref = expected
    /\ dms_to_deg (VList l) ref = expected
    /\ ref_in_S_W ref
       = match ref with
         | VStr s => String.eqb s "S" || String.eqb s "W"
         | _ => false
         end
    /\ dms_to_deg VNone ref = None
    /\ (let triple := VList [VTuple [VInt 10; VInt 1]; VTuple [VInt 30; VInt 1];
                             VTuple [VInt 0; VInt 1]] in
        dms_to_deg triple (VStr "N") = Some 10.5%float
        /\ dms_to_deg triple (VStr "S") = Some (-10.5)%float
        /\ dms_to_deg triple (VStr "E") = Some 10.5%float
        /\ dms_to_deg triple (VStr "W") = Some (-10.5)%float
        /\ dms_to_deg triple VNone = Some 10.5%float
        /\ dms_to_deg triple (VStr "s") = Some 10.5%float).
Proof.
  intros dms l ref expected.
  assert (Hseq : forall seq, seq = VTuple l \/ seq = VList l ->
                             dms_to_deg seq ref = expected).
  { intros seq Hs. subst expected. unfold dms_to_deg, dms_to_deg_body.
    assert (Ht : truthy seq = match l with [] => false | _ => true end)
      by (destruct Hs; subst; reflexivity).
    assert (Hl : py_len seq = Ok (Z.of_nat (List.length l)))
      by (destruct Hs; subst; reflexivity).
    assert (Hg : forall i, py_getitem seq i
                           = match nth_error l i with
                             | Some x => Ok x
                             | None => Raise (Exn IndexError "index out of range")
                             end)
      by (destruct Hs; subst; reflexivity).
    rewrite Ht, Hl. cbn [exc_bind].
    destruct l as [|x0 [|x1 [|x2 [|x3 l']]]]; try reflexivity.
    - rewrite !Hg. cbn [nth_error exc_bind List.length Z.of_nat].
      change (negb (Z.pos (Pos.of_succ_nat 2) =? 3)) with false. cbv iota.
      cbn [negb].
      destruct (rational_to_float x0), (rational_to_float x1), (rational_to_float x2);
        try reflexivity.
    - cbn [negb List.length].
      destruct (Z.eqb_spec (Z.of_nat (S (S (S (S (List.length l')))))) 3) as [E|E];
        [lia | reflexivity]. }
  split; [reflexivity|].
  split; [apply Hseq; now left|].
  split; [apply Hseq; now right|].
  split; [apply ref_in_S_W_str|].
  repeat split; reflexivity.
Qed.

End Conversions.

(** ** XML escaping *)

(** Replacing one character, character by character. *)
Fixpoint subst_char (c : ascii) (new s : string) : string :=
  match s with
  | EmptyString => EmptyString
  | String a s' =>
      (if Ascii.eqb a c then new else String a "") ++ subst_char c new s'
  end.

(** The entity of a character, the character itself when it has none. *)
Definition escape_char (c : ascii) : string :=
  if Ascii.eqb c "&" then "&amp;"
  else if Ascii.eqb c "<" then "&lt;"
  else if Ascii.eqb c ">" then "&gt;"
  else if Ascii.eqb c (ascii_of_nat 34) then "&quot;"
  else if Ascii.eqb c "'" then "&apos;"
  else String c "".

Fixpoint escape_all (s : string) : string :=
  match s with
  | EmptyString => EmptyString
  | String c s' => escape_char c ++ escape_all s'
  end.

(** No [<], [>], double or single quote, and every [&] opens one of
    the five entities. *)
Fixpoint well_escaped (s : string) : bool :=
  match s with
  | EmptyString => true
  | String c s' =>
      (if Ascii.eqb c "&"
       then prefix "amp;" s' || prefix "lt;" s' || prefix "gt;" s'
            || prefix "quot;" s' || prefix "apos;" s'
       else negb (Ascii.eqb c "<" || Ascii.eqb c ">"
                  || Ascii.eqb c (ascii_of_nat 34) || Ascii.eqb c "'"))
      && well_escaped s'
  end.

Lemma prefix_empty (s : string) : prefix "" s = true.
Proof. now destruct s. Qed.

Lemma append_assoc (a b c : string) : (a ++ b) ++ c = a ++ (b ++ c).
Proof. induction a as [|x a IH]; cbn; [reflexivity | now rewrite IH]. Qed.

Lemma append_empty_r (a : string) : a ++ "" = a.
Proof. induction a as [|x a IH]; cbn; [reflexivity | now rewrite IH]. Qed.

Lemma replace_char (c : ascii) (new s : string) :
  replace (String c "") new s = subst_char c new s.
Proof.
  unfold replace. cbn [String.eqb].
  induction s as [|a s IH]; [reflexivity|].
  cbn [replace_from subst_char prefix String.length Nat.sub].
  rewrite prefix_empty.
  destruct (ascii_dec c a) as [E|E].
  - subst a. rewrite Ascii.eqb_refl. now rewrite IH.
  - destruct (Ascii.eqb_spec a c) as [E'|E']; [congruence|].
    cbn. now rewrite IH.
Qed.

Lemma subst_char_app (c : ascii) (new a b : string) :
  subst_char c new (a ++ b) = subst_char c new a ++ subst_char c new b.
Proof.
  induction a as [|x a IH]; [reflexivity|].
  cbn [append subst_char]. now rewrite IH, append_assoc.
Qed.

Lemma subst_char_other (c a : ascii) (new s : string) :
  Ascii.eqb a c = false ->
  subst_char c new (String a s) = String a (subst_char c new s).
Proof. intros H. cbn [subst_char]. now rewrite H. Qed.

Lemma subst_char_cons (c a : ascii) (new s : string) :
  subst_char c new (String a s)
  = (if Ascii.eqb a c then new else String a "") ++ subst_char c new s.
Proof. reflexivity. Qed.

Lemma xml_escape_cons (a : ascii) (s : string) :
  xml_escape (String a s) = escape_char a ++ xml_escape s.
Proof.
  unfold xml_escape, dq. rewrite !replace_char. unfold escape_char.
  rewrite (subst_char_cons "&").
  destruct (Ascii.eqb_spec a "&") as [E|E1].
  { subst a. rewrite !subst_char_app. reflexivity. }
  cbn [append]. rewrite (subst_char_cons "<").
  destruct (Ascii.eqb_spec a "<") as [E|E2].
  { subst a. rewrite !subst_char_app. reflexivity. }
  cbn [append]. rewrite (subst_char_cons ">").
  destruct (Ascii.eqb_spec a ">") as [E|E3].
  { subst a. rewrite !subst_char_app. reflexivity. }
  cbn [append]. rewrite (subst_char_cons (ascii_of_nat 34)).
  destruct (Ascii.eqb_spec a (ascii_of_nat 34)) as [E|E4].
  { subst a. rewrite !subst_char_app. reflexivity. }
  cbn [append]. rewrite (subst_char_cons "'").
  destruct (Ascii.eqb_spec a "'") as [E|E5].
  { subst a. reflexivity. }
  reflexivity.
Qed.

Lemma xml_escape_chars (s : string) : xml_escape s = escape_all s.
Proof.
  induction s as [|a s IH]; [reflexivity|].
  rewrite xml_escape_cons. cbn [escape_all]. now rewrite IH.
Qed.

Lemma well_escaped_escape_all (s : string) : well_escaped (escape_all s) = true.
Proof.
  induction s as [|a s IH]; [reflexivity|].
  cbn [escape_all]. unfold escape_char.
  destruct (Ascii.eqb_spec a "&") as [E|E1];
    [cbn; now rewrite prefix_empty|].
  destruct (Ascii.eqb_spec a "<") as [E|E2];
    [cbn; now rewrite prefix_empty|].
  destruct (Ascii.eqb_spec a ">") as [E|E3];
    [cbn; now rewrite prefix_empty|].
  destruct (Ascii.eqb_spec a (ascii_of_nat 34)) as [E|E4];
    [cbn; now rewrite prefix_empty|].
  destruct (Ascii.eqb_spec a "'") as [E|E5];
    [cbn; now rewrite prefix_empty|].
  cbn [append well_escaped].
  destruct (Ascii.eqb_spec a "&"); [contradiction|].
  destruct (Ascii.eqb_spec a "<"); [contradiction|].
  destruct (Ascii.eqb_spec a ">"); [contradiction|].
  destruct (Ascii.eqb_spec a (ascii_of_nat 34)); [contradiction|].
  destruct (Ascii.eqb_spec a "'"); [contradiction|].
  exact IH.
Qed.

(** C6. [xml_escape] replaces every [&], [<], [>], double quote and
    single quote by its entity and leaves every other character as it
    is: the five replacements in a row come to one pass over the
    characters, because [&] goes first and no entity written later is
    touched again.  So the result holds none of the four other
    characters and no [&] but the one that opens an entity; a text with
    all five characters gives all five entities.  With [&] replaced
    last, the entity of [<] would be escaped twice. *)
Theorem xml_escape_spec :
  forall s : string,
    xml_escape s = escape_all s
    /\ well_escaped (xml_escape s) = true
    /\ xml_escape ("&<>" ++ dq ++ "'") = "&amp;&lt;&gt;&quot;&apos;"
    /\ xml_escape "a<b>&amp;.jpg" = "a&lt;b&gt;&amp;amp;.jpg"
    /\ replace "&" "&amp;" (replace "<" "&lt;" "<") = "&amp;lt;".
Proof.
  intros s. split; [apply xml_escape_chars|].
  split; [rewrite xml_escape_chars; apply well_escaped_escape_all|].
  repeat split; reflexivity.
Qed.

(** ** KML coordinates *)

Lemma concat_app (l1 l2 : list string) :
  String.concat "" (l1 ++ l2) = String.concat "" l1 ++ String.concat "" l2.
Proof.
  induction l1 as [|a l1 IH]; [reflexivity|].
  destruct l1 as [|b l1].
  - cbn. destruct l2; cbn; [now rewrite append_empty_r | reflexivity].
  - change (String.concat "" ((a :: b :: l1) ++ l2))
      with (a ++ "" ++ String.concat "" ((b :: l1) ++ l2)).
    rewrite IH. cbn [append].
    change (String.concat "" (a :: b :: l1)) with (a ++ "" ++ String.concat "" (b :: l1)).
    cbn [append]. now rewrite append_assoc.
Qed.

Ltac normalize_append :=
  repeat first [ rewrite !append_assoc | progress cbn [append] ].

Lemma placemark_xml_split (pm : placemark) :
  exists head tail : string,
    placemark_xml pm
    = head ++ "<Point><coordinates>" ++ coordinates pm
      ++ "</coordinates></Point>" ++ tail.
Proof.
  unfold placemark_xml.
  exists ("    <Placemark>" ++ nl
          ++ "      <name>" ++ xml_escape (pm_name pm) ++ "</name>" ++ nl
          ++ "      " ++ (if String.eqb (xml_escape (pm_desc pm)) "" then ""
                          else "<description>" ++ xml_escape (pm_desc pm)
                               ++ "</description>") ++ nl
          ++ "      ").
  exists (nl ++ "    </Placemark>" ++ nl).
  normalize_append. reflexivity.
Qed.

(** C7. The coordinates of a placemark are written longitude first,
    then latitude, then the altitude when there is one, and
    [build_kml] puts exactly this text between [<coordinates>] and
    [</coordinates>] for every placemark of its list; latitude 12.3,
    longitude 45.6 and altitude 7.8 give [45.6,12.3,7.8].  Each number
    is written as [str] writes it: the latitude 64.000091552734375,
    which lies half way between two decimals of sixteen digits, comes
    out with the even last digit. *)
Theorem build_kml_coordinates :
  forall (before after : list placemark) (pm : placemark) (doc_name : string),
    coordinates pm
    = float_str (pm_lon pm) ++ "," ++ float_str (pm_lat pm)
      ++ match pm_alt pm with
         | Some alt => "," ++ float_str alt
         | None => ""
         end
    /\ (exists head tail : string,
          build_kml (before ++ pm :: after) doc_name
          = head ++ "<Point><coordinates>" ++ coordinates pm
            ++ "</coordinates></Point>" ++ tail)
    /\ coordinates {| pm_name := "a.jpg"; pm_lat := 12.3; pm_lon := 45.6;
                      pm_alt := Some 7.8%float; pm_desc := "a.jpg" |}
       = "45.6,12.3,7.8"
    /\ coordinates {| pm_name := "a.jpg"; pm_lat := 12.3; pm_lon := 45.6;
                      pm_alt := None; pm_desc := "a.jpg" |}
       = "45.6,12.3"
    /\ coordinates {| pm_name := "a.jpg"; pm_lat := 0x1.000018p+6; pm_lon := -0.5;
                      pm_alt := Some 1e+23%float; pm_desc := "a.jpg" |}
       = "-0.5,64.00009155273438,1e+23".
Proof.
  intros before after pm doc_name. split.
  { unfold coordinates. cbv zeta. destruct (pm_alt pm).
    - now rewrite !append_assoc.
    - now rewrite append_empty_r. }
  split; [|split; [|split]; vm_compute; reflexivity].
  destruct (placemark_xml_split pm) as (h & t & E).
  unfold build_kml. rewrite map_app. cbn [map]. rewrite concat_app.
  change (placemark_xml pm :: map placemark_xml after)
    with ([placemark_xml pm] ++ map placemark_xml after)%list.
  rewrite concat_app. cbn [String.concat]. rewrite E.
  set (header := "<?xml version=" ++ _).
  set (footer := "  </Document>" ++ _).
  exists (header ++ String.concat "" (map placemark_xml before) ++ h).
  exists (t ++ String.concat "" (map placemark_xml after) ++ footer).
  now rewrite !append_assoc.
Qed.

(** ** Dictionaries built by comprehension *)

Lemma py_eq_str (x : pyval) (s : string) : py_eq x (VStr s) = true -> x = VStr s.
Proof.
  destruct x; cbn; try discriminate.
  intros H. apply String.eqb_eq in H. now subst.
Qed.

Lemma dict_mem_set_same (d : pydict) (s : string) (v : pyval) :
  dict_mem (dict_set d (VStr s) v) (VStr s) = true.
Proof.
  unfold dict_mem. induction d as [|[k' v'] d IH]; cbn.
  - now rewrite String.eqb_refl.
  - destruct (py_eq k' (VStr s)) eqn:E; cbn; rewrite E; [reflexivity | exact IH].
Qed.

Lemma dict_mem_set_keep (d : pydict) (k k0 v : pyval) :
  dict_mem d k = true -> dict_mem (dict_set d k0 v) k = true.
Proof.
  unfold dict_mem. induction d as [|[k' v'] d IH]; cbn; [discriminate|].
  destruct (py_eq k' k0) eqn:E0; cbn; destruct (py_eq k' k) eqn:E; auto.
Qed.

(** A key absent from the dictionary and different from every key the
    comprehension writes is absent from the result. *)
Lemma dict_get_set_other (d : pydict) (k k0 v : pyval) :
  py_eq k0 k = false -> dict_get d k = None -> dict_get (dict_set d k0 v) k = None.
Proof.
  intros Hk. induction d as [|[k' v'] d IH]; cbn.
  - now rewrite Hk.
  - destruct (py_eq k' k) eqn:E; [discriminate|]. intros H.
    destruct (py_eq k' k0); cbn; rewrite E; auto.
Qed.

Lemma dict_get_set_value (d : pydict) (k k0 v x : pyval) :
  dict_get (dict_set d k0 v) k = Some x -> x = v \/ dict_get d k = Some x.
Proof.
  induction d as [|[k' v'] d IH]; cbn.
  - destruct (py_eq k0 k); [intros [= <-]; now left | discriminate].
  - destruct (py_eq k' k0); cbn; destruct (py_eq k' k); auto.
    intros [= <-]. now left.
Qed.

Section Comprehension.
Context {K V : Type} (key : K -> V -> pyval) (val : K -> V -> pyval).

Let step (acc : pydict) (kv : K * V) : pydict :=
  dict_set acc (key (fst kv) (snd kv)) (val (fst kv) (snd kv)).

Lemma fold_get_none (items : list (K * V)) (acc : pydict) (k : pyval) :
  (forall a b, In (a, b) items -> py_eq (key a b) k = false) ->
  dict_get acc k = None ->
  dict_get (fold_left step items acc) k = None.
Proof.
  revert acc. induction items as [|[a b] items IH]; intros acc Hk Hacc; [exact Hacc|].
  cbn [fold_left]. apply IH.
  - intros a' b' Hin. apply Hk. now right.
  - apply dict_get_set_other; [apply Hk; now left | exact Hacc].
Qed.

Lemma fold_get_value (items : list (K * V)) (acc : pydict) (k x : pyval) :
  dict_get (fold_left step items acc) k = Some x ->
  (exists a b, In (a, b) items /\ x = val a b) \/ dict_get acc k = Some x.
Proof.
  revert acc. induction items as [|[a b] items IH]; intros acc H; [now right|].
  cbn [fold_left] in H. apply IH in H. destruct H as [(a' & b' & Hin & E)|H].
  - left. exists a', b'. split; [now right | exact E].
  - apply dict_get_set_value in H. destruct H as [E|H]; [|now right].
    left. exists a, b. split; [now left | exact E].
Qed.

Lemma fold_mem_keep (items : list (K * V)) (acc : pydict) (k : pyval) :
  dict_mem acc k = true -> dict_mem (fold_left step items acc) k = true.
Proof.
  revert acc. induction items as [|[a b] items IH]; intros acc H; [exact H|].
  cbn [fold_left]. apply IH. now apply dict_mem_set_keep.
Qed.

Lemma fold_mem_str (items : list (K * V)) (acc : pydict) (a : K) (b : V) (s : string) :
  In (a, b) items -> key a b = VStr s ->
  dict_mem (fold_left step items acc) (VStr s) = true.
Proof.
  revert acc. induction items as [|[a' b'] items IH]; intros acc Hin E; [contradiction|].
  cbn [fold_left]. destruct Hin as [[= -> ->]|Hin].
  - apply fold_mem_keep. unfold step. cbn [fst snd]. rewrite E.
    apply dict_mem_set_same.
  - now apply IH.
Qed.

End Comprehension.

(** ** The GPS extractors *)

Section Extractors.
Context {R : Runtime}.

Lemma reverse_table_value (table : list (Z * string)) (k x : pyval) :
  dict_get (reverse_table table) k = Some x -> exists i, x = VInt i.
Proof.
  intros H. apply fold_get_value in H.
  destruct H as [(a & b & _ & E)|H]; [now exists a | discriminate].
Qed.

Lemma reverse_table_name (table : list (Z * string)) (i : Z) (name : string) :
  In (i, name) table -> dict_mem (reverse_table table) (VStr name) = true.
Proof.
  intros H. unfold reverse_table, dict_comprehension.
  now apply (fold_mem_str (fun _ v => VStr v) (fun k _ => VInt k) table [] i name name).
Qed.

(** A key renamed through [GPSTAGS] is never a name that [GPSTAGS]
    knows: a known name is turned into its id, an id stays an id. *)
Lemma renamed_key_not_name (i : Z) (name : string) (k : pyval) :
  In (i, name) ExifTags_GPSTAGS ->
  py_eq (dict_get_default GPSTAGS k k) (VStr name) = false.
Proof.
  intros Hin. destruct (py_eq _ _) eqn:E; [|reflexivity].
  apply py_eq_str in E. unfold dict_get_default in E.
  destruct (dict_get GPSTAGS k) as [x|] eqn:G.
  - apply reverse_table_value in G. destruct G as [j ->]. discriminate.
  - subst k. apply reverse_table_name in Hin. fold GPSTAGS in Hin.
    unfold dict_mem in Hin. now rewrite G in Hin.
Qed.

Lemma dms_to_deg_None (ref : pyval) : dms_to_deg VNone ref = None.
Proof. reflexivity. Qed.

(** With a table that names [GPSLatitude], as Pillow's does, the
    tag-dictionary extractor finds no coordinate in any dictionary:
    after the renaming no key of [gps] is the text [GPSLatitude]. *)
Lemma extract_gps_from_pil_exif_nothing (i : Z) (exif : pydict) :
  In (i, "GPSLatitude") ExifTags_GPSTAGS ->
  extract_gps_from_pil_exif exif = None.
Proof.
  intros Hin. unfold extract_gps_from_pil_exif.
  destruct exif as [|kv exif]; [reflexivity|].
  destruct (dict_get TAGS (VStr "GPSInfo")) as [tag|]; [|reflexivity].
  destruct (dict_get (kv :: exif) tag) as [[]|]; try reflexivity.
  cbv zeta.
  assert (E : get_str (dict_comprehension (fun k _ => dict_get_default GPSTAGS k k)
                                          (fun _ v => v) d) "GPSLatitude" = VNone).
  { assert (G : dict_get (dict_comprehension (fun k _ => dict_get_default GPSTAGS k k)
                                             (fun _ v => v) d) (VStr "GPSLatitude") = None).
    { apply (fold_get_none (fun (k v : pyval) => dict_get_default GPSTAGS k k)
                           (fun (k v : pyval) => v) d [] (VStr "GPSLatitude"));
        [|reflexivity].
      intros a b _. now apply renamed_key_not_name with (i := i). }
    unfold get_str. unfold dict_get_default at 1. now rewrite G. }
  rewrite E, dms_to_deg_None. reflexivity.
Qed.

(** The altitude both extractors compute from the altitude entry and
    the altitude reference of a GPS block. *)
Definition altitude_of (altitude : option pyval) (ref : pyval) : option float :=
  match altitude with
  | Some v =>
      match rational_to_float v with
      | Some a => Some (if py_eq ref (VInt 1) then (- a)%float else a)
      | None => None
      end
  | None => None
  end.

(** The raw-bytes extractor on a GPS block [g] whose references are
    [bytes]: latitude and longitude through [dms_to_deg], the altitude
    negated exactly when the reference equals 1. *)
Lemma gps_of_piexif_block (ex g : pydict) (latref lonref : string) :
  dict_get ex (VStr "GPS") = Some (VDict g) ->
  g <> [] ->
  dict_get_default g (VInt GPSIFD.GPSLatitudeRef) (VBytes "") = VBytes latref ->
  dict_get_default g (VInt GPSIFD.GPSLongitudeRef) (VBytes "") = VBytes lonref ->
  gps_of_piexif (VDict ex)
  = Ok match
        dms_to_deg (dict_get_default g (VInt GPSIFD.GPSLatitude) VNone)
                   (if String.eqb (filter_ascii latref) "" then VNone
                    else VStr (filter_ascii latref)),
        dms_to_deg (dict_get_default g (VInt GPSIFD.GPSLongitude) VNone)
                   (if String.eqb (filter_ascii lonref) "" then VNone
                    else VStr (filter_ascii lonref))
      with
      | Some lat, Some lon =>
          Some (lat, lon,
                altitude_of (dict_get g (VInt GPSIFD.GPSAltitude))
                            (dict_get_default g (VInt GPSIFD.GPSAltitudeRef) (VInt 0)))
      | _, _ => None
      end.
Proof.
  intros Hg Hne Hlat Hlon. unfold gps_of_piexif.
  assert (Hd : dict_get_default ex (VStr "GPS") (VDict []) = VDict g)
    by (unfold dict_get_default; now rewrite Hg).
  assert (Ht : truthy (VDict g) = true) by (destruct g; [contradiction | reflexivity]).
  cbn [as_dict exc_bind]. rewrite !Hd, Ht. cbn [negb as_dict exc_bind].
  rewrite Hlat, Hlon. cbn [decode_ascii_or_None exc_bind].
  unfold altitude_of.
  destruct (dms_to_deg (dict_get_default g (VInt GPSIFD.GPSLatitude) VNone) _);
    [|reflexivity].
  destruct (dms_to_deg (dict_get_default g (VInt GPSIFD.GPSLongitude) VNone) _);
    reflexivity.
Qed.

End Extractors.

Section Coordinates.
Context {R : Runtime}.

Lemma gps_of_piexif_some (ex : pyval) (lat lon : float) (alt : option float) :
  gps_of_piexif ex = Ok (Some (lat, lon, alt)) ->
  exists (exd g : pydict) (latref lonref : pyval),
    ex = VDict exd
    /\ dict_get_default exd (VStr "GPS") (VDict []) = VDict g
    /\ decode_ascii_or_None (dict_get_default g (VInt GPSIFD.GPSLatitudeRef) (VBytes ""))
       = Ok latref
    /\ decode_ascii_or_None (dict_get_default g (VInt GPSIFD.GPSLongitudeRef) (VBytes ""))
       = Ok lonref
    /\ dms_to_deg (dict_get_default g (VInt GPSIFD.GPSLatitude) VNone) latref = Some lat
    /\ dms_to_deg (dict_get_default g (VInt GPSIFD.GPSLongitude) VNone) lonref = Some lon
    /\ alt = altitude_of (dict_get g (VInt GPSIFD.GPSAltitude))
                         (dict_get_default g (VInt GPSIFD.GPSAltitudeRef) (VInt 0)).
Proof.
  unfold gps_of_piexif. destruct ex as [| | | | | | | |exd|]; cbn [as_dict exc_bind];
    try discriminate.
  destruct (truthy (dict_get_default exd (VStr "GPS") (VDict []))); cbn [negb];
    [|discriminate].
  destruct (dict_get_default exd (VStr "GPS") (VDict [])) as [| | | | | | | |g|] eqn:Eg;
    cbn [as_dict exc_bind]; try discriminate.
  destruct (decode_ascii_or_None (dict_get_default g (VInt GPSIFD.GPSLatitudeRef) _))
    as [latref|] eqn:E1; cbn [exc_bind]; [|discriminate].
  destruct (decode_ascii_or_None (dict_get_default g (VInt GPSIFD.GPSLongitudeRef) _))
    as [lonref|] eqn:E2; cbn [exc_bind]; [|discriminate].
  destruct (dms_to_deg _ latref) as [lat'|] eqn:E3; [|discriminate].
  destruct (dms_to_deg _ lonref) as [lon'|] eqn:E4; [|discriminate].
  intros [= <- <- <-].
  exists exd, g, latref, lonref. repeat split; assumption || reflexivity.
Qed.

Lemma extract_gps_from_piexif_bytes_some (exif_bytes : pyval) (c : gps_coord) :
  snd (extract_gps_from_piexif_bytes exif_bytes) = Ok (Some c) ->
  exists ex, piexif_load exif_bytes = Ok ex /\ gps_of_piexif ex = Ok (Some c).
Proof.
  unfold extract_gps_from_piexif_bytes.
  destruct (have_piexif && truthy exif_bytes); cbn [negb]; [|discriminate].
  unfold io_call, io_lift, io_try. cbn [io_bind].
  destruct (piexif_load exif_bytes) as [ex|e]; [|discriminate].
  destruct (gps_of_piexif ex) as [r|e] eqn:E; cbn; [|discriminate].
  intros [= ->]. now exists ex.
Qed.

(** The three numbers under a GPS entry, as [dms_to_deg] takes and
    converts them. *)
Definition dms_stored (dms : pyval) (d m s : float) : Prop :=
  exists x0 x1 x2,
    py_getitem dms 0 = Ok x0 /\ py_getitem dms 1 = Ok x1 /\ py_getitem dms 2 = Ok x2
    /\ rational_to_float x0 = Some d /\ rational_to_float x1 = Some m
    /\ rational_to_float x2 = Some s.

(** The value [deg] that [dms_to_deg] makes of an entry is the signed
    sum of its three stored numbers, and it lies between the negated
    limit and the limit when these numbers are in range. *)
Definition range_kept (dms ref : pyval) (deg whole limit : float) : Prop :=
  dms_to_deg dms ref = Some deg
  /\ exists d m s,
       dms_stored dms d m s
       /\ deg = (if ref_in_S_W ref then - (d + m / 60 + s / 3600)
                 else d + m / 60 + s / 3600)%float
       /\ (stored_in_range whole limit d m s = true ->
           ((- limit <=? deg) && (deg <=? limit))%float = true).

Lemma dms_to_deg_some (dms ref : pyval) (deg : float) :
  dms_to_deg dms ref = Some deg ->
  exists d m s,
    dms_stored dms d m s
    /\ deg = (if ref_in_S_W ref then - (d + m / 60 + s / 3600)
              else d + m / 60 + s / 3600)%float.
Proof.
  unfold dms_to_deg, dms_to_deg_body, dms_stored.
  destruct (truthy dms); cbn [negb]; [|discriminate].
  destruct (py_len dms) as [n|]; cbn [exc_bind except_None]; [|discriminate].
  destruct (negb (n =? 3)); [discriminate|].
  destruct (py_getitem dms 0) as [x0|] eqn:G0; cbn [exc_bind except_None]; [|discriminate].
  destruct (py_getitem dms 1) as [x1|] eqn:G1; cbn [exc_bind except_None]; [|discriminate].
  destruct (py_getitem dms 2) as [x2|] eqn:G2; cbn [exc_bind except_None]; [|discriminate].
  destruct (rational_to_float x0) as [d|] eqn:R0; [|discriminate].
  destruct (rational_to_float x1) as [m|] eqn:R1; [|discriminate].
  destruct (rational_to_float x2) as [s|] eqn:R2; [|discriminate].
  unfold py_fdiv. change (PrimFloat.eqb 60 0) with false.
  change (PrimFloat.eqb 3600 0) with false. cbn [exc_bind except_None].
  intros [= <-]. exists d, m, s. split; [|reflexivity].
  exists x0, x1, x2. repeat split; assumption.
Qed.

Lemma latitude_kept (dms ref : pyval) (deg : float) :
  dms_to_deg dms ref = Some deg -> range_kept dms ref deg 89 90.
Proof.
  intros H. split; [exact H|].
  destruct (dms_to_deg_some dms ref deg H) as (d & m & s & Hs & ->).
  exists d, m, s. split; [exact Hs|]. split; [reflexivity|].
  intros Hr. destruct (latitude_in_range d m s Hr) as [H0 H1].
  exact (signed_between _ 90 (ref_in_S_W ref) 6333186975989760 (-46) eq_refl H0 H1).
Qed.

Lemma longitude_kept (dms ref : pyval) (deg : float) :
  dms_to_deg dms ref = Some deg -> range_kept dms ref deg 179 180.
Proof.
  intros H. split; [exact H|].
  destruct (dms_to_deg_some dms ref deg H) as (d & m & s & Hs & ->).
  exists d, m, s. split; [exact Hs|]. split; [reflexivity|].
  intros Hr. destruct (longitude_in_range d m s Hr) as [H0 H1].
  exact (signed_between _ 180 (ref_in_S_W ref) 6333186975989760 (-45) eq_refl H0 H1).
Qed.

(** C5, as the code has it.  A coordinate that an extractor returns
    carries the two values [dms_to_deg] computes from the latitude and
    longitude entries of the GPS block and their references: the signed
    sum of degrees, minutes over 60 and seconds over 3600.  The
    latitude lies between -90 and 90 and the longitude between -180 and
    180 whenever the three stored numbers are in range (up to 89, or
    179, degrees with up to 59 minutes and up to 60 seconds, or with up
    to 60 minutes and no seconds, or the full 90, or 180, degrees
    alone, none of them negative); the rounding of the float
    operations does not carry such a value over the limit.  Neither
    extractor compares a value with a bound, so stored numbers out of
    range are passed on as they are. *)
Theorem coordinates_are_dms_values :
  forall (exif_bytes : pyval) (exif : pydict) (lat lon : float) (alt : option float),
    (snd (extract_gps_from_piexif_bytes exif_bytes) = Ok (Some (lat, lon, alt)) ->
     exists (ex g : pydict) (latref lonref : pyval),
       piexif_load exif_bytes = Ok (VDict ex)
       /\ dict_get_default ex (VStr "GPS") (VDict []) = VDict g
       /\ decode_ascii_or_None
            (dict_get_default g (VInt GPSIFD.GPSLatitudeRef) (VBytes "")) = Ok latref
       /\ decode_ascii_or_None
            (dict_get_default g (VInt GPSIFD.GPSLongitudeRef) (VBytes "")) = Ok lonref
       /\ range_kept (dict_get_default g (VInt GPSIFD.GPSLatitude) VNone) latref lat 89 90
       /\ range_kept (dict_get_default g (VInt GPSIFD.GPSLongitude) VNone) lonref lon
                     179 180)
    /\ (extract_gps_from_pil_exif exif = Some (lat, lon, alt) ->
        exists (tag : pyval) (gps_ifd : pydict),
          dict_get TAGS (VStr "GPSInfo") = Some tag
          /\ dict_get exif tag = Some (VDict gps_ifd)
          /\ let gps := dict_comprehension (fun k _ => dict_get_default GPSTAGS k k)
                                           (fun _ v => v) gps_ifd in
             range_kept (get_str gps "GPSLatitude") (get_str gps "GPSLatitudeRef") lat 89 90
             /\ range_kept (get_str gps "GPSLongitude") (get_str gps "GPSLongitudeRef") lon
                           179 180).
Proof.
  intros exif_bytes exif lat lon alt. split.
  - intros H. apply extract_gps_from_piexif_bytes_some in H.
    destruct H as (ex & Hload & Hgps).
    apply gps_of_piexif_some in Hgps.
    destruct Hgps as (exd & g & latref & lonref & -> & Hg & H1 & H2 & H3 & H4 & _).
    exists exd, g, latref, lonref.
    repeat split; try assumption; [now apply latitude_kept | now apply longitude_kept].
  - unfold extract_gps_from_pil_exif.
    destruct exif as [|kv exif]; [discriminate|].
    destruct (dict_get TAGS (VStr "GPSInfo")) as [tag|]; [|discriminate].
    destruct (dict_get (kv :: exif) tag) as [[| | | | | | | |gps_ifd|]|] eqn:E;
      try discriminate.
    cbv zeta.
    destruct (dms_to_deg (get_str _ "GPSLatitude") _) as [lat'|] eqn:E1; [|discriminate].
    destruct (dms_to_deg (get_str _ "GPSLongitude") _) as [lon'|] eqn:E2; [|discriminate].
    intros [= <- <- _].
    exists tag, gps_ifd.
    repeat split; try assumption; [now apply latitude_kept | now apply longitude_kept].
Qed.

End Coordinates.


(** ** The metadata resolver *)

Section Resolver.
Context {R : Runtime}.

Lemma io_try_ret {A} (m : io A) (a : A) :
  exists t r, io_try m (fun _ => io_ret a) = (t, Ok r).
Proof.
  destruct m as [t [x|e]]; do 2 eexists; reflexivity.
Qed.

Lemma heif_exif_bytes_ok (p : path) (exif_bytes : pyval) :
  exists t b, heif_exif_bytes p exif_bytes = (t, Ok b).
Proof. apply io_try_ret. Qed.

Lemma raw_exif_bytes_ok (p : path) (im : image) :
  exists t b, raw_exif_bytes p im = (t, Ok b).
Proof.
  unfold raw_exif_bytes.
  destruct (im_info im) as [info|]; cbn [io_call io_ret io_bind].
  - destruct (negb (truthy (get_str info "exif")) && have_pillow_heif
              && str_in (lower (suffix p)) [".heic"; ".heif"]).
    + destruct (heif_exif_bytes_ok p (get_str info "exif")) as (t & b & ->). do 2 eexists; reflexivity.
    + do 2 eexists; reflexivity.
  - destruct (negb (truthy VNone) && have_pillow_heif
              && str_in (lower (suffix p)) [".heic"; ".heif"]).
    + destruct (heif_exif_bytes_ok p VNone) as (t & b & ->). do 2 eexists; reflexivity.
    + do 2 eexists; reflexivity.
Qed.

Lemma extract_gps_from_piexif_bytes_ok (exif_bytes : pyval) :
  exists t r, extract_gps_from_piexif_bytes exif_bytes = (t, Ok r).
Proof.
  unfold extract_gps_from_piexif_bytes.
  destruct (negb (have_piexif && truthy exif_bytes)); [do 2 eexists; reflexivity|].
  apply io_try_ret.
Qed.

Lemma get_exif_any_ok (p : path) : exists t d, get_exif_any p = (t, Ok d).
Proof. apply io_try_ret. Qed.

(** The resolver never raises: whatever goes wrong while the file is
    opened, decoded or parsed ends as "no coordinate". *)
Lemma resolve_gps_ok (p : path) : exists t gps, resolve_gps p = (t, Ok gps).
Proof.
  unfold resolve_gps.
  destruct (get_exif_any_ok p) as (t & d & ->). cbn [io_bind].
  destruct (if negb (dict_mem d RAW_EXIF_BYTES) then extract_gps_from_pil_exif d else None)
    as [c|]; [do 2 eexists; reflexivity|].
  destruct (dict_get d RAW_EXIF_BYTES) as [b|]; [|do 2 eexists; reflexivity].
  destruct (extract_gps_from_piexif_bytes_ok b) as (t' & r & ->). do 2 eexists; reflexivity.
Qed.

Lemma dict_mem_raw (b : pyval) :
  dict_mem [(RAW_EXIF_BYTES, b)] RAW_EXIF_BYTES = true
  /\ dict_get [(RAW_EXIF_BYTES, b)] RAW_EXIF_BYTES = Some b.
Proof. split; reflexivity. Qed.

(** What [im.info] gives for the key [exif]; [None] without the
    attribute or without the key. *)
Definition info_exif (im : image) : pyval :=
  match im_info im with
  | Some info => get_str info "exif"
  | None => VNone
  end.

(** A metadata block the loop stops at, and one it passes over. *)
Definition exif_block (md : pyval) : bool :=
  match md with
  | VDict d => py_eq (get_str d "type") (VStr "Exif") && truthy (get_str d "data")
  | _ => false
  end.

Definition other_block (md : pyval) : bool :=
  match md with
  | VDict d => negb (py_eq (get_str d "type") (VStr "Exif") && truthy (get_str d "data"))
  | _ => false
  end.

Lemma find_exif_block_passes (before rest : list pyval) :
  forallb other_block before = true ->
  find_exif_block (before ++ rest) = find_exif_block rest.
Proof.
  induction before as [|md before IH]; [reflexivity|].
  cbn [forallb]. intros H. apply andb_prop in H. destruct H as [Hmd H].
  destruct md; try discriminate. cbn [app find_exif_block as_dict exc_bind].
  unfold other_block in Hmd. apply negb_true_iff in Hmd. rewrite Hmd. now apply IH.
Qed.

Lemma heif_exif_bytes_blocks (p : path) (b : pyval) (h : heif_file) (blocks : list pyval) :
  open_heif (path_str p) = Ok h ->
  hf_metadata h = Ok (VList blocks) ->
  heif_exif_bytes p b
  = ([EvOpenHeif (path_str p)],
     Ok match find_exif_block blocks with
        | Ok (Some data) => data
        | _ => b
        end).
Proof.
  intros Ho Hm. unfold heif_exif_bytes, io_call, io_lift. rewrite Ho.
  cbn [io_bind io_try io_ret app]. rewrite Hm. cbn [io_bind io_try io_ret app].
  assert (E : py_iter (if truthy (VList blocks) then VList blocks else VList [])
              = Ok blocks).
  { destruct blocks; reflexivity. }
  rewrite E. cbn [io_bind io_try io_ret app].
  destruct (find_exif_block blocks) as [[data|]|e]; reflexivity.
Qed.

(** The outside calls made while the raw bytes are looked for:
    [im.info.get] when the image has the attribute, [open_heif] when
    the HEIF metadata is consulted. *)
Definition info_calls (im : image) : list event :=
  match im_info im with Some _ => [EvInfoExif] | None => [] end.

Definition heif_consulted (p : path) (im : image) : bool :=
  negb (truthy (info_exif im)) && have_pillow_heif
  && str_in (lower (suffix p)) [".heic"; ".heif"].

Definition blob_calls (p : path) (im : image) : list event :=
  (info_calls im ++ if heif_consulted p im then [EvOpenHeif (path_str p)] else [])%list.

(** The raw EXIF bytes a file offers: the bytes under [exif] in
    [im.info] when they are not empty; otherwise, for a [.heic] or
    [.heif] file with pillow-heif imported, the data of the first
    metadata block of type [Exif] with data. *)
Definition raw_bytes_of (p : path) (im : image) (b : pyval) : Prop :=
  (b = info_exif im /\ truthy b = true)
  \/ (heif_consulted p im = true
      /\ exists h before d after,
           open_heif (path_str p) = Ok h
           /\ hf_metadata h = Ok (VList (before ++ VDict d :: after))
           /\ forallb other_block before = true
           /\ exif_block (VDict d) = true
           /\ b = get_str d "data").

(** A file that offers none: nothing in [im.info], and the HEIF
    metadata is not consulted, or cannot be opened or read, or holds
    no block that fits. *)
Definition no_raw_bytes (p : path) (im : image) : Prop :=
  truthy (info_exif im) = false
  /\ (heif_consulted p im = false
      \/ (exists e, open_heif (path_str p) = Raise e)
      \/ (exists h e, open_heif (path_str p) = Ok h /\ hf_metadata h = Raise e)
      \/ (exists h blocks,
             open_heif (path_str p) = Ok h /\ hf_metadata h = Ok (VList blocks)
             /\ forallb other_block blocks = true)).

Lemma raw_exif_bytes_calls (p : path) (im : image) :
  raw_exif_bytes p im
  = if heif_consulted p im
    then ((info_calls im ++ fst (heif_exif_bytes p (info_exif im)))%list,
          snd (heif_exif_bytes p (info_exif im)))
    else (info_calls im, Ok (info_exif im)).
Proof.
  unfold raw_exif_bytes, heif_consulted, info_exif, info_calls.
  destruct (im_info im) as [info|]; cbn [io_call io_ret io_bind].
  - destruct (negb (truthy (get_str info "exif")) && have_pillow_heif
              && str_in (lower (suffix p)) [".heic"; ".heif"]); [|reflexivity].
    destruct (heif_exif_bytes p (get_str info "exif")) as [t r]. reflexivity.
  - destruct (negb (truthy VNone) && have_pillow_heif
              && str_in (lower (suffix p)) [".heic"; ".heif"]); [|reflexivity].
    destruct (heif_exif_bytes p VNone) as [t r]. reflexivity.
Qed.

Lemma raw_exif_bytes_found (p : path) (im : image) (b : pyval) :
  raw_bytes_of p im b ->
  raw_exif_bytes p im = (blob_calls p im, Ok b) /\ truthy b = true.
Proof.
  intros [[-> Hb]|(Hc & h & before & d & after & Ho & Hm & Hbefore & Hd & ->)].
  - rewrite raw_exif_bytes_calls. unfold blob_calls.
    assert (Hc : heif_consulted p im = false)
      by (unfold heif_consulted; now rewrite Hb).
    rewrite Hc, app_nil_r. now split.
  - rewrite raw_exif_bytes_calls. unfold blob_calls. rewrite Hc.
    rewrite (heif_exif_bytes_blocks p _ h _ Ho Hm), (find_exif_block_passes _ _ Hbefore).
    cbn [find_exif_block as_dict exc_bind fst snd]. cbn [exif_block] in Hd. rewrite Hd.
    split; [reflexivity|]. now apply andb_prop in Hd.
Qed.

Lemma raw_exif_bytes_none (p : path) (im : image) :
  no_raw_bytes p im ->
  raw_exif_bytes p im = (blob_calls p im, Ok (info_exif im)).
Proof.
  intros [Hi H]. rewrite raw_exif_bytes_calls. unfold blob_calls.
  destruct (heif_consulted p im) eqn:Hc; [|now rewrite app_nil_r].
  destruct H as [H|[(e & He)|[(h & e & Ho & Hm)|(h & blocks & Ho & Hm & Hb)]]];
    [discriminate| | |].
  - unfold heif_exif_bytes, io_call. now rewrite He.
  - unfold heif_exif_bytes, io_call, io_lift. rewrite Ho. cbn [io_bind io_try].
    now rewrite Hm.
  - rewrite (heif_exif_bytes_blocks p _ h _ Ho Hm).
    rewrite <- (app_nil_r blocks), (find_exif_block_passes _ _ Hb). reflexivity.
Qed.

(** The resolver on a file that opens and whose EXIF dictionary is
    read. *)
Lemma resolve_gps_opened (p : path) (im : image) (exif : pydict) :
  Image_open (path_str p) = Ok im ->
  im_getexif im = Ok exif ->
  dict_mem exif RAW_EXIF_BYTES = false ->
  resolve_gps p
  = (_ <- io_call (EvImageOpen (path_str p)) (Ok tt) ;;
     _ <- io_call EvGetExif (Ok tt) ;;
     match extract_gps_from_pil_exif exif with
     | Some c => io_ret (Some c)
     | None =>
         exif_bytes <- raw_exif_bytes p im ;;
         if truthy exif_bytes
         then extract_gps_from_piexif_bytes exif_bytes
         else io_ret None
     end)%io.
Proof.
  intros Hopen Hexif Hraw.
  unfold resolve_gps, get_exif_any. rewrite Hopen. unfold io_call at 1 3.
  cbn [io_bind]. rewrite Hexif. unfold io_call. cbn [io_bind].
  destruct (extract_gps_from_pil_exif exif) as [c|] eqn:Epil.
  - cbn. rewrite Hraw, Epil. cbn. reflexivity.
  - destruct (raw_exif_bytes_ok p im) as (t & b & ->). cbn [io_bind].
    destruct (truthy b) eqn:Eb.
    + cbn [io_ret io_try app]. rewrite !app_nil_r. cbn [io_bind].
      destruct (dict_mem_raw b) as [-> ->]. cbn [negb].
      destruct (extract_gps_from_piexif_bytes b) as [t' r].
      reflexivity.
    + cbn [io_ret io_try app]. rewrite !app_nil_r. cbn [io_bind].
      rewrite Hraw, Epil. cbn [negb].
      destruct (dict_get exif RAW_EXIF_BYTES) eqn:Eg.
      { unfold dict_mem in Hraw. rewrite Eg in Hraw. discriminate. }
      cbn. now rewrite !app_nil_r.
Qed.

Lemma resolve_gps_raw (p : path) (im : image) (exif : pydict) (b : pyval) :
  Image_open (path_str p) = Ok im ->
  im_getexif im = Ok exif ->
  dict_mem exif RAW_EXIF_BYTES = false ->
  extract_gps_from_pil_exif exif = None ->
  raw_bytes_of p im b ->
  resolve_gps p
  = (([EvImageOpen (path_str p); EvGetExif] ++ blob_calls p im
      ++ fst (extract_gps_from_piexif_bytes b))%list,
     snd (extract_gps_from_piexif_bytes b)).
Proof.
  intros Hopen Hexif Hraw Hpil Hb.
  rewrite (resolve_gps_opened p im exif Hopen Hexif Hraw), Hpil.
  destruct (raw_exif_bytes_found p im b Hb) as [-> Ht].
  cbn [io_bind io_call app]. rewrite Ht.
  destruct (extract_gps_from_piexif_bytes b) as [t r]. reflexivity.
Qed.

Lemma resolve_gps_no_raw (p : path) (im : image) (exif : pydict) :
  Image_open (path_str p) = Ok im ->
  im_getexif im = Ok exif ->
  dict_mem exif RAW_EXIF_BYTES = false ->
  extract_gps_from_pil_exif exif = None ->
  no_raw_bytes p im ->
  resolve_gps p
  = (([EvImageOpen (path_str p); EvGetExif] ++ blob_calls p im)%list, Ok None).
Proof.
  intros Hopen Hexif Hraw Hpil Hn.
  rewrite (resolve_gps_opened p im exif Hopen Hexif Hraw), Hpil.
  rewrite (raw_exif_bytes_none p im Hn). destruct Hn as [Hi _].
  cbn [io_bind io_call app]. rewrite Hi. cbn. now rewrite app_nil_r.
Qed.

(** The placemark [main] appends for a coordinate. *)
Definition placemark_of (f : walked_file) (c : gps_coord) (desc : string) : placemark :=
  {| pm_name := path_name (wf_path f);
     pm_lat := fst (fst c); pm_lon := snd (fst c); pm_alt := snd c;
     pm_desc := desc |}.

(** What the loop of [main] does with a file whose coordinate was
    found: one placemark more, one file more with a coordinate. *)
Lemma scan_file_found (st : scan) (f : walked_file) (t : list event)
      (c : gps_coord) (desc : string) :
  str_in (lower (suffix (wf_path f))) IMG_EXTS = true ->
  resolve_gps (wf_path f) = (t, Ok (Some c)) ->
  wf_relative f = Ok desc ->
  scan_file st f
  = {| placemarks := (placemarks st ++ [placemark_of f c desc])%list;
       total := total st + 1; with_gps := with_gps st + 1; skipped := skipped st;
       warnings := warnings st; calls := (calls st ++ t)%list |}.
Proof.
  intros Hext Hres Hrel. unfold scan_file. rewrite Hext. cbn [negb].
  unfold try_file. rewrite Hres. cbn [io_bind]. destruct c as [[lat lon] alt].
  rewrite Hrel. cbn. now rewrite app_nil_r.
Qed.

(** C2, as the code has it.  For a file that opens and whose EXIF
    dictionary is read (and holds no key named like the marker of raw
    bytes): when the tag-dictionary extractor finds a coordinate, that
    coordinate is the result, the only outside calls are [Image.open]
    and [getexif], and the file becomes a placemark.  Otherwise, when
    the file offers raw bytes, in [im.info] or else in the first
    fitting block of its HEIF metadata, the result is what the
    raw-bytes extractor makes of these bytes: nothing without piexif,
    and with piexif the coordinate of the GPS block that [piexif.load]
    returns, in which case the file becomes a placemark.  When the file
    offers no raw bytes the result is no coordinate and piexif is not
    called. *)
Theorem resolve_gps_spec :
  forall (f : walked_file) (im : image) (exif : pydict),
    let p := wf_path f in
    let opened := [EvImageOpen (path_str p); EvGetExif] in
    Image_open (path_str p) = Ok im ->
    im_getexif im = Ok exif ->
    dict_mem exif RAW_EXIF_BYTES = false ->
    (forall c, extract_gps_from_pil_exif exif = Some c ->
       resolve_gps p = (opened, Ok (Some c))
       /\ (forall st desc,
              str_in (lower (suffix p)) IMG_EXTS = true ->
              wf_relative f = Ok desc ->
              placemarks (scan_file st f) = (placemarks st ++ [placemark_of f c desc])%list))
    /\ (forall b, extract_gps_from_pil_exif exif = None -> raw_bytes_of p im b ->
          resolve_gps p
          = ((opened ++ blob_calls p im ++ fst (extract_gps_from_piexif_bytes b))%list,
             snd (extract_gps_from_piexif_bytes b))
          /\ (have_piexif = false ->
              resolve_gps p = ((opened ++ blob_calls p im)%list, Ok None)
              /\ forall st, placemarks (scan_file st f) = placemarks st)
          /\ (forall ex c,
                have_piexif = true -> piexif_load b = Ok ex ->
                gps_of_piexif ex = Ok (Some c) ->
                resolve_gps p
                = ((opened ++ blob_calls p im ++ [EvPiexifLoad b])%list, Ok (Some c))
                /\ (forall st desc,
                      str_in (lower (suffix p)) IMG_EXTS = true ->
                      wf_relative f = Ok desc ->
                      placemarks (scan_file st f)
                      = (placemarks st ++ [placemark_of f c desc])%list
                      /\ with_gps (scan_file st f) = with_gps st + 1)))
    /\ (extract_gps_from_pil_exif exif = None -> no_raw_bytes p im ->
        resolve_gps p = ((opened ++ blob_calls p im)%list, Ok None)).
Proof.
  intros f im exif p opened Hopen Hexif Hraw.
  pose proof (resolve_gps_opened p im exif Hopen Hexif Hraw) as Heq.
  split; [|split].
  - intros c Hc. rewrite Hc in Heq. cbn in Heq. split; [exact Heq|].
    intros st desc Hext Hrel.
    now rewrite (scan_file_found st f _ c desc Hext Heq Hrel).
  - intros b Hpil Hb.
    destruct (raw_exif_bytes_found p im b Hb) as [_ Ht].
    pose proof (resolve_gps_raw p im exif b Hopen Hexif Hraw Hpil Hb) as Hres.
    split; [exact Hres|]. split.
    + intros Hp.
      assert (E : extract_gps_from_piexif_bytes b = ([], Ok None))
        by (unfold extract_gps_from_piexif_bytes; now rewrite Hp).
      rewrite E in Hres. cbn [fst snd] in Hres. rewrite app_nil_r in Hres.
      split; [exact Hres|]. intros st. unfold scan_file.
      destruct (negb _); [reflexivity|]. unfold try_file. fold p. rewrite Hres.
      reflexivity.
    + intros ex c Hp Hload Hgps.
      assert (E : extract_gps_from_piexif_bytes b = ([EvPiexifLoad b], Ok (Some c))).
      { unfold extract_gps_from_piexif_bytes. rewrite Hp, Ht. cbn [andb negb].
        unfold io_call, io_lift. rewrite Hload. cbn [io_bind io_try]. rewrite Hgps.
        reflexivity. }
      rewrite E in Hres. cbn [fst snd] in Hres. split; [exact Hres|].
      intros st desc Hext Hrel.
      now rewrite (scan_file_found st f _ c desc Hext Hres Hrel).
  - intros Hpil Hn. exact (resolve_gps_no_raw p im exif Hopen Hexif Hraw Hpil Hn).
Qed.

End Resolver.

(** ** The scan *)

Definition is_write (ev : event) : bool :=
  match ev with
  | EvWriteText _ _ => true
  | _ => false
  end.

(** No call to [write_text] among the calls of a computation. *)
Definition no_write {A} (m : io A) : Prop := existsb is_write (fst m) = false.

Lemma no_write_bind {A B} (m : io A) (k : A -> io B) :
  no_write m -> (forall a, no_write (k a)) -> no_write (io_bind m k).
Proof.
  unfold no_write. destruct m as [t [a|e]]; cbn; intros Hm Hk; [|exact Hm].
  specialize (Hk a). destruct (k a) as [t' r]. cbn in *.
  now rewrite existsb_app, Hm, Hk.
Qed.

Lemma no_write_try {A} (m : io A) (h : exn -> io A) :
  no_write m -> (forall e, no_write (h e)) -> no_write (io_try m h).
Proof.
  unfold no_write. destruct m as [t [a|e]]; cbn; intros Hm Hh; [exact Hm|].
  specialize (Hh e). destruct (h e) as [t' r]. cbn in *.
  now rewrite existsb_app, Hm, Hh.
Qed.

Lemma no_write_ret {A} (a : A) : no_write (io_ret a).
Proof. reflexivity. Qed.

Lemma no_write_lift {A} (r : exc A) : no_write (io_lift r).
Proof. reflexivity. Qed.

Lemma no_write_call {A} (ev : event) (r : exc A) :
  is_write ev = false -> no_write (io_call ev r).
Proof. unfold no_write. cbn. now intros ->. Qed.

Ltac no_write_step :=
  first [ apply no_write_bind; [|intros ?]
        | apply no_write_try; [|intros ?]
        | apply no_write_ret
        | apply no_write_lift
        | apply no_write_call; reflexivity ].

Section Scan.
Context {R : Runtime}.

Lemma no_write_piexif (exif_bytes : pyval) :
  no_write (extract_gps_from_piexif_bytes exif_bytes).
Proof.
  unfold extract_gps_from_piexif_bytes.
  destruct (negb (have_piexif && truthy exif_bytes)); repeat no_write_step.
Qed.

Lemma no_write_heif (p : path) (b : pyval) : no_write (heif_exif_bytes p b).
Proof. unfold heif_exif_bytes. repeat no_write_step. Qed.

Lemma no_write_raw (p : path) (im : image) : no_write (raw_exif_bytes p im).
Proof.
  unfold raw_exif_bytes. apply no_write_bind.
  - destruct (im_info im); [apply no_write_call; reflexivity | apply no_write_ret].
  - intros b. destruct (_ && _); [apply no_write_heif | apply no_write_ret].
Qed.

Lemma no_write_get_exif_any (p : path) : no_write (get_exif_any p).
Proof.
  unfold get_exif_any.
  apply no_write_try; [|intros; apply no_write_ret].
  apply no_write_bind; [apply no_write_call; reflexivity | intros im].
  apply no_write_bind; [apply no_write_call; reflexivity | intros exif].
  destruct (extract_gps_from_pil_exif exif); [apply no_write_ret|].
  apply no_write_bind; [apply no_write_raw | intros b].
  destruct (truthy b); apply no_write_ret.
Qed.

Lemma no_write_resolve (p : path) : no_write (resolve_gps p).
Proof.
  unfold resolve_gps. apply no_write_bind; [apply no_write_get_exif_any | intros d].
  destruct (if negb _ then _ else _); [apply no_write_ret|].
  destruct (dict_get _ _); [apply no_write_piexif | apply no_write_ret].
Qed.

Lemma no_write_try_file (f : walked_file) : no_write (try_file f).
Proof.
  unfold try_file. apply no_write_bind; [apply no_write_resolve | intros gps].
  destruct gps as [[[lat lon] alt]|]; [|apply no_write_ret].
  apply no_write_bind; [apply no_write_lift | intros desc; apply no_write_ret].
Qed.

(** Is the extension of the file one of [IMG_EXTS]? *)
Definition recognized (f : walked_file) : bool :=
  str_in (lower (suffix (wf_path f))) IMG_EXTS.

Lemma scan_file_calls (st : scan) (f : walked_file) :
  existsb is_write (calls st) = false ->
  existsb is_write (calls (scan_file st f)) = false.
Proof.
  intros H. unfold scan_file. destruct (negb _); [exact H|].
  pose proof (no_write_try_file f) as Hf. unfold no_write in Hf.
  destruct (try_file f) as [t [[pm|]|e]]; cbn in *; now rewrite existsb_app, H, Hf.
Qed.

Lemma fold_scan_calls (files : list walked_file) (st : scan) :
  existsb is_write (calls st) = false ->
  existsb is_write (calls (fold_left scan_file files st)) = false.
Proof.
  revert st. induction files as [|f files IH]; intros st H; [exact H|].
  cbn [fold_left]. apply IH. now apply scan_file_calls.
Qed.

(** C8. When the scan of an existing folder ends without a placemark,
    [main] returns 4, prints nothing to the output stream (no [Wrote KML]
    line), prints after the warnings of the scan the notice and the
    summary of the three counters to the error stream, and makes no call
    to [write_text]: no file is written.  The counters may well be
    positive. *)
Theorem main_no_placemarks :
  forall args : cli_args,
    folder_is_dir args = true ->
    placemarks (scan_files (walk args)) = [] ->
    let st := scan_files (walk args) in
    exit_code (main args) = 4
    /\ stdout (main args) = []
    /\ stderr (main args)
       = (warnings st
          ++ ["No geotagged images found. No KML written.";
              ("Scanned " ++ int_str (total st) ++ " images; "
               ++ int_str (with_gps st) ++ " with GPS; "
               ++ int_str (skipped st) ++ " skipped.")%string])%list
    /\ run_calls (main args) = calls st
    /\ existsb is_write (run_calls (main args)) = false.
Proof.
  intros args Hdir Hpm st. subst st. unfold main. rewrite Hdir. cbn [negb].
  cbv zeta. rewrite Hpm. cbn [exit_code stdout stderr run_calls].
  repeat split. apply fold_scan_calls. reflexivity.
Qed.

End Scan.

(** ** Counters and failures of the scan *)

Section Counters.
Context {R : Runtime}.

(** What the three counters and the placemarks satisfy at every point
    of the walk. *)
Definition counters_agree (st : scan) : Prop :=
  total st = with_gps st + skipped st
  /\ with_gps st = Z.of_nat (List.length (placemarks st)).

Lemma scan_file_other (st : scan) (f : walked_file) :
  recognized f = false -> scan_file st f = st.
Proof. unfold recognized, scan_file. now intros ->. Qed.

(** A file with a recognized extension adds one to [total] and either
    one to [with_gps], with one more placemark, or one to [skipped]. *)
Lemma scan_file_counts (st : scan) (f : walked_file) :
  recognized f = true ->
  total (scan_file st f) = total st + 1
  /\ ((with_gps (scan_file st f) = with_gps st + 1
       /\ skipped (scan_file st f) = skipped st
       /\ exists pm, placemarks (scan_file st f) = (placemarks st ++ [pm])%list)
      \/ (with_gps (scan_file st f) = with_gps st
          /\ skipped (scan_file st f) = skipped st + 1
          /\ placemarks (scan_file st f) = placemarks st)).
Proof.
  unfold recognized, scan_file. intros ->. cbn [negb].
  destruct (try_file f) as [t [[pm|]|e]]; cbn; split; try reflexivity.
  - left. repeat split. now exists pm.
  - right. repeat split.
  - right. repeat split.
Qed.

Lemma scan_file_agree (st : scan) (f : walked_file) :
  counters_agree st -> counters_agree (scan_file st f).
Proof.
  intros [H1 H2]. destruct (recognized f) eqn:E.
  - destruct (scan_file_counts st f E) as [Ht [(Hg & Hs & pm & Hp)|(Hg & Hs & Hp)]];
      unfold counters_agree; rewrite Ht, Hg, Hs, Hp.
    + rewrite length_app. cbn [List.length]. lia.
    + lia.
  - now rewrite scan_file_other.
Qed.

Lemma fold_scan_agree (files : list walked_file) (st : scan) :
  counters_agree st -> counters_agree (fold_left scan_file files st).
Proof.
  revert st. induction files as [|f files IH]; intros st H; [exact H|].
  cbn [fold_left]. apply IH. now apply scan_file_agree.
Qed.

Lemma fold_scan_total (files : list walked_file) (st : scan) :
  total (fold_left scan_file files st)
  = total st + Z.of_nat (List.length (filter recognized files)).
Proof.
  revert st. induction files as [|f files IH]; intros st; [cbn; lia|].
  cbn [fold_left filter]. rewrite IH. destruct (recognized f) eqn:E.
  - destruct (scan_file_counts st f E) as [-> _]. cbn [List.length]. lia.
  - now rewrite scan_file_other.
Qed.

(** C10. After any number of files of the walk, hence throughout the
    scan and at its end, [total = with_gps + skipped] and [with_gps] is
    the number of placemarks; [total] is the number of files met so far
    whose extension is recognized.  A file with another extension
    changes nothing; a recognized one adds one to [total] and one to
    exactly one of [with_gps] and [skipped]. *)
Theorem counters_invariant :
  forall (files : list walked_file) (n : nat),
    let st := scan_files (firstn n files) in
    total st = with_gps st + skipped st
    /\ with_gps st = Z.of_nat (List.length (placemarks st))
    /\ total st = Z.of_nat (List.length (filter recognized (firstn n files)))
    /\ scan_files files = fold_left scan_file (skipn n files) st
    /\ (forall (s : scan) (f : walked_file),
          (recognized f = false -> scan_file s f = s)
          /\ (recognized f = true ->
              total (scan_file s f) = total s + 1
              /\ ((with_gps (scan_file s f) = with_gps s + 1
                   /\ skipped (scan_file s f) = skipped s)
                  \/ (with_gps (scan_file s f) = with_gps s
                      /\ skipped (scan_file s f) = skipped s + 1)))).
Proof.
  intros files n st.
  assert (H : counters_agree st) by (apply fold_scan_agree; split; reflexivity).
  destruct H as [H1 H2].
  split; [exact H1|]. split; [exact H2|].
  split; [subst st; unfold scan_files; now rewrite fold_scan_total|].
  split.
  { subst st. unfold scan_files. rewrite <- fold_left_app.
    now rewrite firstn_skipn. }
  intros s f. split; [apply scan_file_other|].
  intros E. destruct (scan_file_counts s f E) as [Ht [(Hg & Hs & _)|(Hg & Hs & _)]];
    split; auto.
Qed.

(** The placemarks a list of files adds do not depend on what was
    scanned before. *)
Lemma scan_file_placemarks (st : scan) (f : walked_file) :
  placemarks (scan_file st f)
  = (placemarks st ++ placemarks (scan_file scan_start f))%list.
Proof.
  unfold scan_file. destruct (negb _); [cbn; now rewrite app_nil_r|].
  destruct (try_file f) as [t [[pm|]|e]]; cbn; now rewrite ?app_nil_r.
Qed.

Lemma fold_scan_placemarks (files : list walked_file) (st : scan) :
  placemarks (fold_left scan_file files st)
  = (placemarks st ++ placemarks (scan_files files))%list.
Proof.
  revert st. induction files as [|f files IH]; intros st.
  - cbn. now rewrite app_nil_r.
  - unfold scan_files. cbn [fold_left]. rewrite !IH.
    rewrite (scan_file_placemarks st f), app_assoc. reflexivity.
Qed.

(** What [scan_file] leaves when the file counts as skipped. *)
Definition skip (st : scan) (t : list event) (warning : list string) : scan :=
  {| placemarks := placemarks st; total := total st + 1;
     with_gps := with_gps st; skipped := skipped st + 1;
     warnings := (warnings st ++ warning)%list;
     calls := (calls st ++ t)%list |}.

(** An exception inside the conversion of a GPS block is swallowed
    where it is raised.  The block [g] has [bytes] references. *)
Lemma gps_of_piexif_swallows (ex g : pydict) (latref lonref : string) :
  dict_get ex (VStr "GPS") = Some (VDict g) ->
  g <> [] ->
  dict_get_default g (VInt GPSIFD.GPSLatitudeRef) (VBytes "") = VBytes latref ->
  dict_get_default g (VInt GPSIFD.GPSLongitudeRef) (VBytes "") = VBytes lonref ->
  let lat := dms_to_deg (dict_get_default g (VInt GPSIFD.GPSLatitude) VNone)
                        (if String.eqb (filter_ascii latref) "" then VNone
                         else VStr (filter_ascii latref)) in
  let lon := dms_to_deg (dict_get_default g (VInt GPSIFD.GPSLongitude) VNone)
                        (if String.eqb (filter_ascii lonref) "" then VNone
                         else VStr (filter_ascii lonref)) in
  (lat = None \/ lon = None -> gps_of_piexif (VDict ex) = Ok None)
  /\ (forall la lo v, lat = Some la -> lon = Some lo ->
        dict_get g (VInt GPSIFD.GPSAltitude) = Some v ->
        rational_to_float v = None ->
        gps_of_piexif (VDict ex) = Ok (Some (la, lo, None))).
Proof.
  intros Hg Hne Hlat Hlon lat lon. subst lat lon. unfold gps_of_piexif.
  assert (Hd : dict_get_default ex (VStr "GPS") (VDict []) = VDict g)
    by (unfold dict_get_default; now rewrite Hg).
  assert (Ht : truthy (VDict g) = true) by (destruct g; [contradiction | reflexivity]).
  cbn [as_dict exc_bind]. rewrite !Hd, Ht. cbn [negb as_dict exc_bind].
  rewrite Hlat, Hlon. cbn [decode_ascii_or_None exc_bind].
  split.
  - intros [E|E]; rewrite E; [reflexivity|].
    now destruct (dms_to_deg (dict_get_default g (VInt GPSIFD.GPSLatitude) VNone) _).
  - intros la lo v E1 E2 Hv Ha. now rewrite E1, E2, Hv, Ha.
Qed.

(** C9, as the code has it.  For a file with a recognized extension
    the resolver never raises, because every exception of the metadata
    extraction is caught where it occurs, and none of them prints a
    warning:
    - [Image.open] or [getexif] raising: the file is skipped;
    - the HEIF metadata not opening or not readable: the file offers no
      raw bytes in that place, and without raw bytes it is skipped;
    - [piexif.load] raising, or the reading of the GPS block raising:
      the file is skipped;
    - a latitude or longitude that does not convert ([dms_to_deg] and
      [rational_to_float] turn their own exceptions into [None]): no
      coordinate, the file is skipped;
    - an altitude that does not convert: the coordinate is kept
      without altitude, and the file is not skipped.
    The only exception that reaches the loop of [main] comes from
    building the placemark (the relative path) after a coordinate was
    found; then the file is skipped with one warning made of its path
    and the message.  In every case the walk goes on with the next file
    from the state this file leaves, and the placemarks of the files
    around it are all produced. *)
Theorem scan_file_failures :
  forall (st : scan) (f : walked_file) (before after : list walked_file),
    recognized f = true ->
    let p := path_str (wf_path f) in
    (exists t gps, resolve_gps (wf_path f) = (t, Ok gps))
    /\ (forall e, Image_open p = Raise e ->
                  scan_file st f = skip st [EvImageOpen p] [])
    /\ (forall im e, Image_open p = Ok im -> im_getexif im = Raise e ->
                     scan_file st f = skip st [EvImageOpen p; EvGetExif] [])
    /\ (forall im exif,
          Image_open p = Ok im -> im_getexif im = Ok exif ->
          dict_mem exif RAW_EXIF_BYTES = false ->
          extract_gps_from_pil_exif exif = None ->
          let looked := ([EvImageOpen p; EvGetExif] ++ blob_calls (wf_path f) im)%list in
          (no_raw_bytes (wf_path f) im -> scan_file st f = skip st looked [])
          /\ (forall b, raw_bytes_of (wf_path f) im b -> have_piexif = true ->
                let parsed := (looked ++ [EvPiexifLoad b])%list in
                (forall e, piexif_load b = Raise e -> scan_file st f = skip st parsed [])
                /\ (forall ex e, piexif_load b = Ok ex -> gps_of_piexif ex = Raise e ->
                                 scan_file st f = skip st parsed [])
                /\ (forall ex, piexif_load b = Ok ex -> gps_of_piexif ex = Ok None ->
                               scan_file st f = skip st parsed [])
                /\ (forall ex c e,
                      piexif_load b = Ok ex -> gps_of_piexif ex = Ok (Some c) ->
                      wf_relative f = Raise e ->
                      scan_file st f
                      = skip st parsed [("[WARN] " ++ p ++ ": " ++ exn_msg e)%string])
                /\ (forall ex c desc,
                      piexif_load b = Ok ex -> gps_of_piexif ex = Ok (Some c) ->
                      wf_relative f = Ok desc ->
                      skipped (scan_file st f) = skipped st
                      /\ warnings (scan_file st f) = warnings st
                      /\ placemarks (scan_file st f)
                         = (placemarks st ++ [placemark_of f c desc])%list)))
    /\ (forall x e, rational_to_float_body x = Raise e -> rational_to_float x = None)
    /\ (forall dms ref e, dms_to_deg_body dms ref = Raise e -> dms_to_deg dms ref = None)
    /\ (forall (ex g : pydict) (latref lonref : string),
          dict_get ex (VStr "GPS") = Some (VDict g) -> g <> [] ->
          dict_get_default g (VInt GPSIFD.GPSLatitudeRef) (VBytes "") = VBytes latref ->
          dict_get_default g (VInt GPSIFD.GPSLongitudeRef) (VBytes "") = VBytes lonref ->
          let lat := dms_to_deg (dict_get_default g (VInt GPSIFD.GPSLatitude) VNone)
                                (if String.eqb (filter_ascii latref) "" then VNone
                                 else VStr (filter_ascii latref)) in
          let lon := dms_to_deg (dict_get_default g (VInt GPSIFD.GPSLongitude) VNone)
                                (if String.eqb (filter_ascii lonref) "" then VNone
                                 else VStr (filter_ascii lonref)) in
          (lat = None \/ lon = None -> gps_of_piexif (VDict ex) = Ok None)
          /\ (forall la lo v, lat = Some la -> lon = Some lo ->
                dict_get g (VInt GPSIFD.GPSAltitude) = Some v ->
                rational_to_float v = None ->
                gps_of_piexif (VDict ex) = Ok (Some (la, lo, None))))
    /\ (forall t e, try_file f = (t, Raise e) ->
                    wf_relative f = Raise e
                    /\ scan_file st f
                       = skip st t [("[WARN] " ++ p ++ ": " ++ exn_msg e)%string])
    /\ (forall t r, try_file f = (t, Ok r) -> warnings (scan_file st f) = warnings st)
    /\ scan_files (before ++ f :: after)
       = fold_left scan_file after (scan_file (scan_files before) f)
    /\ placemarks (scan_files (before ++ f :: after))
       = (placemarks (scan_files before) ++ placemarks (scan_files [f])
          ++ placemarks (scan_files after))%list.
Proof.
  intros st f before after Hrec p.
  assert (Hskip : forall t, resolve_gps (wf_path f) = (t, Ok None) ->
                            scan_file st f = skip st t []).
  { intros t Hres. unfold scan_file. fold (recognized f). rewrite Hrec. cbn [negb].
    unfold try_file. rewrite Hres. cbn [io_bind io_ret]. unfold skip.
    now rewrite !app_nil_r. }
  split; [apply resolve_gps_ok|].
  split.
  { intros e He. apply Hskip. unfold resolve_gps, get_exif_any. fold p. now rewrite He. }
  split.
  { intros im e Him He. apply Hskip. unfold resolve_gps, get_exif_any. fold p.
    rewrite Him. unfold io_call at 1. cbn [io_bind]. now rewrite He. }
  split.
  { intros im exif Him Hexif Hraw Hpil looked.
    split.
    { intros Hn. apply Hskip.
      exact (resolve_gps_no_raw (wf_path f) im exif Him Hexif Hraw Hpil Hn). }
    intros b Hb Hp parsed.
    pose proof (resolve_gps_raw (wf_path f) im exif b Him Hexif Hraw Hpil Hb) as Hres.
    destruct (raw_exif_bytes_found (wf_path f) im b Hb) as [_ Ht].
    assert (Hext : extract_gps_from_piexif_bytes b
                   = io_try (io_bind (io_call (EvPiexifLoad b) (piexif_load b))
                                     (fun ex => io_lift (gps_of_piexif ex)))
                            (fun _ => io_ret None)).
    { unfold extract_gps_from_piexif_bytes. now rewrite Hp, Ht. }
    assert (Hcase : forall r, extract_gps_from_piexif_bytes b = ([EvPiexifLoad b], Ok r) ->
                              resolve_gps (wf_path f) = (parsed, Ok r)).
    { intros r E. rewrite Hres, E. cbn [fst snd]. unfold parsed, looked, p.
      now rewrite <- app_assoc. }
    unfold io_call, io_lift in Hext.
    split.
    { intros e He. apply Hskip, Hcase. rewrite Hext, He. reflexivity. }
    split.
    { intros ex e He Hg. apply Hskip, Hcase. rewrite Hext, He. cbn [io_bind io_try].
      rewrite Hg. reflexivity. }
    split.
    { intros ex He Hg. apply Hskip, Hcase. rewrite Hext, He. cbn [io_bind io_try].
      rewrite Hg. reflexivity. }
    assert (Hsome : forall ex c, piexif_load b = Ok ex -> gps_of_piexif ex = Ok (Some c) ->
                                 resolve_gps (wf_path f) = (parsed, Ok (Some c))).
    { intros ex c He Hg. apply Hcase. rewrite Hext, He. cbn [io_bind io_try].
      rewrite Hg. reflexivity. }
    split.
    { intros ex c e He Hg Hrel. unfold scan_file. fold (recognized f). rewrite Hrec.
      cbn [negb]. unfold try_file. rewrite (Hsome ex c He Hg). cbn [io_bind].
      destruct c as [[lat lon] alt]. rewrite Hrel. cbn. unfold skip.
      now rewrite !app_nil_r. }
    intros ex c desc He Hg Hrel.
    rewrite (scan_file_found st f parsed c desc Hrec (Hsome ex c He Hg) Hrel).
    repeat split. }
  split.
  { intros x e H. unfold rational_to_float. now rewrite H. }
  split.
  { intros dms ref e H. unfold dms_to_deg. now rewrite H. }
  split.
  { intros ex g latref lonref Hg Hne H1 H2. exact (gps_of_piexif_swallows ex g latref lonref Hg Hne H1 H2). }
  split.
  { intros t e Htry. split.
    - unfold try_file in Htry.
      destruct (resolve_gps_ok (wf_path f)) as (t0 & gps & E). rewrite E in Htry.
      cbn [io_bind] in Htry. destruct gps as [[[lat lon] alt]|]; [|discriminate].
      destruct (wf_relative f) as [desc|e'] eqn:Er; cbn in Htry; [discriminate|].
      now injection Htry as _ ->.
    - unfold scan_file. fold (recognized f). rewrite Hrec. cbn [negb].
      now rewrite Htry. }
  split.
  { intros t r Htry. unfold scan_file. fold (recognized f). rewrite Hrec. cbn [negb].
    rewrite Htry. now destruct r. }
  split.
  { unfold scan_files. now rewrite fold_left_app. }
  unfold scan_files. rewrite fold_left_app. cbn [fold_left].
  rewrite fold_scan_placemarks.
  rewrite (scan_file_placemarks (fold_left scan_file before scan_start) f).
  now rewrite app_assoc.
Qed.

End Counters.

(** * Further properties *)

(** ** Hemispheres and encodings of a rational *)

Lemma float_opp_involutive (f : float) : (- - f)%float = f.
Proof.
  apply Prim2SF_inj. rewrite !opp_spec.
  destruct (Prim2SF f) as [s|s| |s m e]; cbn; now rewrite ?negb_involutive.
Qed.

Section Hemispheres.
Context {R : Runtime}.

(** The reference only decides the sign of the value the components
    give. *)
Lemma dms_to_deg_sign (dms ref : pyval) :
  dms_to_deg dms ref
  = option_map (fun deg => if ref_in_S_W ref then (- deg)%float else deg)
               (dms_to_deg dms VNone).
Proof.
  unfold dms_to_deg, dms_to_deg_body.
  destruct (truthy dms); cbn [negb]; [|reflexivity].
  destruct (py_len dms) as [n|]; cbn [exc_bind except_None]; [|reflexivity].
  destruct (negb (n =? 3)); [reflexivity|].
  destruct (py_getitem dms 0) as [x0|]; cbn [exc_bind except_None]; [|reflexivity].
  destruct (py_getitem dms 1) as [x1|]; cbn [exc_bind except_None]; [|reflexivity].
  destruct (py_getitem dms 2) as [x2|]; cbn [exc_bind except_None]; [|reflexivity].
  destruct (rational_to_float x0), (rational_to_float x1), (rational_to_float x2);
    try reflexivity.
Qed.

(** Whatever value stands for the DMS triple, the southern and western
    results are the negated northern and eastern ones, negating twice
    gives the value back, and whether a value comes out at all does not
    depend on the reference. *)
Theorem dms_to_deg_hemispheres :
  forall (dms ref : pyval),
    dms_to_deg dms (VStr "S") = option_map PrimFloat.opp (dms_to_deg dms (VStr "N"))
    /\ dms_to_deg dms (VStr "W") = option_map PrimFloat.opp (dms_to_deg dms (VStr "E"))
    /\ dms_to_deg dms (VStr "N") = dms_to_deg dms VNone
    /\ dms_to_deg dms (VStr "E") = dms_to_deg dms VNone
    /\ option_map PrimFloat.opp (dms_to_deg dms (VStr "S")) = dms_to_deg dms (VStr "N")
    /\ (dms_to_deg dms ref = None <-> dms_to_deg dms VNone = None)
    /\ (dms_to_deg dms ref = dms_to_deg dms VNone
        \/ dms_to_deg dms ref = dms_to_deg dms (VStr "S")).
Proof.
  intros dms ref.
  rewrite (dms_to_deg_sign dms (VStr "S")), (dms_to_deg_sign dms (VStr "W")),
          (dms_to_deg_sign dms (VStr "N")), (dms_to_deg_sign dms (VStr "E")),
          (dms_to_deg_sign dms ref).
  change (ref_in_S_W (VStr "S")) with true. change (ref_in_S_W (VStr "W")) with true.
  change (ref_in_S_W (VStr "N")) with false. change (ref_in_S_W (VStr "E")) with false.
  destruct (dms_to_deg dms VNone) as [deg|]; cbn [option_map].
  - repeat split; try reflexivity; try discriminate.
    + now rewrite float_opp_involutive.
    + destruct (ref_in_S_W ref); [now right | now left].
  - repeat split; try reflexivity. now left.
Qed.

(** Is the integer below [2^53] in magnitude, as every 32-bit
    component of an EXIF rational is? *)
Definition small (z : Z) : Prop := - 2 ^ 53 < z < 2 ^ 53.

Lemma rational_converts (n d : Z) :
  small n -> small d ->
  exists f, rational_to_float (VTuple [VInt n; VInt d]) = Some f
            /\ rational_to_float (VRational n d) = Some f.
Proof.
  intros Hn Hd.
  destruct (float_of_Z_small n Hn) as (fn & En & _).
  destruct (float_of_Z_small d Hd) as (fd & Ed & Hz).
  unfold rational_to_float, rational_to_float_body.
  cbn [numerator_denominator py_float truthy py_truthy].
  destruct (Z.eqb_spec d 0) as [->|Hd0]; cbn [negb].
  - rewrite En. now exists fn.
  - rewrite En, Ed. cbn [exc_bind]. unfold py_fdiv. rewrite (Hz Hd0).
    now exists (fn / fd)%float.
Qed.

(** An EXIF rational with components below [2^53] in magnitude always
    converts, with a zero denominator too, and to the same float as the
    pair of integers piexif returns and as the rational object Pillow
    returns; so a triple of such rationals always gives a value in
    [dms_to_deg], whatever the reference. *)
Theorem exif_rationals_always_convert :
  forall (n0 d0 n1 d1 n2 d2 : Z) (ref : pyval),
    small n0 -> small d0 -> small n1 -> small d1 -> small n2 -> small d2 ->
    (exists f, rational_to_float (VTuple [VInt n0; VInt d0]) = Some f
               /\ rational_to_float (VRational n0 d0) = Some f)
    /\ (exists deg,
          dms_to_deg (VTuple [VTuple [VInt n0; VInt d0]; VTuple [VInt n1; VInt d1];
                              VTuple [VInt n2; VInt d2]]) ref = Some deg
          /\ dms_to_deg (VTuple [VRational n0 d0; VRational n1 d1; VRational n2 d2]) ref
             = Some deg).
Proof.
  intros n0 d0 n1 d1 n2 d2 ref H0 H0' H1 H1' H2 H2'.
  destruct (rational_converts n0 d0 H0 H0') as (f0 & A0 & B0).
  destruct (rational_converts n1 d1 H1 H1') as (f1 & A1 & B1).
  destruct (rational_converts n2 d2 H2 H2') as (f2 & A2 & B2).
  split; [now exists f0|].
  unfold dms_to_deg, dms_to_deg_body.
  cbn [truthy py_truthy negb py_len List.length exc_bind py_getitem nth_error].
  change (negb (Z.of_nat 3 =? 3)) with false. cbv iota.
  rewrite A0, A1, A2, B0, B1, B2.
  unfold py_fdiv. change (PrimFloat.eqb 60 0) with false.
  change (PrimFloat.eqb 3600 0) with false. cbn [exc_bind except_None].
  eexists. split; reflexivity.
Qed.

End Hemispheres.

(** ** The reversed tag tables *)

Lemma dict_get_set_str (d : pydict) (s t : string) (v : pyval) :
  dict_get (dict_set d (VStr s) v) (VStr t)
  = if String.eqb s t then Some v else dict_get d (VStr t).
Proof.
  induction d as [|[k' v'] d IH]; cbn [dict_set dict_get].
  - cbn [py_eq]. reflexivity.
  - destruct (py_eq k' (VStr s)) eqn:Es; cbn [dict_get].
    + apply py_eq_str in Es. subst k'. cbn [py_eq].
      destruct (String.eqb s t); reflexivity.
    + destruct (py_eq k' (VStr t)) eqn:Et; [|exact IH].
      apply py_eq_str in Et. subst k'. cbn [py_eq] in Es.
      destruct (String.eqb_spec s t) as [->|_]; [|reflexivity].
      now rewrite String.eqb_refl in Es.
Qed.

Lemma reverse_fold_other (table : list (Z * string)) (acc : pydict) (name : string) :
  ~ In name (map snd table) ->
  dict_get (fold_left (fun acc kv => dict_set acc (VStr (snd kv)) (VInt (fst kv)))
                      table acc) (VStr name)
  = dict_get acc (VStr name).
Proof.
  revert acc. induction table as [|[a b] table IH]; intros acc Hn; [reflexivity|].
  cbn [fold_left fst snd]. rewrite IH by (intros H; apply Hn; now right).
  rewrite dict_get_set_str.
  destruct (String.eqb_spec b name) as [->|_]; [|reflexivity].
  exfalso. apply Hn. now left.
Qed.

Lemma reverse_fold_found (table : list (Z * string)) (acc : pydict) (i : Z) (name : string) :
  NoDup (map snd table) -> In (i, name) table ->
  dict_get (fold_left (fun acc kv => dict_set acc (VStr (snd kv)) (VInt (fst kv)))
                      table acc) (VStr name)
  = Some (VInt i).
Proof.
  revert acc. induction table as [|[a b] table IH]; intros acc Hnd Hin; [contradiction|].
  cbn [map snd] in Hnd. inversion Hnd as [|? ? Hnot Hnd']; subst.
  cbn [fold_left fst snd]. destruct Hin as [[= -> ->]|Hin].
  - rewrite reverse_fold_other by exact Hnot.
    now rewrite dict_get_set_str, String.eqb_refl.
  - now apply IH.
Qed.

(** Lines 34 and 35 turn a table from tag id to tag name, with no name
    used twice, into a dictionary from name to id: looking up a name of
    the table gives its id, looking up another name gives nothing, and
    looking up anything that is not a text, a tag id for one, gives
    nothing either. *)
Theorem reverse_table_lookup :
  forall (table : list (Z * string)) (i : Z) (name : string) (k : pyval),
    NoDup (map snd table) ->
    (In (i, name) table -> dict_get (reverse_table table) (VStr name) = Some (VInt i))
    /\ (~ In name (map snd table) -> dict_get (reverse_table table) (VStr name) = None)
    /\ ((forall s, k <> VStr s) -> dict_get (reverse_table table) k = None).
Proof.
  intros table i name k Hnd. split; [|split].
  - intros Hin. now apply reverse_fold_found.
  - intros Hn. unfold reverse_table, dict_comprehension.
    now rewrite (reverse_fold_other table [] name Hn).
  - intros Hk. unfold reverse_table, dict_comprehension.
    apply (fold_get_none (fun (_ : Z) (v : string) => VStr v)
                         (fun (a : Z) (_ : string) => VInt a) table [] k);
      [|reflexivity].
    intros a b _. destruct k; try reflexivity. now destruct (Hk s).
Qed.

(** ** The outside calls of a scan *)

(** No event of the kind [P] among the calls of a computation. *)
Definition quiet {A} (P : event -> bool) (m : io A) : Prop :=
  existsb P (fst m) = false.

Lemma quiet_bind {A B} (P : event -> bool) (m : io A) (k : A -> io B) :
  quiet P m -> (forall a, quiet P (k a)) -> quiet P (io_bind m k).
Proof.
  unfold quiet. destruct m as [t [a|e]]; cbn; intros Hm Hk; [|exact Hm].
  specialize (Hk a). destruct (k a) as [t' r]. cbn in *.
  now rewrite existsb_app, Hm, Hk.
Qed.

Lemma quiet_try {A} (P : event -> bool) (m : io A) (h : exn -> io A) :
  quiet P m -> (forall e, quiet P (h e)) -> quiet P (io_try m h).
Proof.
  unfold quiet. destruct m as [t [a|e]]; cbn; intros Hm Hh; [exact Hm|].
  specialize (Hh e). destruct (h e) as [t' r]. cbn in *.
  now rewrite existsb_app, Hm, Hh.
Qed.

Lemma quiet_ret {A} (P : event -> bool) (a : A) : quiet P (io_ret a).
Proof. reflexivity. Qed.

Lemma quiet_lift {A} (P : event -> bool) (r : exc A) : quiet P (io_lift r).
Proof. reflexivity. Qed.

Lemma quiet_call {A} (P : event -> bool) (ev : event) (r : exc A) :
  P ev = false -> quiet P (io_call ev r).
Proof. unfold quiet. cbn. now intros ->. Qed.

Definition is_open (ev : event) : bool :=
  match ev with EvImageOpen _ => true | _ => false end.

Definition is_open_heif (ev : event) : bool :=
  match ev with EvOpenHeif _ => true | _ => false end.

Definition is_piexif_load (ev : event) : bool :=
  match ev with EvPiexifLoad _ => true | _ => false end.

(** The paths given to [Image.open], in the order of the calls. *)
Fixpoint opened (t : list event) : list string :=
  match t with
  | [] => []
  | EvImageOpen p :: t' => p :: opened t'
  | _ :: t' => opened t'
  end.

Lemma opened_app (t t' : list event) : opened (t ++ t') = (opened t ++ opened t')%list.
Proof.
  induction t as [|ev t IH]; [reflexivity|].
  destruct ev; cbn; now rewrite IH.
Qed.

Lemma opened_quiet (t : list event) : existsb is_open t = false -> opened t = [].
Proof.
  induction t as [|ev t IH]; [reflexivity|].
  destruct ev; cbn; try exact IH. discriminate.
Qed.

(** A guarded computation that starts with one outside call: the call
    comes first, and what follows is as quiet as the rest is. *)
Lemma first_call_then_quiet {A B} (P : event -> bool) (ev : event) (r : exc A)
    (k : A -> io B) (b : B) :
  (forall a, quiet P (k a)) ->
  exists t, fst (io_try (io_bind (io_call ev r) k) (fun _ => io_ret b)) = ev :: t
            /\ existsb P t = false.
Proof.
  intros Hk. unfold io_call. destruct r as [a|e]; cbn [io_bind io_try].
  - specialize (Hk a). unfold quiet in Hk.
    destruct (k a) as [t [x|e]]; cbn in *.
    + exists t. now split.
    + exists (t ++ [])%list. split; [reflexivity|]. now rewrite app_nil_r.
  - exists []. split; reflexivity.
Qed.

Lemma bind_keeps_first {A B} (P : event -> bool) (ev : event) (m : io A)
    (k : A -> io B) (t : list event) :
  fst m = ev :: t -> existsb P t = false -> (forall a, quiet P (k a)) ->
  exists t', fst (io_bind m k) = ev :: t' /\ existsb P t' = false.
Proof.
  intros Hm Ht Hk. destruct m as [t0 [a|e]]; cbn [fst] in Hm; subst t0; cbn [io_bind].
  - specialize (Hk a). unfold quiet in Hk. destruct (k a) as [t' r]. cbn in *.
    exists (t ++ t')%list. split; [reflexivity|]. now rewrite existsb_app, Ht, Hk.
  - exists t. now split.
Qed.

Section Calls.
Context {R : Runtime}.

Lemma quiet_piexif (P : event -> bool) (b : pyval) :
  P (EvPiexifLoad b) = false -> quiet P (extract_gps_from_piexif_bytes b).
Proof.
  intros HP. unfold extract_gps_from_piexif_bytes.
  destruct (negb (have_piexif && truthy b)); [apply quiet_ret|].
  apply quiet_try; [|intros; apply quiet_ret].
  apply quiet_bind; [now apply quiet_call | intros; apply quiet_lift].
Qed.

Lemma quiet_heif (P : event -> bool) (p : path) (b : pyval) :
  P (EvOpenHeif (path_str p)) = false -> quiet P (heif_exif_bytes p b).
Proof.
  intros HP. unfold heif_exif_bytes.
  apply quiet_try; [|intros; apply quiet_ret].
  apply quiet_bind; [now apply quiet_call | intros h].
  apply quiet_bind; [apply quiet_lift | intros md].
  apply quiet_bind; [apply quiet_lift | intros blocks].
  apply quiet_bind; [apply quiet_lift | intros found; apply quiet_ret].
Qed.

Lemma quiet_raw (P : event -> bool) (p : path) (im : image) :
  P EvInfoExif = false -> P (EvOpenHeif (path_str p)) = false ->
  quiet P (raw_exif_bytes p im).
Proof.
  intros H1 H2. unfold raw_exif_bytes. apply quiet_bind.
  - destruct (im_info im); [now apply quiet_call | apply quiet_ret].
  - intros b. destruct (_ && _); [now apply quiet_heif | apply quiet_ret].
Qed.

(** [get_exif_any] opens the file first and never a second time. *)
Lemma get_exif_any_opens (p : path) :
  exists t, fst (get_exif_any p) = EvImageOpen (path_str p) :: t
            /\ existsb is_open t = false.
Proof.
  unfold get_exif_any.
  destruct (first_call_then_quiet is_open (EvImageOpen (path_str p))
              (Image_open (path_str p))
              (fun im =>
                 (exif <- io_call EvGetExif (im_getexif im) ;;
                  match extract_gps_from_pil_exif exif with
                  | Some _ => io_ret exif
                  | None =>
                      exif_bytes <- raw_exif_bytes p im ;;
                      if truthy exif_bytes
                      then io_ret [(RAW_EXIF_BYTES, exif_bytes)]
                      else io_ret exif
                  end)%io)
              []) as (t & Ht & Hq).
  { intros im. apply quiet_bind; [now apply quiet_call | intros exif].
    destruct (extract_gps_from_pil_exif exif); [apply quiet_ret|].
    apply quiet_bind; [now apply quiet_raw | intros b].
    destruct (truthy b); apply quiet_ret. }
  exists t. now split.
Qed.

Lemma try_file_opens (f : walked_file) :
  opened (fst (try_file f)) = [path_str (wf_path f)].
Proof.
  destruct (get_exif_any_opens (wf_path f)) as (t & Ht & Hq).
  assert (H1 : exists t1, fst (resolve_gps (wf_path f))
                          = EvImageOpen (path_str (wf_path f)) :: t1
                          /\ existsb is_open t1 = false).
  { unfold resolve_gps. apply (bind_keeps_first is_open _ _ _ t Ht Hq).
    intros d. destruct (if negb _ then _ else _); [apply quiet_ret|].
    destruct (dict_get d RAW_EXIF_BYTES); [now apply quiet_piexif | apply quiet_ret]. }
  destruct H1 as (t1 & Ht1 & Hq1).
  assert (H2 : exists t2, fst (try_file f) = EvImageOpen (path_str (wf_path f)) :: t2
                          /\ existsb is_open t2 = false).
  { unfold try_file. apply (bind_keeps_first is_open _ _ _ t1 Ht1 Hq1).
    intros g. destruct g as [[[lat lon] alt]|]; [|apply quiet_ret].
    apply quiet_bind; [apply quiet_lift | intros; apply quiet_ret]. }
  destruct H2 as (t2 & -> & Hq2). cbn [opened]. now rewrite opened_quiet.
Qed.

(** The scan opens exactly the files with a recognized extension, each
    once, in the order of the walk; a file with another extension is
    never opened. *)
Theorem scan_opens_recognized_files :
  forall files : list walked_file,
    opened (calls (scan_files files))
    = map (fun f => path_str (wf_path f)) (filter recognized files).
Proof.
  intros files. unfold scan_files.
  assert (H : forall st,
             opened (calls (fold_left scan_file files st))
             = (opened (calls st)
                ++ map (fun f => path_str (wf_path f)) (filter recognized files))%list).
  { induction files as [|f files IH]; intros st; cbn [fold_left filter map].
    - now rewrite app_nil_r.
    - rewrite IH. destruct (recognized f) eqn:E.
      + cbn [map]. unfold scan_file. fold (recognized f). rewrite E. cbn [negb].
        pose proof (try_file_opens f) as Hf.
        destruct (try_file f) as [t [[pm|]|e]]; cbn [fst calls] in *;
          rewrite opened_app, Hf, <- app_assoc; reflexivity.
      + now rewrite scan_file_other. }
  now rewrite H.
Qed.

End Calls.

(** ** The raw bytes of a file *)

Section RawBytes.
Context {R : Runtime}.

Lemma heif_exif_bytes_first (p : path) (b : pyval) :
  exists t r, heif_exif_bytes p b = (EvOpenHeif (path_str p) :: t, Ok r)
              /\ existsb is_open_heif t = false.
Proof.
  unfold heif_exif_bytes, io_call.
  destruct (open_heif (path_str p)) as [h|e]; cbn [io_bind io_try].
  2: { exists [], b. split; reflexivity. }
  unfold io_lift. destruct (hf_metadata h) as [md|e]; cbn [io_bind io_try io_ret app].
  2: { exists [], b. split; reflexivity. }
  destruct (py_iter _) as [blocks|e]; cbn [io_bind io_try io_ret app].
  2: { exists [], b. split; reflexivity. }
  destruct (find_exif_block blocks) as [found|e]; cbn [io_bind io_try io_ret app].
  - eexists [], _. split; reflexivity.
  - exists [], b. split; reflexivity.
Qed.

(** The loop over the HEIF metadata takes the data of the first block
    of type [Exif] whose data is not empty and looks no further, so
    what comes after that block does not matter.  When no block fits,
    and when a block met before a fitting one is no dictionary, so
    that [md.get] raises inside the [try], the bytes stay what they
    were.  [open_heif] is the only call made. *)
Theorem heif_first_exif_block :
  forall (p : path) (b : pyval) (h : heif_file) (blocks : list pyval),
    open_heif (path_str p) = Ok h ->
    hf_metadata h = Ok (VList blocks) ->
    (forall before d after,
        blocks = (before ++ VDict d :: after)%list ->
        forallb other_block before = true ->
        exif_block (VDict d) = true ->
        heif_exif_bytes p b = ([EvOpenHeif (path_str p)], Ok (get_str d "data")))
    /\ (forallb other_block blocks = true ->
        heif_exif_bytes p b = ([EvOpenHeif (path_str p)], Ok b))
    /\ (forall before v after,
          blocks = (before ++ v :: after)%list ->
          forallb other_block before = true ->
          (forall d, v <> VDict d) ->
          heif_exif_bytes p b = ([EvOpenHeif (path_str p)], Ok b)).
Proof.
  intros p b h blocks Ho Hm. rewrite (heif_exif_bytes_blocks p b h blocks Ho Hm).
  split; [|split].
  - intros before d after -> Hb Hd. rewrite (find_exif_block_passes _ _ Hb).
    cbn [find_exif_block as_dict exc_bind]. cbn [exif_block] in Hd. now rewrite Hd.
  - intros Hb. rewrite <- (app_nil_r blocks), (find_exif_block_passes _ _ Hb).
    reflexivity.
  - intros before v after -> Hb Hv. rewrite (find_exif_block_passes _ _ Hb).
    destruct v; try reflexivity. now elim (Hv d).
Qed.

(** The HEIF metadata of a file is consulted exactly when [im.info]
    gave no raw bytes, pillow-heif was imported and the extension is
    [.heic] or [.heif] in any case of letters; in every other situation
    the result is just what [im.info] gave and [open_heif] is not
    called.  Raw bytes found in [im.info] are never replaced. *)
Theorem heif_metadata_is_a_fallback :
  forall (p : path) (im : image),
    let consulted := negb (truthy (info_exif im)) && have_pillow_heif
                     && str_in (lower (suffix p)) [".heic"; ".heif"] in
    existsb is_open_heif (fst (raw_exif_bytes p im)) = consulted
    /\ (consulted = false ->
        snd (raw_exif_bytes p im) = Ok (info_exif im)
        /\ fst (raw_exif_bytes p im)
           = match im_info im with Some _ => [EvInfoExif] | None => [] end)
    /\ (truthy (info_exif im) = true -> snd (raw_exif_bytes p im) = Ok (info_exif im)).
Proof.
  intros p im consulted. subst consulted. unfold raw_exif_bytes, info_exif.
  destruct (im_info im) as [info|]; cbn [io_call io_ret io_bind].
  - destruct (negb (truthy (get_str info "exif")) && have_pillow_heif
              && str_in (lower (suffix p)) [".heic"; ".heif"]) eqn:E.
    + destruct (heif_exif_bytes_first p (get_str info "exif")) as (t & r & -> & Hq).
      cbn. split; [reflexivity|]. split; [discriminate|].
      intros Ht. rewrite Ht in E. discriminate.
    + cbn. repeat split; reflexivity.
  - destruct (negb (truthy VNone) && have_pillow_heif
              && str_in (lower (suffix p)) [".heic"; ".heif"]) eqn:E.
    + destruct (heif_exif_bytes_first p VNone) as (t & r & -> & Hq).
      cbn. split; [reflexivity|]. split; discriminate.
    + cbn. repeat split; reflexivity.
Qed.

(** The raw-bytes extractor at its edges.  Without piexif, or with
    absent or empty bytes, it answers [None] and calls nothing;
    otherwise it calls [piexif.load] once and nothing else.  A load
    that raises, a result without a [GPS] block, and a latitude
    reference that is not [bytes] (it has no [decode]) all end in
    [None], the last one even when latitude and longitude are there. *)
Theorem piexif_extractor_edges :
  forall (b v : pyval) (exd g : pydict),
    (have_piexif && truthy b = false ->
     extract_gps_from_piexif_bytes b = ([], Ok None))
    /\ (have_piexif && truthy b = true ->
        fst (extract_gps_from_piexif_bytes b) = [EvPiexifLoad b]
        /\ (forall e, piexif_load b = Raise e ->
                      snd (extract_gps_from_piexif_bytes b) = Ok None)
        /\ (piexif_load b = Ok (VDict exd) -> dict_get exd (VStr "GPS") = None ->
            snd (extract_gps_from_piexif_bytes b) = Ok None)
        /\ (piexif_load b = Ok (VDict exd) ->
            dict_get exd (VStr "GPS") = Some (VDict g) ->
            dict_get g (VInt GPSIFD.GPSLatitudeRef) = Some v ->
            (forall s, v <> VBytes s) ->
            snd (extract_gps_from_piexif_bytes b) = Ok None)).
Proof.
  intros b v exd g. unfold extract_gps_from_piexif_bytes. split.
  - now intros ->.
  - intros ->. cbn [negb]. unfold io_call, io_lift.
    split; [|split; [|split]].
    + destruct (piexif_load b) as [ex|e]; cbn [io_bind io_try]; [|reflexivity].
      destruct (gps_of_piexif ex); reflexivity.
    + now intros e ->.
    + intros -> Hg. cbn [io_bind io_try]. unfold gps_of_piexif.
      cbn [as_dict exc_bind]. unfold dict_get_default. rewrite Hg. reflexivity.
    + intros -> Hg Hv Hnb. cbn [io_bind io_try]. unfold gps_of_piexif.
      cbn [as_dict exc_bind]. unfold dict_get_default at 1 2 3. rewrite Hg.
      destruct (truthy (VDict g)); cbn [negb]; [|reflexivity].
      cbn [as_dict exc_bind]. unfold dict_get_default at 1. rewrite Hv.
      destruct v; try reflexivity. now destruct (Hnb s).
Qed.

End RawBytes.

(** ** Scanning one list after another *)

(** Two scans in a row: placemarks, warnings and calls one after the
    other, counters added. *)
Definition scan_join (a b : scan) : scan :=
  {| placemarks := (placemarks a ++ placemarks b)%list;
     total := total a + total b;
     with_gps := with_gps a + with_gps b;
     skipped := skipped a + skipped b;
     warnings := (warnings a ++ warnings b)%list;
     calls := (calls a ++ calls b)%list |}.

Lemma scan_join_start (st : scan) : scan_join st scan_start = st.
Proof.
  destruct st. unfold scan_join. cbn. now rewrite !app_nil_r, !Z.add_0_r.
Qed.

Lemma scan_join_assoc (a b c : scan) :
  scan_join (scan_join a b) c = scan_join a (scan_join b c).
Proof.
  unfold scan_join. cbn. now rewrite !app_assoc, !Z.add_assoc.
Qed.

Section Joining.
Context {R : Runtime}.

Lemma scan_file_join (st : scan) (f : walked_file) :
  scan_file st f = scan_join st (scan_file scan_start f).
Proof.
  unfold scan_file. destruct (negb _); [now rewrite scan_join_start|].
  destruct (try_file f) as [t [[pm|]|e]]; unfold scan_join; cbn;
    now rewrite ?app_nil_r, ?Z.add_0_r.
Qed.

Lemma fold_scan_join (files : list walked_file) (st : scan) :
  fold_left scan_file files st = scan_join st (scan_files files).
Proof.
  revert st. induction files as [|f files IH]; intros st.
  - cbn. now rewrite scan_join_start.
  - unfold scan_files. cbn [fold_left].
    rewrite (IH (scan_file st f)), (IH (scan_file scan_start f)).
    now rewrite (scan_file_join st f), scan_join_assoc.
Qed.

(** The scan of a walk that yields one list of files and then another
    is the scan of the first joined with the scan of the second: what
    a file contributes does not depend on the files before it.  In
    particular the placemarks come in the order of the walk. *)
Theorem scan_files_app :
  forall l1 l2 : list walked_file,
    scan_files (l1 ++ l2) = scan_join (scan_files l1) (scan_files l2)
    /\ placemarks (scan_files (l1 ++ l2))
       = (placemarks (scan_files l1) ++ placemarks (scan_files l2))%list
    /\ total (scan_files (l1 ++ l2)) = total (scan_files l1) + total (scan_files l2)
    /\ with_gps (scan_files (l1 ++ l2))
       = with_gps (scan_files l1) + with_gps (scan_files l2)
    /\ skipped (scan_files (l1 ++ l2))
       = skipped (scan_files l1) + skipped (scan_files l2).
Proof.
  intros l1 l2.
  assert (H : scan_files (l1 ++ l2) = scan_join (scan_files l1) (scan_files l2)).
  { unfold scan_files at 1. rewrite fold_left_app. apply fold_scan_join. }
  rewrite H. repeat split.
Qed.

(** Every warning belongs to a skipped file, and every placemark and
    every skipped file to a counted one: the number of warnings is at
    most [skipped], and [with_gps] and [skipped] lie between 0 and
    [total]. *)
Theorem scan_counters_bounds :
  forall files : list walked_file,
    let st := scan_files files in
    Z.of_nat (List.length (warnings st)) <= skipped st
    /\ 0 <= with_gps st <= total st
    /\ 0 <= skipped st <= total st
    /\ total st <= Z.of_nat (List.length files).
Proof.
  intros files st. subst st. unfold scan_files.
  assert (H : forall st,
             Z.of_nat (List.length (warnings st)) <= skipped st ->
             0 <= with_gps st -> 0 <= skipped st ->
             total st = with_gps st + skipped st ->
             let st' := fold_left scan_file files st in
             Z.of_nat (List.length (warnings st')) <= skipped st'
             /\ 0 <= with_gps st' /\ 0 <= skipped st'
             /\ total st' = with_gps st' + skipped st'
             /\ total st' <= total st + Z.of_nat (List.length files)).
  { induction files as [|f files IH]; intros st Hw Hg Hs Ht; cbn [fold_left List.length].
    - cbv zeta. repeat split; try assumption; lia.
    - assert (Hf : Z.of_nat (List.length (warnings (scan_file st f)))
                   <= skipped (scan_file st f)
                   /\ 0 <= with_gps (scan_file st f) /\ 0 <= skipped (scan_file st f)
                   /\ total (scan_file st f)
                      = with_gps (scan_file st f) + skipped (scan_file st f)
                   /\ total (scan_file st f) <= total st + 1).
      { unfold scan_file. destruct (negb _); [repeat split; try assumption; lia|].
        destruct (try_file f) as [t [[pm|]|e]]; cbn; rewrite ?length_app; cbn;
          repeat split; lia. }
      destruct Hf as (Hw' & Hg' & Hs' & Ht' & Hle).
      specialize (IH (scan_file st f) Hw' Hg' Hs' Ht'). cbv zeta in IH.
      destruct IH as (A & B & C & D & E). cbv zeta.
      repeat split; try assumption. lia. }
  specialize (H scan_start). cbv zeta in H.
  destruct H as (A & B & C & D & E); cbn; try lia.
  cbn in E. repeat split; lia.
Qed.

End Joining.

(** ** Where a coordinate can come from *)

Section Origin.
Context {R : Runtime}.

Lemma pil_exif_without_latitude (i : Z) (exif : pydict) :
  In (i, "GPSLatitude") ExifTags_GPSTAGS -> extract_gps_from_pil_exif exif = None.
Proof.
  intros Hin. unfold extract_gps_from_pil_exif.
  destruct exif as [|kv exif]; [reflexivity|].
  destruct (dict_get TAGS (VStr "GPSInfo")) as [tag|]; [|reflexivity].
  destruct (dict_get (kv :: exif) tag) as [[]|]; try reflexivity.
  cbv zeta.
  assert (G : dict_get (dict_comprehension (fun k _ => dict_get_default GPSTAGS k k)
                                           (fun _ v => v) d) (VStr "GPSLatitude") = None).
  { apply (fold_get_none (fun (k v : pyval) => dict_get_default GPSTAGS k k)
                         (fun (k v : pyval) => v) d [] (VStr "GPSLatitude"));
      [|reflexivity].
    intros a b _. now apply renamed_key_not_name with (i := i). }
  unfold get_str at 1. unfold dict_get_default at 1. rewrite G.
  now rewrite dms_to_deg_None.
Qed.

Lemma piexif_bytes_some_needs_piexif (b : pyval) (c : gps_coord) :
  snd (extract_gps_from_piexif_bytes b) = Ok (Some c) ->
  have_piexif = true /\ truthy b = true
  /\ fst (extract_gps_from_piexif_bytes b) = [EvPiexifLoad b].
Proof.
  unfold extract_gps_from_piexif_bytes.
  destruct have_piexif, (truthy b); cbn [andb negb]; try discriminate.
  intros H. repeat split. unfold io_call, io_lift in *.
  destruct (piexif_load b) as [ex|e]; cbn [io_bind io_try] in *; [|reflexivity].
  destruct (gps_of_piexif ex); reflexivity.
Qed.

Lemma resolve_gps_some_is_raw (i : Z) (p : path) (c : gps_coord) :
  In (i, "GPSLatitude") ExifTags_GPSTAGS ->
  snd (resolve_gps p) = Ok (Some c) ->
  have_piexif = true
  /\ exists b ex,
       truthy b = true /\ piexif_load b = Ok ex /\ gps_of_piexif ex = Ok (Some c)
       /\ In (EvPiexifLoad b) (fst (resolve_gps p)).
Proof.
  intros Hin. unfold resolve_gps.
  destruct (get_exif_any p) as [t [d|e]]; cbn [io_bind]; [|discriminate].
  rewrite (pil_exif_without_latitude i d Hin).
  replace (if negb (dict_mem d RAW_EXIF_BYTES) then None else None)
    with (@None gps_coord) by (now destruct (negb _)).
  destruct (dict_get d RAW_EXIF_BYTES) as [b|]; [|discriminate].
  destruct (extract_gps_from_piexif_bytes b) as [t' r] eqn:E. cbn [snd fst].
  intros ->.
  assert (Hs : snd (extract_gps_from_piexif_bytes b) = Ok (Some c)) by now rewrite E.
  destruct (piexif_bytes_some_needs_piexif b c Hs) as (Hp & Hb & Hf).
  destruct (extract_gps_from_piexif_bytes_some b c Hs) as (ex & Hl & Hg).
  split; [exact Hp|]. exists b, ex. repeat split; try assumption.
  rewrite E in Hf. cbn [fst] in Hf. subst t'. apply in_or_app. right. now left.
Qed.

(** With a tag table that names [GPSLatitude], as Pillow's does, every
    coordinate the resolver returns was parsed by piexif from raw
    bytes: piexif is available, [piexif.load] was called on bytes that
    are not empty, and the coordinate is what the GPS block it returned
    gives. *)
Theorem coordinates_come_from_raw_bytes :
  forall (i : Z) (p : path) (c : gps_coord),
    In (i, "GPSLatitude") ExifTags_GPSTAGS ->
    snd (resolve_gps p) = Ok (Some c) ->
    have_piexif = true
    /\ exists b ex,
         truthy b = true /\ piexif_load b = Ok ex /\ gps_of_piexif ex = Ok (Some c)
         /\ In (EvPiexifLoad b) (fst (resolve_gps p)).
Proof. intros i p c. apply resolve_gps_some_is_raw. Qed.

Lemma scan_files_nothing (files : list walked_file) :
  (forall p, snd (resolve_gps p) = Ok None) ->
  placemarks (scan_files files) = [] /\ with_gps (scan_files files) = 0.
Proof.
  intros Hn. unfold scan_files.
  assert (H : forall st, placemarks st = [] -> with_gps st = 0 ->
                         placemarks (fold_left scan_file files st) = []
                         /\ with_gps (fold_left scan_file files st) = 0).
  { induction files as [|f files IH]; intros st Hp Hg; [now split|].
    cbn [fold_left]. apply IH.
    - unfold scan_file. destruct (negb _); [exact Hp|].
      unfold try_file. specialize (Hn (wf_path f)).
      destruct (resolve_gps (wf_path f)) as [t r]. cbn [snd] in Hn. subst r.
      cbn. exact Hp.
    - unfold scan_file. destruct (negb _); [exact Hg|].
      unfold try_file. specialize (Hn (wf_path f)).
      destruct (resolve_gps (wf_path f)) as [t r]. cbn [snd] in Hn. subst r.
      cbn. exact Hg. }
  now apply H.
Qed.

(** Without piexif, and with a tag table that names [GPSLatitude], no
    file of any folder yields a placemark: the run ends with exit code
    3 or 4 and never calls [write_text]. *)
Theorem without_piexif_nothing_is_found :
  forall (i : Z) (args : cli_args),
    In (i, "GPSLatitude") ExifTags_GPSTAGS ->
    have_piexif = false ->
    placemarks (scan_files (walk args)) = []
    /\ with_gps (scan_files (walk args)) = 0
    /\ (exit_code (main args) = 3 \/ exit_code (main args) = 4)
    /\ existsb is_write (run_calls (main args)) = false.
Proof.
  intros i args Hin Hp.
  assert (Hn : forall p, snd (resolve_gps p) = Ok None).
  { intros p. destruct (resolve_gps_ok p) as (t & [c|] & E); rewrite E; [|reflexivity].
    assert (Hs : snd (resolve_gps p) = Ok (Some c)) by now rewrite E.
    destruct (resolve_gps_some_is_raw i p c Hin Hs) as [Hp' _]. congruence. }
  destruct (scan_files_nothing (walk args) Hn) as [Hpm Hg].
  split; [exact Hpm|]. split; [exact Hg|].
  unfold main. destruct (folder_is_dir args); cbn [negb].
  - cbv zeta. rewrite Hpm. cbn. split; [now right|].
    apply fold_scan_calls. reflexivity.
  - cbn. split; [now left | reflexivity].
Qed.

End Origin.

(** ** The outcomes of a run *)

Section Outcomes.
Context {R : Runtime}.

(** The path [main] writes to. *)
Definition out_path_of (args : cli_args) : string :=
  match output args with
  | Some o => o
  | None => path_join (folder args) (folder_name args ++ "_images.kml")
  end.

(** The document [main] writes. *)
Definition kml_of (args : cli_args) : string :=
  build_kml (placemarks (scan_files (walk args)))
            (folder_name args ++ " (Geotagged Images)").

(** The calls to [write_text] among some outside calls. *)
Definition writes (t : list event) : nat := List.length (filter is_write t).

Lemma writes_none (t : list event) : existsb is_write t = false -> writes t = O.
Proof.
  unfold writes. induction t as [|ev t IH]; [reflexivity|].
  cbn. destruct (is_write ev); [discriminate | exact IH].
Qed.

Lemma writes_app (a b : list event) : writes (a ++ b) = (writes a + writes b)%nat.
Proof. unfold writes. now rewrite filter_app, length_app. Qed.

(** What the value [main] returns tells about the run.  The scan
    itself never calls [write_text].  With 3 the folder is missing and
    nothing was called; with 4 the folder was scanned, no placemark was
    found and nothing was written; with 5 and with 0 placemarks were
    found and [write_text] was called exactly once, after the scan,
    with the chosen path and the document of these placemarks, and it
    raised with 5 and returned with 0.  Something is printed to the
    output stream only with 0.  No run calls [write_text] twice. *)
Theorem main_exit_codes :
  forall args : cli_args,
    let r := main args in
    let st := scan_files (walk args) in
    let written := EvWriteText (out_path_of args) (kml_of args) in
    writes (calls st) = O
    /\ (exit_code r = 3 ->
        folder_is_dir args = false /\ run_calls r = [] /\ stdout r = [])
    /\ (exit_code r = 4 ->
        folder_is_dir args = true /\ placemarks st = []
        /\ run_calls r = calls st /\ stdout r = [])
    /\ (exit_code r = 5 ->
        folder_is_dir args = true /\ placemarks st <> []
        /\ (exists e, write_text (out_path_of args) (kml_of args) = Raise e
                      /\ stderr r = (warnings st
                                     ++ [("Failed to write KML: " ++ exn_msg e)%string])%list)
        /\ run_calls r = (calls st ++ [written])%list
        /\ writes (run_calls r) = 1%nat
        /\ stdout r = [])
    /\ (exit_code r = 0 ->
        folder_is_dir args = true /\ placemarks st <> []
        /\ write_text (out_path_of args) (kml_of args) = Ok tt
        /\ run_calls r = (calls st ++ [written])%list
        /\ writes (run_calls r) = 1%nat
        /\ stdout r = [("Wrote KML: " ++ out_path_of args)%string; summary st]
        /\ stderr r = warnings st)
    /\ (stdout r <> [] -> exit_code r = 0)
    /\ (writes (run_calls r) <= 1)%nat.
Proof.
  intros args r st written. subst r st written. unfold main, kml_of, out_path_of.
  pose proof (fold_scan_calls (walk args) scan_start eq_refl) as Hq.
  fold (scan_files (walk args)) in Hq. apply writes_none in Hq.
  split; [exact Hq|].
  destruct (folder_is_dir args); cbn [negb].
  2: { cbn. repeat split; intros; try discriminate; try tauto; try lia. }
  cbv zeta.
  destruct (placemarks (scan_files (walk args))) as [|pm pms] eqn:Epm.
  { cbn [exit_code stdout stderr run_calls]. rewrite Hq.
    repeat split; intros; try discriminate; try tauto; try lia. }
  destruct (write_text _ _) as [[]|e] eqn:Ew; cbn [exit_code stdout stderr run_calls];
    rewrite writes_app, Hq; cbn [writes filter is_write List.length Nat.add].
  - repeat split; intros; try discriminate; try tauto; try lia.
  - repeat split; intros; try discriminate; try tauto; try lia.
    exists e. now split.
Qed.

End Outcomes.

(** ** Extensions *)

Lemma length_append (a b : string) :
  String.length (a ++ b) = (String.length a + String.length b)%nat.
Proof. induction a as [|c a IH]; cbn; [reflexivity | now rewrite IH]. Qed.

Lemma substring_all (s : string) : substring 0 (String.length s) s = s.
Proof. induction s as [|c s IH]; cbn; [reflexivity | now rewrite IH]. Qed.

Lemma substring_skip (pre t : string) :
  substring (String.length pre) (String.length t) (pre ++ t) = t.
Proof. induction pre as [|c pre IH]; cbn; [apply substring_all | exact IH]. Qed.

Lemma rfind_dot_split (s : string) (i : nat) :
  rfind_dot s = Some i ->
  exists stem ext,
    s = stem ++ String "." ext /\ String.length stem = i /\ rfind_dot ext = None.
Proof.
  revert i. induction s as [|c s IH]; intros i; cbn [rfind_dot]; [discriminate|].
  destruct (rfind_dot s) as [j|] eqn:E.
  - intros [= <-]. destruct (IH j eq_refl) as (stem & ext & -> & Hl & Hn).
    exists (String c stem), ext. cbn. now rewrite Hl.
  - destruct (Ascii.eqb_spec c ".") as [->|_]; [|discriminate].
    intros [= <-]. now exists "", s.
Qed.

(** [p.suffix] is the end of the name: the name is a stem followed by
    the suffix, and a suffix that is not empty follows a stem that is
    not empty and is a dot with at least one character after it, none
    of them a dot.  A name without a dot, a name whose only dot comes
    first and a name that ends in a dot have the empty suffix. *)
Theorem suffix_splits_name :
  forall p : path,
    (exists stem,
        path_name p = stem ++ suffix p
        /\ (suffix p = ""
            \/ stem <> ""
               /\ exists ext, suffix p = String "." ext /\ ext <> ""
                              /\ rfind_dot ext = None))
    /\ (rfind_dot (path_name p) = None -> suffix p = "")
    /\ (forall rest, path_name p = String "." rest -> rfind_dot rest = None ->
                     suffix p = "")
    /\ (forall stem, path_name p = stem ++ "." -> suffix p = "").
Proof.
  intros p. unfold suffix. set (name := path_name p).
  split; [|split; [|split]].
  - destruct (rfind_dot name) as [i|] eqn:E.
    2: { exists name. split; [now rewrite append_empty_r | now left]. }
    destruct (rfind_dot_split name i E) as (stem & ext & Hn & Hl & He).
    destruct ((0 <? i)%nat && (i <? String.length name - 1)%nat) eqn:C.
    2: { exists name. split; [now rewrite append_empty_r | now left]. }
    apply andb_prop in C. destruct C as [C1 C2].
    apply Nat.ltb_lt in C1. apply Nat.ltb_lt in C2.
    assert (Hsub : substring i (String.length name - i) name = String "." ext).
    { rewrite Hn, <- Hl, length_append.
      replace (String.length stem + String.length (String "." ext) - String.length stem)%nat
        with (String.length (String "." ext)) by lia.
      apply substring_skip. }
    rewrite Hsub. exists stem. split; [exact Hn|]. right. split.
    + intros ->. cbn in Hl. lia.
    + exists ext. repeat split; [|exact He].
      intros ->. rewrite Hn, length_append in C2. cbn in C2. lia.
  - now intros ->.
  - intros rest Hn Hr. rewrite Hn. cbn [rfind_dot]. rewrite Hr. reflexivity.
  - intros stem Hn. destruct (rfind_dot name) as [i|] eqn:E; [|reflexivity].
    destruct (rfind_dot_split name i E) as (stem' & ext & Hn' & Hl & He).
    assert (Hi : i = String.length stem).
    { clear - Hn Hn' Hl He. subst i. rewrite Hn in Hn'. clear Hn.
      revert stem' Hn'. induction stem as [|c stem IH]; intros stem' H.
      - destruct stem' as [|c' stem']; [reflexivity|].
        cbn in H. injection H as _ H. destruct stem'; discriminate.
      - destruct stem' as [|c' stem'].
        + cbn in H. injection H as -> H. subst ext.
          exfalso. clear - He. induction stem as [|c stem IH]; cbn in He.
          * discriminate.
          * destruct (rfind_dot (stem ++ ".")); [discriminate | now apply IH].
        + cbn in H. injection H as _ H. cbn. f_equal. now apply IH. }
    subst i. rewrite Hn, length_append, Hi. cbn [String.length].
    replace (String.length stem <? String.length stem + 1 - 1)%nat with false
      by (symmetry; apply Nat.ltb_ge; lia).
    now rewrite andb_false_r.
Qed.

Lemma lower_ascii_dot (c : ascii) : Ascii.eqb (lower_ascii c) "." = Ascii.eqb c ".".
Proof. destruct c as [[] [] [] [] [] [] [] []]; reflexivity. Qed.

Lemma lower_ascii_idem (c : ascii) : lower_ascii (lower_ascii c) = lower_ascii c.
Proof. destruct c as [[] [] [] [] [] [] [] []]; reflexivity. Qed.

Lemma lower_idem (s : string) : lower (lower s) = lower s.
Proof.
  induction s as [|c s IH]; cbn; [reflexivity | now rewrite IH, lower_ascii_idem].
Qed.

Lemma rfind_dot_lower (s : string) : rfind_dot (lower s) = rfind_dot s.
Proof.
  induction s as [|c s IH]; cbn; [reflexivity|].
  now rewrite IH, lower_ascii_dot.
Qed.

Lemma length_lower (s : string) : String.length (lower s) = String.length s.
Proof. induction s as [|c s IH]; cbn; [reflexivity | now rewrite IH]. Qed.

Lemma substring_lower (s : string) (i n : nat) :
  substring i n (lower s) = lower (substring i n s).
Proof.
  revert i n. induction s as [|c s IH]; intros i n.
  - destruct i, n; reflexivity.
  - destruct i as [|i]; cbn.
    + destruct n as [|n]; cbn; [reflexivity | now rewrite IH].
    + apply IH.
Qed.

(** Are two texts the same up to the case of the letters A to Z? *)
Fixpoint same_letters (a b : string) : bool :=
  match a, b with
  | EmptyString, EmptyString => true
  | String x a', String y b' =>
      Ascii.eqb (lower_ascii x) (lower_ascii y) && same_letters a' b'
  | _, _ => false
  end.

Lemma same_letters_lower (a b : string) :
  same_letters a b = true <-> lower a = lower b.
Proof.
  revert b. induction a as [|x a IH]; intros [|y b]; cbn; split;
    try reflexivity; try discriminate.
  - intros H. apply andb_prop in H. destruct H as [Hx H].
    apply Ascii.eqb_eq in Hx. rewrite Hx. f_equal. now apply IH.
  - intros [= Hx H]. rewrite Hx, Ascii.eqb_refl. now apply IH.
Qed.

Lemma rfind_dot_app (a b : string) :
  rfind_dot (a ++ b)
  = match rfind_dot b with
    | Some i => Some (String.length a + i)%nat
    | None => rfind_dot a
    end.
Proof.
  induction a as [|c a IH]; cbn [append rfind_dot String.length].
  - now destruct (rfind_dot b).
  - rewrite IH. destruct (rfind_dot b) as [i|]; reflexivity.
Qed.

Lemma str_in_In (s : string) (l : list string) : str_in s l = true <-> In s l.
Proof.
  unfold str_in. induction l as [|x l IH]; cbn; [split; [discriminate | tauto]|].
  rewrite orb_true_iff, IH. split; intros [H|H]; auto.
  - left. symmetry. now apply String.eqb_eq.
  - left. subst. apply String.eqb_refl.
Qed.

(** The names the scan takes up: a file is recognized exactly when its
    name is a stem that is not empty followed by one of the six
    extensions of [IMG_EXTS], written in any mix of capital and small
    letters; the extension is then the suffix of the name. *)
Theorem recognized_names :
  forall f : walked_file,
    recognized f = true
    <-> exists stem ext e,
          path_name (wf_path f) = stem ++ ext /\ stem <> ""
          /\ In e IMG_EXTS /\ same_letters ext e = true.
Proof.
  intros f. unfold recognized. rewrite str_in_In.
  assert (Hexts : forall e, In e IMG_EXTS ->
                            lower e = e /\ rfind_dot e = Some O
                            /\ (2 <= String.length e)%nat).
  { intros e H. cbn in H.
    repeat (destruct H as [<-|H]; [repeat split; cbn; lia|]). contradiction. }
  split.
  - intros Hin. unfold suffix in *. set (name := path_name (wf_path f)) in *.
    destruct (rfind_dot name) as [i|] eqn:E.
    2: { destruct (Hexts _ Hin) as (_ & _ & Hl). cbn in Hl. lia. }
    destruct ((0 <? i)%nat && (i <? String.length name - 1)%nat) eqn:C.
    2: { destruct (Hexts _ Hin) as (_ & _ & Hl). cbn in Hl. lia. }
    apply andb_prop in C. destruct C as [C1 _]. apply Nat.ltb_lt in C1.
    destruct (rfind_dot_split name i E) as (stem & ext & Hn & Hl & _).
    assert (Hsub : substring i (String.length name - i) name = String "." ext).
    { rewrite Hn, <- Hl, length_append.
      replace (String.length stem + String.length (String "." ext) - String.length stem)%nat
        with (String.length (String "." ext)) by lia.
      apply substring_skip. }
    rewrite Hsub in Hin.
    exists stem, (String "." ext), (lower (String "." ext)).
    split; [exact Hn|]. split; [intros ->; cbn in Hl; lia|]. split; [exact Hin|].
    apply same_letters_lower. now rewrite lower_idem.
  - intros (stem & ext & e & Hn & Hs & Hin & Hsame).
    destruct (Hexts e Hin) as (He & Hd & Hl).
    apply same_letters_lower in Hsame. rewrite He in Hsame.
    assert (Hdot : rfind_dot ext = Some O) by now rewrite <- rfind_dot_lower, Hsame.
    assert (Hlen : (2 <= String.length ext)%nat) by now rewrite <- length_lower, Hsame.
    unfold suffix. rewrite Hn, rfind_dot_app, Hdot, length_append, Nat.add_0_r.
    assert (C : ((0 <? String.length stem)%nat
                 && (String.length stem <? String.length stem + String.length ext - 1)%nat)
                = true).
    { apply andb_true_intro. split; apply Nat.ltb_lt; [|lia].
      destruct stem; [contradiction | cbn; lia]. }
    rewrite C.
    replace (String.length stem + String.length ext - String.length stem)%nat
      with (String.length ext) by lia.
    now rewrite substring_skip, Hsame.
Qed.

(** ** More on XML escaping *)

(** Is the character one of the five that are escaped? *)
Definition special (c : ascii) : bool :=
  Ascii.eqb c "&" || Ascii.eqb c "<" || Ascii.eqb c ">"
  || Ascii.eqb c (ascii_of_nat 34) || Ascii.eqb c "'".

Fixpoint has_special (s : string) : bool :=
  match s with
  | EmptyString => false
  | String c s' => special c || has_special s'
  end.

Lemma escape_all_app (a b : string) :
  escape_all (a ++ b) = escape_all a ++ escape_all b.
Proof.
  induction a as [|c a IH]; [reflexivity|].
  cbn [append escape_all]. now rewrite IH, append_assoc.
Qed.

Lemma escape_char_cases (c : ascii) :
  (special c = false /\ escape_char c = String c "")
  \/ (special c = true
      /\ exists rest, escape_char c = String "&" rest /\ (3 <= String.length rest)%nat).
Proof.
  unfold special, escape_char.
  destruct (Ascii.eqb c "&"); [right; split; [reflexivity | eexists; split; [reflexivity | cbn; lia]]|].
  destruct (Ascii.eqb c "<"); [right; split; [reflexivity | eexists; split; [reflexivity | cbn; lia]]|].
  destruct (Ascii.eqb c ">"); [right; split; [reflexivity | eexists; split; [reflexivity | cbn; lia]]|].
  destruct (Ascii.eqb c (ascii_of_nat 34));
    [right; split; [reflexivity | eexists; split; [reflexivity | cbn; lia]]|].
  destruct (Ascii.eqb c "'"); [right; split; [reflexivity | eexists; split; [reflexivity | cbn; lia]]|].
  now left.
Qed.

Lemma escape_all_length (s : string) :
  (String.length s <= String.length (escape_all s))%nat
  /\ (has_special s = true -> (String.length s < String.length (escape_all s))%nat).
Proof.
  induction s as [|c s [IH1 IH2]]; [split; [reflexivity | discriminate]|].
  cbn [escape_all has_special String.length]. rewrite length_append.
  destruct (escape_char_cases c) as [[Hs ->]|[Hs (rest & -> & Hl)]]; rewrite Hs;
    cbn [String.length orb].
  - split; [lia|]. intros H. specialize (IH2 H). lia.
  - split; [lia|]. intros _. lia.
Qed.

Lemma escape_all_plain (s : string) : has_special s = false -> escape_all s = s.
Proof.
  induction s as [|c s IH]; [reflexivity|].
  cbn [has_special escape_all]. intros H. apply orb_false_elim in H.
  destruct H as [Hc Hs].
  destruct (escape_char_cases c) as [[_ ->]|[Hc' _]]; [|congruence].
  cbn. now rewrite IH.
Qed.

Lemma append_inv_head (a x y : string) : a ++ x = a ++ y -> x = y.
Proof.
  induction a as [|c a IH]; cbn; [trivial|].
  intros H. injection H as H. now apply IH.
Qed.

Lemma escape_char_head (a b : ascii) (x y : string) :
  escape_char a ++ x = escape_char b ++ y -> a = b.
Proof.
  unfold escape_char.
  destruct (Ascii.eqb_spec a "&") as [->|A1];
    [|destruct (Ascii.eqb_spec a "<") as [->|A2];
      [|destruct (Ascii.eqb_spec a ">") as [->|A3];
        [|destruct (Ascii.eqb_spec a (ascii_of_nat 34)) as [->|A4];
          [|destruct (Ascii.eqb_spec a "'") as [->|A5]]]]];
  (destruct (Ascii.eqb_spec b "&") as [->|B1];
    [|destruct (Ascii.eqb_spec b "<") as [->|B2];
      [|destruct (Ascii.eqb_spec b ">") as [->|B3];
        [|destruct (Ascii.eqb_spec b (ascii_of_nat 34)) as [->|B4];
          [|destruct (Ascii.eqb_spec b "'") as [->|B5]]]]]);
  cbn; intros H; try reflexivity; try discriminate;
  injection H as H; try congruence.
Qed.

Lemma escape_all_injective (s t : string) : escape_all s = escape_all t -> s = t.
Proof.
  revert t. induction s as [|a s IH]; intros [|b t]; cbn [escape_all].
  - reflexivity.
  - intros H. destruct (escape_char_cases b) as [[_ E]|[_ (r & E & _)]];
      rewrite E in H; discriminate.
  - intros H. destruct (escape_char_cases a) as [[_ E]|[_ (r & E & _)]];
      rewrite E in H; discriminate.
  - intros H. pose proof (escape_char_head a b _ _ H) as ->.
    apply append_inv_head in H. f_equal. now apply IH.
Qed.

(** [xml_escape] works piece by piece, never shortens a text, changes
    a text exactly when it holds one of the five characters, and maps
    two different texts to two different results, so the original can
    always be told from the escaped text.  It is not idempotent: the
    [&] of an entity is escaped again by a second pass. *)
Theorem xml_escape_properties :
  forall a b : string,
    xml_escape (a ++ b) = xml_escape a ++ xml_escape b
    /\ (String.length a <= String.length (xml_escape a))%nat
    /\ (xml_escape a = a <-> has_special a = false)
    /\ (xml_escape a = xml_escape b -> a = b)
    /\ (has_special a = true -> xml_escape (xml_escape a) <> xml_escape a).
Proof.
  intros a b. rewrite !xml_escape_chars.
  split; [apply escape_all_app|].
  split; [apply escape_all_length|].
  split.
  { split.
    - intros H. destruct (has_special a) eqn:E; [|reflexivity].
      pose proof (proj2 (escape_all_length a) E) as L. rewrite H in L. lia.
    - apply escape_all_plain. }
  split; [apply escape_all_injective|].
  intros Hs H. apply escape_all_injective in H.
  pose proof (proj2 (escape_all_length a) Hs) as L. rewrite H in L. lia.
Qed.

(** ** The fields of a coordinate text *)

(** The characters [str(f)] can hold: digits, the point, the signs and
    the letters of [e], [inf] and [nan]. *)
Definition float_char (c : ascii) : bool :=
  let n := nat_of_ascii c in
  ((48 <=? n) && (n <=? 57))%nat
  || Ascii.eqb c "." || Ascii.eqb c "-" || Ascii.eqb c "+" || Ascii.eqb c "e"
  || Ascii.eqb c "i" || Ascii.eqb c "n" || Ascii.eqb c "f" || Ascii.eqb c "a".

Fixpoint all_chars (P : ascii -> bool) (s : string) : bool :=
  match s with
  | EmptyString => true
  | String c s' => P c && all_chars P s'
  end.

Fixpoint count_char (c : ascii) (s : string) : nat :=
  match s with
  | EmptyString => O
  | String a s' => ((if Ascii.eqb a c then 1 else 0) + count_char c s')%nat
  end.

Lemma all_chars_app (P : ascii -> bool) (a b : string) :
  all_chars P (a ++ b) = all_chars P a && all_chars P b.
Proof.
  induction a as [|c a IH]; [reflexivity|].
  cbn. now rewrite IH, andb_assoc.
Qed.

Lemma all_chars_substring (P : ascii -> bool) (s : string) (i n : nat) :
  all_chars P s = true -> all_chars P (substring i n s) = true.
Proof.
  revert i n. induction s as [|c s IH]; intros i n H.
  - destruct i, n; reflexivity.
  - cbn in H. apply andb_prop in H. destruct H as [Hc Hs].
    destruct i as [|i]; cbn.
    + destruct n as [|n]; cbn; [reflexivity|]. now rewrite Hc, IH.
    + now apply IH.
Qed.

Lemma all_chars_zeros (n : nat) : all_chars float_char (zeros n) = true.
Proof. induction n as [|n IH]; [reflexivity | exact IH]. Qed.

Lemma all_chars_uint (d : Decimal.uint) :
  all_chars float_char (NilEmpty.string_of_uint d) = true.
Proof. induction d; cbn; try reflexivity; exact IHd. Qed.

Lemma all_chars_decimal_digits (z : Z) : all_chars float_char (decimal_digits z) = true.
Proof.
  unfold decimal_digits, NilZero.string_of_int, NilZero.string_of_uint.
  destruct (Z.to_int z) as [d|d]; destruct d; try reflexivity;
    cbn [all_chars]; rewrite ?andb_true_l;
    match goal with |- all_chars _ (NilEmpty.string_of_uint ?u) = true =>
      apply (all_chars_uint u) end.
Qed.

Lemma all_chars_format_exponent (x : Z) : all_chars float_char (format_exponent x) = true.
Proof.
  unfold format_exponent. rewrite !all_chars_app, all_chars_decimal_digits.
  destruct (x <? 0), (Z.abs x <? 10); reflexivity.
Qed.

Lemma all_chars_format_finite (m : positive) (e : Z) :
  all_chars float_char (format_finite m e) = true.
Proof.
  unfold format_finite. destruct (shortest_decimal m e) as [d q]. cbv zeta.
  pose proof (all_chars_decimal_digits d) as Hd.
  destruct (_ || _).
  - rewrite !all_chars_app, all_chars_format_exponent, all_chars_substring by exact Hd.
    destruct (1 <? _); [|reflexivity].
    now rewrite all_chars_app, all_chars_substring.
  - destruct (_ <=? 0).
    + now rewrite !all_chars_app, all_chars_zeros, Hd.
    + destruct (_ <=? _).
      * now rewrite !all_chars_app, all_chars_zeros, Hd.
      * now rewrite !all_chars_app, !all_chars_substring.
Qed.

Lemma all_chars_float_str (f : float) : all_chars float_char (float_str f) = true.
Proof.
  unfold float_str. destruct (Prim2SF f) as [[]|[]| |s m e]; try reflexivity.
  rewrite all_chars_app, all_chars_format_finite. now destruct s.
Qed.

Lemma count_char_app (c : ascii) (a b : string) :
  count_char c (a ++ b) = (count_char c a + count_char c b)%nat.
Proof.
  induction a as [|x a IH]; [reflexivity|].
  cbn. rewrite IH. lia.
Qed.

Lemma count_char_absent (P : ascii -> bool) (c : ascii) (s : string) :
  P c = false -> all_chars P s = true -> count_char c s = O.
Proof.
  intros Hc. induction s as [|a s IH]; [reflexivity|].
  cbn. intros H. apply andb_prop in H. destruct H as [Ha Hs].
  destruct (Ascii.eqb_spec a c) as [->|_]; [congruence|]. now apply IH.
Qed.

(** The coordinate text of a placemark has exactly two fields without
    an altitude and three with one, whatever the three floats are: it
    holds one comma or two, no blank and no line break, and nothing but
    what the texts of floats are made of. *)
Theorem coordinates_fields :
  forall pm : placemark,
    count_char "," (coordinates pm)
    = match pm_alt pm with Some _ => 2%nat | None => 1%nat end
    /\ count_char " " (coordinates pm) = O
    /\ count_char (ascii_of_nat 10) (coordinates pm) = O
    /\ all_chars (fun c => float_char c || Ascii.eqb c ",") (coordinates pm) = true
    /\ coordinates pm <> "".
Proof.
  intros pm. unfold coordinates. cbv zeta.
  pose proof (all_chars_float_str (pm_lon pm)) as Hlon.
  pose proof (all_chars_float_str (pm_lat pm)) as Hlat.
  assert (Hcount : forall c f, float_char c = false -> count_char c (float_str f) = O).
  { intros c f Hc. apply (count_char_absent float_char); [exact Hc|].
    apply all_chars_float_str. }
  assert (Hweak : forall s, all_chars float_char s = true ->
                            all_chars (fun c => float_char c || Ascii.eqb c ",") s = true).
  { induction s as [|c s IH]; [reflexivity|]. cbn. intros H.
    apply andb_prop in H. destruct H as [-> H]. cbn. now apply IH. }
  assert (Hne : forall f s, float_str f ++ s <> "").
  { intros f s. unfold float_str.
    destruct (Prim2SF f) as [[]|[]| |[] m e]; try discriminate.
    unfold format_finite. destruct (shortest_decimal m e) as [d q]. cbv zeta.
    assert (Hd : exists c r, decimal_digits d = String c r).
    { unfold decimal_digits, NilZero.string_of_int, NilZero.string_of_uint.
      destruct (Z.to_int d) as [u|u]; destruct u; cbn; eauto. }
    destruct Hd as (c & r & ->).
    destruct (_ || _); [discriminate|].
    destruct (_ <=? 0); [discriminate|].
    destruct (_ <=? _); [discriminate|].
    destruct (Z.to_nat _) eqn:E; discriminate. }
  destruct (pm_alt pm) as [alt|].
  - rewrite !count_char_app, !Hcount by reflexivity.
    rewrite !all_chars_app, (Hweak _ Hlon), (Hweak _ Hlat),
            (Hweak _ (all_chars_float_str alt)).
    split; [reflexivity|]. split; [reflexivity|]. split; [reflexivity|].
    split; [reflexivity|]. rewrite append_assoc. apply Hne.
  - rewrite !count_char_app, !Hcount by reflexivity.
    rewrite !all_chars_app, (Hweak _ Hlon), (Hweak _ Hlat).
    split; [reflexivity|]. split; [reflexivity|]. split; [reflexivity|].
    split; [reflexivity|]. apply Hne.
Qed.

(** ** Values of other shapes where the DMS triple should be *)

Lemma get_nth_error (s : string) (i : nat) :
  String.get i s = nth_error (list_ascii_of_string s) i.
Proof.
  revert i. induction s as [|c s IH]; intros [|i]; cbn; try reflexivity. apply IH.
Qed.

Lemma length_list_ascii (s : string) :
  List.length (list_ascii_of_string s) = String.length s.
Proof. induction s as [|c s IH]; cbn; [reflexivity | now rewrite IH]. Qed.

Section Shapes.
Context {R : Runtime}.

Lemma dms_to_deg_same_items (a b : pyval) (ref : pyval) :
  truthy a = truthy b -> py_len a = py_len b ->
  (forall i, (i < 3)%nat ->
             match py_getitem a i, py_getitem b i with
             | Ok x, Ok y => x = y
             | Raise _, Raise _ => True
             | _, _ => False
             end) ->
  dms_to_deg a ref = dms_to_deg b ref.
Proof.
  intros Ht Hl Hg. unfold dms_to_deg, dms_to_deg_body. rewrite Ht, Hl.
  destruct (truthy b); cbn [negb]; [|reflexivity].
  destruct (py_len b) as [n|]; cbn [exc_bind except_None]; [|reflexivity].
  destruct (negb (n =? 3)); [reflexivity|].
  pose proof (Hg 0%nat ltac:(lia)) as H0.
  pose proof (Hg 1%nat ltac:(lia)) as H1.
  pose proof (Hg 2%nat ltac:(lia)) as H2.
  destruct (py_getitem a 0), (py_getitem b 0); try contradiction; subst;
    cbn [exc_bind except_None]; [|reflexivity].
  destruct (py_getitem a 1), (py_getitem b 1); try contradiction; subst;
    cbn [exc_bind except_None]; [|reflexivity].
  destruct (py_getitem a 2), (py_getitem b 2); try contradiction; subst;
    cbn [exc_bind except_None]; reflexivity.
Qed.

(** What [dms_to_deg] makes of a value that is no tuple or list.  A
    number, a boolean, a rational object or [None] gives [None]: either
    it is false, or [len] raises inside the [try].  A [bytes] value is
    read like the tuple of its byte values and a [str] like the tuple
    of its characters, so three bytes do give a number.  A dictionary
    is asked for the keys 0, 1 and 2 when it has three entries. *)
Theorem dms_to_deg_other_shapes :
  forall (ref : pyval) (z n d : Z) (f : float) (b : bool) (s : string) (dict : pydict),
    dms_to_deg VNone ref = None
    /\ dms_to_deg (VInt z) ref = None
    /\ dms_to_deg (VFloat f) ref = None
    /\ dms_to_deg (VBool b) ref = None
    /\ dms_to_deg (VRational n d) ref = None
    /\ dms_to_deg (VBytes s) ref
       = dms_to_deg (VTuple (map (fun c => VInt (Z.of_nat (nat_of_ascii c)))
                                 (list_ascii_of_string s))) ref
    /\ dms_to_deg (VStr s) ref
       = dms_to_deg (VTuple (map (fun c => VStr (String c ""))
                                 (list_ascii_of_string s))) ref
    /\ dms_to_deg (VDict dict) ref
       = match List.length dict, dict_get dict (VInt 0), dict_get dict (VInt 1),
               dict_get dict (VInt 2) with
         | 3%nat, Some x0, Some x1, Some x2 => dms_to_deg (VTuple [x0; x1; x2]) ref
         | _, _, _, _ => None
         end.
Proof.
  intros ref z n d f b s dict.
  split; [reflexivity|].
  split; [unfold dms_to_deg, dms_to_deg_body; now destruct (truthy (VInt z))|].
  split; [unfold dms_to_deg, dms_to_deg_body; now destruct (truthy (VFloat f))|].
  split; [unfold dms_to_deg, dms_to_deg_body; now destruct (truthy (VBool b))|].
  split; [unfold dms_to_deg, dms_to_deg_body; now destruct (truthy (VRational n d))|].
  split; [|split].
  - apply dms_to_deg_same_items.
    + destruct s; reflexivity.
    + cbn [py_len]. now rewrite length_map, length_list_ascii.
    + intros i _. cbn [py_getitem]. rewrite get_nth_error, nth_error_map.
      destruct (nth_error (list_ascii_of_string s) i); cbn; trivial.
  - apply dms_to_deg_same_items.
    + destruct s; reflexivity.
    + cbn [py_len]. now rewrite length_map, length_list_ascii.
    + intros i _. cbn [py_getitem]. rewrite get_nth_error, nth_error_map.
      destruct (nth_error (list_ascii_of_string s) i); cbn; trivial.
  - unfold dms_to_deg, dms_to_deg_body.
    destruct dict as [|e0 [|e1 [|e2 [|e3 rest]]]]; try reflexivity.
    + set (dd := [e0; e1; e2]). cbn [truthy py_truthy negb py_len exc_bind].
      change (negb (Z.of_nat (List.length dd) =? 3)) with false. cbv iota.
      change (List.length dd) with 3%nat. cbn [py_getitem Z.of_nat].
      change (Z.pos (Pos.of_succ_nat 0)) with 1. change (Z.pos (Pos.of_succ_nat 1)) with 2.
      destruct (dict_get dd (VInt 0)) as [x0|]; cbn [exc_bind except_None]; [|reflexivity].
      destruct (dict_get dd (VInt 1)) as [x1|]; cbn [exc_bind except_None]; [|reflexivity].
      destruct (dict_get dd (VInt 2)) as [x2|]; cbn [exc_bind except_None]; reflexivity.
    + cbn [truthy py_truthy negb py_len exc_bind List.length].
      destruct (Z.eqb_spec (Z.of_nat (S (S (S (S (List.length rest)))))) 3) as [E|E];
        [lia | reflexivity].
Qed.

End Shapes.

(** ** What the resolver hands to the loop, and what the loop keeps *)

Section Provenance.
Context {R : Runtime}.

(** [get_exif_any] never raises, and the dictionary it returns is one
    of three: the empty one, the EXIF dictionary of the opened image,
    or a dictionary with the marker of raw bytes as its only key and
    bytes that are not empty as its value. *)
Theorem get_exif_any_result :
  forall p : path,
    exists t d,
      get_exif_any p = (t, Ok d)
      /\ (d = []
          \/ (exists im, Image_open (path_str p) = Ok im /\ im_getexif im = Ok d)
          \/ (exists b, d = [(RAW_EXIF_BYTES, b)] /\ truthy b = true)).
Proof.
  intros p. unfold get_exif_any, io_call.
  destruct (Image_open (path_str p)) as [im|e]; cbn [io_bind io_try].
  2: { do 2 eexists. split; [reflexivity | now left]. }
  destruct (im_getexif im) as [exif|e] eqn:Ee; cbn [io_bind io_try].
  2: { do 2 eexists. split; [reflexivity | now left]. }
  destruct (extract_gps_from_pil_exif exif).
  { do 2 eexists. split; [reflexivity|]. right. left. now exists im. }
  destruct (raw_exif_bytes_ok p im) as (t & b & ->). cbn [io_bind].
  destruct (truthy b) eqn:Eb; do 2 eexists; (split; [reflexivity|]).
  - right. right. now exists b.
  - right. left. now exists im.
Qed.

Lemma scan_file_placemark (f : walked_file) :
  placemarks (scan_file scan_start f) = []
  \/ exists pm, placemarks (scan_file scan_start f) = [pm]
                /\ recognized f = true
                /\ pm_name pm = path_name (wf_path f)
                /\ wf_relative f = Ok (pm_desc pm)
                /\ snd (resolve_gps (wf_path f)) = Ok (Some (pm_lat pm, pm_lon pm, pm_alt pm)).
Proof.
  unfold scan_file. fold (recognized f). destruct (recognized f); [|now left].
  cbn [negb]. unfold try_file.
  destruct (resolve_gps (wf_path f)) as [t [[[[lat lon] alt]|]|e]]; cbn [io_bind];
    try (now left).
  unfold io_lift. destruct (wf_relative f) as [desc|e]; cbn; [|now left].
  right. eexists. repeat split.
Qed.

(** Every placemark of a scan stands for a file of the walk with a
    recognized extension: it carries the name of that file, its path
    relative to the folder, and the coordinate the resolver found for
    it.  There are never more placemarks than such files. *)
Theorem placemarks_come_from_files :
  forall (files : list walked_file) (pm : placemark),
    (In pm (placemarks (scan_files files)) ->
     exists f, In f files /\ recognized f = true
               /\ pm_name pm = path_name (wf_path f)
               /\ wf_relative f = Ok (pm_desc pm)
               /\ snd (resolve_gps (wf_path f))
                  = Ok (Some (pm_lat pm, pm_lon pm, pm_alt pm)))
    /\ (List.length (placemarks (scan_files files))
        <= List.length (filter recognized files))%nat.
Proof.
  intros files pm. split.
  - induction files as [|f files IH] using rev_ind; [contradiction|].
    unfold scan_files. rewrite fold_left_app. cbn [fold_left].
    rewrite scan_file_placemarks. intros Hin. apply in_app_or in Hin.
    destruct Hin as [Hin|Hin].
    + destruct (IH Hin) as (f' & Hf & H). exists f'. split; [|exact H].
      apply in_or_app. now left.
    + destruct (scan_file_placemark f) as [E|(pm' & E & H)]; rewrite E in Hin.
      * destruct Hin.
      * destruct Hin as [<-|[]]. exists f. split; [|exact H].
        apply in_or_app. right. now left.
  - induction files as [|f files IH] using rev_ind; [reflexivity|].
    unfold scan_files. rewrite fold_left_app. cbn [fold_left].
    rewrite scan_file_placemarks, filter_app, !length_app. cbn [filter].
    destruct (scan_file_placemark f) as [E|(pm' & E & Hr & _)]; rewrite E.
    + unfold scan_files in IH. cbn [List.length]. lia.
    + rewrite Hr. unfold scan_files in IH. cbn [List.length]. lia.
Qed.

End Provenance.

(** ** The text nodes of a placemark *)

Lemma xml_escape_empty (s : string) : xml_escape s = "" <-> s = "".
Proof.
  rewrite xml_escape_chars. split; [|now intros ->].
  intros H. pose proof (proj1 (escape_all_length s)) as L. rewrite H in L.
  destruct s; [reflexivity | cbn in L; lia].
Qed.

Lemma placemark_xml_form (pm : placemark) :
  placemark_xml pm
  = "    <Placemark>" ++ nl
    ++ "      <name>" ++ xml_escape (pm_name pm) ++ "</name>" ++ nl
    ++ "      "
    ++ (if String.eqb (pm_desc pm) "" then ""
        else "<description>" ++ xml_escape (pm_desc pm) ++ "</description>")
    ++ nl
    ++ "      <Point><coordinates>" ++ coordinates pm ++ "</coordinates></Point>" ++ nl
    ++ "    </Placemark>" ++ nl.
Proof.
  unfold placemark_xml. cbv zeta.
  destruct (String.eqb_spec (pm_desc pm) "") as [E|E].
  - rewrite E. reflexivity.
  - destruct (String.eqb_spec (xml_escape (pm_desc pm)) "") as [E'|_]; [|reflexivity].
    exfalso. apply E. now apply (proj1 (xml_escape_empty (pm_desc pm))).
Qed.

(** The element of a placemark holds the escaped file name between
    [<name>] and [</name>], and a [<description>] element with the
    escaped relative path exactly when that path is not empty; with an
    empty path the line of the description is left blank. *)
Theorem placemark_xml_text_nodes :
  forall pm : placemark,
    placemark_xml pm
    = "    <Placemark>" ++ nl
      ++ "      <name>" ++ xml_escape (pm_name pm) ++ "</name>" ++ nl
      ++ "      "
      ++ (if String.eqb (pm_desc pm) "" then ""
          else "<description>" ++ xml_escape (pm_desc pm) ++ "</description>")
      ++ nl
      ++ "      <Point><coordinates>" ++ coordinates pm ++ "</coordinates></Point>" ++ nl
      ++ "    </Placemark>" ++ nl
    /\ well_escaped (xml_escape (pm_name pm)) = true
    /\ well_escaped (xml_escape (pm_desc pm)) = true.
Proof.
  intros pm. split; [apply placemark_xml_form|].
  rewrite !xml_escape_chars. split; apply well_escaped_escape_all.
Qed.

(** ** The markup of the document *)

(** One of the four characters that [xml_escape] removes for good. *)
Definition markup (c : ascii) : bool :=
  Ascii.eqb c "<" || Ascii.eqb c ">" || Ascii.eqb c (ascii_of_nat 34) || Ascii.eqb c "'".

Lemma markup_cases (c : ascii) :
  markup c = true -> c = "<"%char \/ c = ">"%char \/ c = ascii_of_nat 34 \/ c = "'"%char.
Proof.
  unfold markup. intros H.
  destruct (Ascii.eqb_spec c "<"); [tauto|].
  destruct (Ascii.eqb_spec c ">"); [tauto|].
  destruct (Ascii.eqb_spec c (ascii_of_nat 34)); [tauto|].
  destruct (Ascii.eqb_spec c "'"); [tauto|]. discriminate.
Qed.

Lemma count_escape_char (c a : ascii) :
  markup c = true -> count_char c (escape_char a) = O.
Proof.
  intros H. unfold escape_char.
  destruct (Ascii.eqb_spec a "&");
    [destruct (markup_cases c H) as [->|[->|[->| ->]]]; reflexivity|].
  destruct (Ascii.eqb_spec a "<");
    [destruct (markup_cases c H) as [->|[->|[->| ->]]]; reflexivity|].
  destruct (Ascii.eqb_spec a ">");
    [destruct (markup_cases c H) as [->|[->|[->| ->]]]; reflexivity|].
  destruct (Ascii.eqb_spec a (ascii_of_nat 34));
    [destruct (markup_cases c H) as [->|[->|[->| ->]]]; reflexivity|].
  destruct (Ascii.eqb_spec a "'");
    [destruct (markup_cases c H) as [->|[->|[->| ->]]]; reflexivity|].
  cbn [count_char]. destruct (Ascii.eqb_spec a c) as [->|_]; [|reflexivity].
  destruct (markup_cases c H) as [->|[->|[->| ->]]]; congruence.
Qed.

Lemma count_xml_escape (c : ascii) (s : string) :
  markup c = true -> count_char c (xml_escape s) = O.
Proof.
  intros H. rewrite xml_escape_chars.
  induction s as [|a s IH]; [reflexivity|].
  cbn [escape_all]. now rewrite count_char_app, count_escape_char, IH.
Qed.

Lemma count_coordinates (c : ascii) (pm : placemark) :
  markup c = true -> count_char c (coordinates pm) = O.
Proof.
  intros H.
  assert (Hf : forall f, count_char c (float_str f) = O).
  { intros f. apply (count_char_absent float_char); [|apply all_chars_float_str].
    destruct (markup_cases c H) as [->|[->|[->| ->]]]; reflexivity. }
  assert (Hc : count_char c "," = O).
  { destruct (markup_cases c H) as [->|[->|[->| ->]]]; reflexivity. }
  unfold coordinates. cbv zeta.
  destruct (pm_alt pm); now rewrite !count_char_app, !Hf, !Hc.
Qed.

Lemma count_concat (c : ascii) (l : list string) :
  count_char c (String.concat "" l) = list_sum (map (count_char c) l).
Proof.
  induction l as [|a l IH]; [reflexivity|].
  change (a :: l) with ([a] ++ l)%list.
  rewrite concat_app, count_char_app, IH.
  change (String.concat "" [a]) with a. reflexivity.
Qed.

(** The angle brackets a placemark contributes: four elements and
    their ends, and one more element with a relative path that is not
    empty. *)
Definition brackets_of (pm : placemark) : nat :=
  if String.eqb (pm_desc pm) "" then 8%nat else 10%nat.

Lemma count_placemark_xml (c : ascii) (pm : placemark) :
  markup c = true ->
  count_char c (placemark_xml pm)
  = if Ascii.eqb c "<" || Ascii.eqb c ">" then brackets_of pm else O.
Proof.
  intros H. rewrite placemark_xml_form. unfold brackets_of.
  destruct (String.eqb (pm_desc pm) "");
    rewrite !count_char_app, !count_xml_escape, count_coordinates by exact H;
    destruct (markup_cases c H) as [->|[->|[->| ->]]]; reflexivity.
Qed.

(** Whatever the file names, the relative paths and the document name
    are, the angle brackets and quotes of the document are those of the
    template: seven opening and seven closing brackets around the
    placemarks, eight or ten of each for a placemark, the six double
    quotes of the first two lines and no single quote.  No name can add
    an element or an attribute. *)
Theorem build_kml_markup_is_fixed :
  forall (placemarks : list placemark) (doc_name : string),
    count_char "<" (build_kml placemarks doc_name)
    = (7 + list_sum (map brackets_of placemarks))%nat
    /\ count_char ">" (build_kml placemarks doc_name)
       = (7 + list_sum (map brackets_of placemarks))%nat
    /\ count_char (ascii_of_nat 34) (build_kml placemarks doc_name) = 6%nat
    /\ count_char "'" (build_kml placemarks doc_name) = O.
Proof.
  intros pms doc.
  assert (Hsum : forall c, markup c = true ->
            list_sum (map (count_char c) (map placemark_xml pms))
            = if Ascii.eqb c "<" || Ascii.eqb c ">"
              then list_sum (map brackets_of pms) else O).
  { intros c H. unfold list_sum.
    induction pms as [|pm pms IH]; [now destruct (_ || _)|].
    cbn [map fold_right]. rewrite IH, (count_placemark_xml c pm H).
    now destruct (_ || _). }
  unfold build_kml. cbv zeta.
  repeat split;
    rewrite !count_char_app, count_concat, Hsum, count_xml_escape by reflexivity;
    cbn; lia.
Qed.

(** * Runs on the photo folder *)

#[local] Existing Instance Photos.photos.

(** The coordinate found in the raw bytes of [a.jpg], and the one
    found in the EXIF dictionary of [a.jpg] behind the collaborator
    that keeps the tag names: 10 degrees 30 minutes north, 20 degrees
    15 minutes east. *)
Lemma coordinates_are_dms_values_photos :
  (exists (ex g : pydict) (latref lonref : pyval),
      piexif_load (Runtime := Photos.photos) (VBytes "A") = Ok (VDict ex)
      /\ dict_get_default ex (VStr "GPS") (VDict []) = VDict g
      /\ decode_ascii_or_None
           (dict_get_default g (VInt GPSIFD.GPSLatitudeRef) (VBytes "")) = Ok latref
      /\ decode_ascii_or_None
           (dict_get_default g (VInt GPSIFD.GPSLongitudeRef) (VBytes "")) = Ok lonref
      /\ range_kept (R := Photos.photos)
                    (dict_get_default g (VInt GPSIFD.GPSLatitude) VNone) latref 10.5 89 90
      /\ range_kept (R := Photos.photos)
                    (dict_get_default g (VInt GPSIFD.GPSLongitude) VNone) lonref 20.25
                    179 180)
  /\ (exists (tag : pyval) (gps_ifd : pydict),
         dict_get (TAGS (R := Photos.named_tags)) (VStr "GPSInfo") = Some tag
         /\ dict_get [(VInt 34853, VDict Photos.gps_ifd_named)] tag = Some (VDict gps_ifd)
         /\ let gps := dict_comprehension
                         (fun k _ => dict_get_default (GPSTAGS (R := Photos.named_tags)) k k)
                         (fun _ v => v) gps_ifd in
            range_kept (R := Photos.named_tags)
                       (get_str gps "GPSLatitude") (get_str gps "GPSLatitudeRef") 10.5 89 90
            /\ range_kept (R := Photos.named_tags)
                          (get_str gps "GPSLongitude") (get_str gps "GPSLongitudeRef") 20.25
                          179 180).
Proof.
  split.
  - apply (proj1 (coordinates_are_dms_values (R := Photos.photos) (VBytes "A") []
                    10.5%float 20.25%float (Some (-100)%float))).
    reflexivity.
  - apply (proj2 (coordinates_are_dms_values (R := Photos.named_tags) VNone
                    [(VInt 34853, VDict Photos.gps_ifd_named)]
                    10.5%float 20.25%float (Some (-100)%float))).
    reflexivity.
Defined.

(** The numbers stored for [a.jpg] are in range, and so are 89 degrees
    59 minutes 60 seconds and the pole itself; 90 degrees and one
    minute are not. *)
Example stored_in_range_photos :
  dms_stored (R := Photos.photos) (Photos.dms 10 30 0) 10 30 0
  /\ stored_in_range 89 90 10 30 0 = true
  /\ stored_in_range 179 180 20 15 0 = true
  /\ stored_in_range 89 90 89 59 60 = true
  /\ stored_in_range 89 90 90 0 0 = true
  /\ stored_in_range 89 90 90 1 0 = false
  /\ dms_to_deg (R := Photos.photos) (Photos.dms 89 59 60) (VStr "S") = Some (-90)%float.
Proof.
  split; [|repeat split; reflexivity].
  exists (Photos.rat 10 1), (Photos.rat 30 1), (Photos.rat 0 1). repeat split.
Qed.

(** C5, as the claim has it, fails: the raw bytes of [d.jpeg] hold a
    latitude of 100 degrees and a longitude of 200 degrees, and the
    extractor returns them. *)
Lemma latitude_beyond_90 :
  snd (extract_gps_from_piexif_bytes (VBytes "D"))
  = Ok (Some (100%float, 200%float, None))
  /\ PrimFloat.leb 100 90 = false
  /\ PrimFloat.leb 200 180 = false.
Proof. repeat split; reflexivity. Qed.

(** C4 at a GPS block with an altitude of 100 m and reference 1.  The
    tag-dictionary extractor returns nothing for it, keyed by tag id or
    by tag name, because the renaming through [GPSTAGS] leaves no key
    named [GPSLatitude] or [GPSAltitude]; the raw-bytes extractor, which
    looks the entries up by id, returns the altitude -100. *)
Lemma pil_extractor_loses_gps_block :
  extract_gps_from_pil_exif Photos.exif_with_gps = None
  /\ extract_gps_from_pil_exif [(VInt 34853, VDict Photos.gps_ifd_named)] = None
  /\ gps_of_piexif (VDict [(VStr "GPS", VDict Photos.gps_ifd_below)])
     = Ok (Some (10.5%float, 20.25%float, Some (-100)%float)).
Proof. repeat split; reflexivity. Qed.

(** The tag-dictionary extractor on the GPS block keyed by tag name,
    with Pillow's table. *)
Lemma extract_gps_from_pil_exif_nothing_photos :
  extract_gps_from_pil_exif [(VInt 34853, VDict Photos.gps_ifd_named)] = None.
Proof.
  apply (extract_gps_from_pil_exif_nothing (R := Photos.photos) 2).
  cbn. right. right. left. reflexivity.
Defined.

(** The raw-bytes extractor on the block of [a.jpg]: reference 1 turns
    the altitude of 100 m into -100. *)
Lemma gps_of_piexif_block_photos :
  gps_of_piexif (VDict [(VStr "0th", VDict []); (VStr "GPS", VDict Photos.gps_ifd_below)])
  = Ok (Some (10.5%float, 20.25%float, Some (-100)%float)).
Proof.
  apply (gps_of_piexif_block (R := Photos.photos)
           [(VStr "0th", VDict []); (VStr "GPS", VDict Photos.gps_ifd_below)]
           Photos.gps_ifd_below "N" "E");
    [reflexivity | discriminate | reflexivity | reflexivity].
Defined.

(** The three ways of the resolver.  Behind the collaborator that keeps
    the tag names, the EXIF dictionary of [a.jpg] gives the coordinate
    and nothing else is called, though [im.info] holds raw bytes of
    another place.  With Pillow's tables, [a.jpg] has no GPS entry in
    its EXIF dictionary and a GPS block in the raw bytes of [im.info],
    [e.HEIC] has its raw bytes in the second block of its HEIF
    metadata, and both become placemarks; [c.tif] offers no raw
    bytes. *)
Lemma resolve_gps_spec_photos :
  let here := (10.5%float, 20.25%float, Some (-100)%float) in
  let pm name := {| pm_name := name; pm_lat := 10.5; pm_lon := 20.25;
                    pm_alt := Some (-100)%float; pm_desc := name |} in
  (resolve_gps (R := Photos.named_tags) (wf_path (Photos.file "a.jpg"))
   = ([EvImageOpen "/photos/a.jpg"; EvGetExif], Ok (Some here))
   /\ placemarks (scan_file (R := Photos.named_tags) scan_start (Photos.file "a.jpg"))
      = [pm "a.jpg"])
  /\ (resolve_gps (R := Photos.photos) (wf_path (Photos.file "a.jpg"))
      = ([EvImageOpen "/photos/a.jpg"; EvGetExif; EvInfoExif; EvPiexifLoad (VBytes "A")],
         Ok (Some here))
      /\ placemarks (scan_file (R := Photos.photos) scan_start (Photos.file "a.jpg"))
         = [pm "a.jpg"])
  /\ (resolve_gps (R := Photos.photos) (wf_path (Photos.file "e.HEIC"))
      = ([EvImageOpen "/photos/e.HEIC"; EvGetExif; EvInfoExif; EvOpenHeif "/photos/e.HEIC";
          EvPiexifLoad (VBytes "A")],
         Ok (Some here))
      /\ placemarks (scan_file (R := Photos.photos) scan_start (Photos.file "e.HEIC"))
         = [pm "e.HEIC"])
  /\ resolve_gps (R := Photos.photos) (wf_path (Photos.file "c.tif"))
     = ([EvImageOpen "/photos/c.tif"; EvGetExif; EvInfoExif], Ok None).
Proof.
  intros here pm.
  pose proof (resolve_gps_spec (R := Photos.named_tags) (Photos.file "a.jpg")
                (Photos.image_of [(VInt 34853, VDict Photos.gps_ifd_named)]
                                 [(VStr "exif", VBytes "D")])
                [(VInt 34853, VDict Photos.gps_ifd_named)] eq_refl eq_refl eq_refl)
    as (Hnamed & _ & _).
  pose proof (resolve_gps_spec (R := Photos.photos) (Photos.file "a.jpg")
                (Photos.image_of Photos.exif_without_gps [(VStr "exif", VBytes "A")])
                Photos.exif_without_gps eq_refl eq_refl eq_refl)
    as (_ & Hinfo & _).
  pose proof (resolve_gps_spec (R := Photos.photos) (Photos.file "e.HEIC")
                (Photos.image_of [] []) [] eq_refl eq_refl eq_refl)
    as (_ & Hheif & _).
  pose proof (resolve_gps_spec (R := Photos.photos) (Photos.file "c.tif")
                (Photos.image_of Photos.exif_with_gps []) Photos.exif_with_gps
                eq_refl eq_refl eq_refl)
    as (_ & _ & Hnone).
  split; [|split; [|split]].
  - destruct (Hnamed here eq_refl) as [Hres Hpm].
    split; [exact Hres | exact (Hpm scan_start "a.jpg" eq_refl eq_refl)].
  - assert (Hb : raw_bytes_of (R := Photos.photos) (wf_path (Photos.file "a.jpg"))
                   (Photos.image_of Photos.exif_without_gps [(VStr "exif", VBytes "A")])
                   (VBytes "A")) by (left; split; reflexivity).
    destruct (Hinfo (VBytes "A") eq_refl Hb) as (_ & _ & Hload).
    destruct (Hload _ here eq_refl eq_refl eq_refl) as [Hres Hpm].
    split; [exact Hres | exact (proj1 (Hpm scan_start "a.jpg" eq_refl eq_refl))].
  - assert (Hb : raw_bytes_of (R := Photos.photos) (wf_path (Photos.file "e.HEIC"))
                   (Photos.image_of [] []) (VBytes "A")).
    { right. split; [reflexivity|].
      eexists _, [VDict [(VStr "type", VStr "XMP"); (VStr "data", VBytes "x")]],
              [(VStr "type", VStr "Exif"); (VStr "data", VBytes "A")], [].
      repeat split; reflexivity. }
    destruct (Hheif (VBytes "A") eq_refl Hb) as (_ & _ & Hload).
    destruct (Hload _ here eq_refl eq_refl eq_refl) as [Hres Hpm].
    split; [exact Hres | exact (proj1 (Hpm scan_start "e.HEIC" eq_refl eq_refl))].
  - apply Hnone; [reflexivity|]. split; [reflexivity | left; reflexivity].
Defined.

(** C2, as the claim has it, fails on a machine without piexif: the
    EXIF dictionary of [a.jpg] has no GPS entry, the raw bytes of
    [im.info] hold a GPS block, which the parser would read as 10.5
    degrees north and 20.25 degrees east, and yet the resolver finds no
    coordinate and the scan makes no placemark of the file. *)
Lemma raw_bytes_without_piexif :
  let p := wf_path (Photos.file "a.jpg") in
  let im := Photos.image_of Photos.exif_without_gps [(VStr "exif", VBytes "A")] in
  Image_open (Runtime := Photos.without_piexif) (path_str p) = Ok im
  /\ extract_gps_from_pil_exif (R := Photos.without_piexif) Photos.exif_without_gps = None
  /\ raw_bytes_of (R := Photos.without_piexif) p im (VBytes "A")
  /\ exc_bind (piexif_load (Runtime := Photos.without_piexif) (VBytes "A"))
              (gps_of_piexif (R := Photos.without_piexif))
     = Ok (Some (10.5%float, 20.25%float, Some (-100)%float))
  /\ resolve_gps (R := Photos.without_piexif) p
     = ([EvImageOpen "/photos/a.jpg"; EvGetExif; EvInfoExif], Ok None)
  /\ placemarks (scan_files (R := Photos.without_piexif) [Photos.file "a.jpg"]) = []
  /\ skipped (scan_files (R := Photos.without_piexif) [Photos.file "a.jpg"]) = 1.
Proof.
  intros p im. repeat split; try reflexivity. left. split; reflexivity.
Qed.

(** A folder with two image files, neither with a coordinate, and a
    text file. *)
Lemma main_no_placemarks_photos :
  let args := Photos.photos_args ["b.jpg"; "c.tif"; "notes.txt"] in
  exit_code (main args) = 4
  /\ stdout (main args) = []
  /\ stderr (main args)
     = ["No geotagged images found. No KML written.";
        "Scanned 2 images; 0 with GPS; 2 skipped."]
  /\ run_calls (main args)
     = [EvImageOpen "/photos/b.jpg"; EvImageOpen "/photos/c.tif"; EvGetExif; EvInfoExif]
  /\ existsb is_write (run_calls (main args)) = false.
Proof.
  exact (main_no_placemarks (R := Photos.photos) (Photos.photos_args ["b.jpg"; "c.tif"; "notes.txt"])
                            eq_refl eq_refl).
Defined.

(** Three files that fail in three places, each skipped without a
    warning: [b.jpg] cannot be opened, the raw bytes of [f.jpg] are
    refused by [piexif.load], and the HEIF metadata of [g.heic] cannot
    be opened.  [b.jpg] stands between two files with coordinates. *)
Lemma scan_file_failures_photos :
  scan_file scan_start (Photos.file "b.jpg")
  = skip scan_start [EvImageOpen "/photos/b.jpg"] []
  /\ scan_file scan_start (Photos.file "f.jpg")
     = skip scan_start [EvImageOpen "/photos/f.jpg"; EvGetExif; EvInfoExif;
                        EvPiexifLoad (VBytes "X")] []
  /\ scan_file scan_start (Photos.file "g.heic")
     = skip scan_start [EvImageOpen "/photos/g.heic"; EvGetExif; EvInfoExif;
                        EvOpenHeif "/photos/g.heic"] []
  /\ placemarks (scan_files (map Photos.file ["a.jpg"; "b.jpg"; "e.HEIC"]))
     = (placemarks (scan_files [Photos.file "a.jpg"])
        ++ placemarks (scan_files [Photos.file "b.jpg"])
        ++ placemarks (scan_files [Photos.file "e.HEIC"]))%list.
Proof.
  destruct (scan_file_failures (R := Photos.photos) scan_start (Photos.file "b.jpg")
              [Photos.file "a.jpg"] [Photos.file "e.HEIC"] eq_refl)
    as (_ & Hopen & _ & _ & _ & _ & _ & _ & _ & _ & Hpm).
  destruct (scan_file_failures (R := Photos.photos) scan_start (Photos.file "f.jpg")
              [] [] eq_refl)
    as (_ & _ & _ & Hf & _).
  destruct (scan_file_failures (R := Photos.photos) scan_start (Photos.file "g.heic")
              [] [] eq_refl)
    as (_ & _ & _ & Hg & _).
  split; [exact (Hopen _ eq_refl)|]. split; [|split; [|exact Hpm]].
  - destruct (Hf (Photos.image_of Photos.exif_without_gps [(VStr "exif", VBytes "X")])
                Photos.exif_without_gps eq_refl eq_refl eq_refl eq_refl) as [_ Hb].
    assert (Hraw : raw_bytes_of (R := Photos.photos) (wf_path (Photos.file "f.jpg"))
                     (Photos.image_of Photos.exif_without_gps [(VStr "exif", VBytes "X")])
                     (VBytes "X")) by (left; split; reflexivity).
    destruct (Hb (VBytes "X") Hraw eq_refl) as [Hload _].
    exact (Hload _ eq_refl).
  - destruct (Hg (Photos.image_of [] []) [] eq_refl eq_refl eq_refl eq_refl) as [Hn _].
    apply Hn. split; [reflexivity|]. right. left. eexists. reflexivity.
Defined.

(** C9, as the claim has it, fails: opening [b.jpg] raises, the file is
    counted as skipped, and the error stream holds no warning, only the
    two closing lines of the run. *)
Lemma unreadable_file_no_warning :
  Image_open "/photos/b.jpg"
  = Raise (Exn OSError "cannot identify image file /photos/b.jpg")
  /\ skipped (scan_files [Photos.file "b.jpg"]) = 1
  /\ warnings (scan_files [Photos.file "b.jpg"]) = []
  /\ stderr (main (Photos.photos_args ["b.jpg"]))
     = ["No geotagged images found. No KML written.";
        "Scanned 1 images; 0 with GPS; 1 skipped."].
Proof. repeat split; reflexivity. Qed.

(** The one warning the loop of [main] can print: the coordinate of
    [a.jpg] is found, but the file does not lie under the folder. *)
Example warning_for_stray_file :
  warnings (scan_files [ {| wf_path := wf_path (Photos.file "a.jpg");
                            wf_relative := Raise (Exn ValueError "not in the subpath") |} ])
  = ["[WARN] /photos/a.jpg: not in the subpath"].
Proof. reflexivity. Qed.

(** The whole folder: three placemarks, two files skipped, the text
    file not counted. *)
Example main_photos :
  let r := main (Photos.photos_args
                   ["a.jpg"; "b.jpg"; "c.tif"; "d.jpeg"; "e.HEIC"; "notes.txt"]) in
  exit_code r = 0
  /\ stdout r = ["Wrote KML: /photos/photos_images.kml";
                 "Scanned 5 images; 3 with GPS; 2 skipped."]
  /\ stderr r = [].
Proof. repeat split; reflexivity. Qed.

(** EXIF rationals of the photo folder. *)
Lemma exif_rationals_always_convert_photos :
  (exists f, rational_to_float (VTuple [VInt 10; VInt 1]) = Some f
             /\ rational_to_float (VRational 10 1) = Some f)
  /\ (exists deg,
        dms_to_deg (VTuple [VTuple [VInt 10; VInt 1]; VTuple [VInt 30; VInt 0];
                            VTuple [VInt 0; VInt 1]]) (VStr "N") = Some deg
        /\ dms_to_deg (VTuple [VRational 10 1; VRational 30 0; VRational 0 1]) (VStr "N")
           = Some deg).
Proof.
  apply (exif_rationals_always_convert (R := Photos.photos) 10 1 30 0 0 1 (VStr "N"));
    unfold small; lia.
Defined.

(** [TAGS.get("GPSInfo")] with Pillow's table. *)
Lemma reverse_table_lookup_photos :
  dict_get (reverse_table Photos.PIL_TAGS) (VStr "GPSInfo") = Some (VInt 34853).
Proof.
  refine (proj1 (reverse_table_lookup Photos.PIL_TAGS 34853 "GPSInfo" VNone _) _).
  - cbn. repeat (constructor; [cbn; intuition discriminate|]). constructor.
  - cbn. tauto.
Defined.

(** The coordinate of [a.jpg] was parsed by piexif. *)
Lemma coordinates_come_from_raw_bytes_photos :
  have_piexif = true
  /\ exists b ex,
       truthy b = true /\ piexif_load b = Ok ex
       /\ gps_of_piexif ex = Ok (Some (10.5%float, 20.25%float, Some (-100)%float))
       /\ In (EvPiexifLoad b) (fst (resolve_gps (wf_path (Photos.file "a.jpg")))).
Proof.
  apply (coordinates_come_from_raw_bytes (R := Photos.photos) 2 (wf_path (Photos.file "a.jpg"))
           (10.5%float, 20.25%float, Some (-100)%float)).
  - cbn. tauto.
  - reflexivity.
Defined.

Lemma without_piexif_nothing_is_found_photos :
  let args := Photos.photos_args ["a.jpg"; "b.jpg"; "c.tif"; "d.jpeg"; "e.HEIC"] in
  placemarks (scan_files (R := Photos.without_piexif) (walk args)) = []
  /\ with_gps (scan_files (R := Photos.without_piexif) (walk args)) = 0
  /\ (exit_code (main (R := Photos.without_piexif) args) = 3
      \/ exit_code (main (R := Photos.without_piexif) args) = 4)
  /\ existsb is_write (run_calls (main (R := Photos.without_piexif) args)) = false.
Proof.
  apply (without_piexif_nothing_is_found (R := Photos.without_piexif) 2).
  - cbn. tauto.
  - reflexivity.
Defined.

(** The metadata of [e.HEIC]: an XMP block, then the EXIF block. *)
Lemma heif_first_exif_block_photos :
  let p := wf_path (Photos.file "e.HEIC") in
  let xmp := VDict [(VStr "type", VStr "XMP"); (VStr "data", VBytes "x")] in
  let exif := [(VStr "type", VStr "Exif"); (VStr "data", VBytes "A")] in
  heif_exif_bytes (R := Photos.photos) p VNone
  = ([EvOpenHeif "/photos/e.HEIC"], Ok (VBytes "A")).
Proof.
  intros p xmp exif.
  refine (proj1 (heif_first_exif_block (R := Photos.photos) p VNone
                   {| hf_metadata := Ok (VList [xmp; VDict exif]) |} [xmp; VDict exif]
                   eq_refl eq_refl)
            [xmp] exif [] eq_refl eq_refl eq_refl).
Defined.
